(** * AceBase IPC server: a shallow embedding of [server.ts]

    The server is a message router.  Peers connect over a websocket at
    [/:dbname/connect], are kept in a per-database list, and exchange text
    frames that [handleIncomingMessage] forwards.  Oversized bodies are parked
    in [largeMessages] and fetched over HTTP.

    Modelling conventions.
    - JavaScript strings are [string]: a character is one UTF-16 code unit
      of value below 256, and [String.length] is [.length], the number of
      code units.  On the wire a text frame is UTF-8: a code unit below 128
      takes one byte, any other of these two ([utf8Length]).
    - JavaScript numbers that the code uses as integers are [Z]; the model
      follows the code for the integers a number holds exactly
      ([safeInteger]).
    - The two plain objects used as dictionaries ([clients], [largeMessages])
      and the object built by [parseQuery] are [gmap]s of their own
      properties.  The names every object inherits from [Object.prototype]
      are listed in [inheritedNames]: for these [name in this.clients] holds
      without an entry, [getClients] returns what is inherited, which is no
      array, and the caller's [find], [map] or [forEach] raises a
      [TypeError].
    - The websocket library (uWebSockets.js) is not part of the repository.
      Its sockets are handles ([nat]); its topic tree is kept in the state.
      [ws.close()] runs the [close] handler before it returns, [res.upgrade]
      runs the [open] handler before it returns, [ws.publish] skips the
      publishing socket and [app.publish] does not.
    - [Date.now()] and [Math.floor(Math.random() * _maxNr)] are readings of
      the environment; every event carries them.
    - The callbacks given to [setTimeout] wait in a queue; a turn of the
      event loop runs the ones that are due, then the handler of the event.
    - An event [Message] is one call of the [message] handler.  The library
      closes a connection whose frame is longer than [maxPayloadLength]
      without calling the handler; that is not modelled, so what is proved
      for every frame holds for the frames the library hands over.  The
      body of a POST request arrives in one chunk.

    The file also covers the class [SimpleObservable] of the test helper
    (module [SimpleObservable]) and the function [getVariable] of the start
    script (module [Start]). *)

From Stdlib Require Import ZArith Ascii String List Lia Bool.
From stdpp Require Import base option gmap strings list.

#[local] Set Warnings "-clear-no-such-hyp".

Local Open Scope string_scope.
Local Open Scope Z_scope.

(** ** JavaScript string primitives used by the server *)

Module JS.

(** [s.startsWith(p)] *)
Definition startsWith (s p : string) : bool := String.prefix p s.

(** [s.indexOf(c)] for a one-character needle; [-1] when absent. *)
Fixpoint indexOf (s : string) (c : ascii) : Z :=
  match s with
  | EmptyString => -1
  | String a r =>
      if Ascii.eqb a c then 0
      else let i := indexOf r c in if i <? 0 then -1 else i + 1
  end.

Fixpoint drop (n : nat) (s : string) : string :=
  match n, s with
  | O, _ => s
  | S _, EmptyString => EmptyString
  | S k, String _ r => drop k r
  end.

Fixpoint take (n : nat) (s : string) : string :=
  match n, s with
  | O, _ => EmptyString
  | S _, EmptyString => EmptyString
  | S k, String a r => String a (take k r)
  end.

(** Relative index of [slice]: negative counts from the end, then clamp. *)
Definition clampIndex (len i : Z) : Z :=
  if i <? 0 then Z.max (len + i) 0 else Z.min i len.

(** [s.slice(b, e)] *)
Definition slice (s : string) (b e : Z) : string :=
  let len := Z.of_nat (String.length s) in
  let from := clampIndex len b in
  let to := clampIndex len e in
  take (Z.to_nat (to - from)) (drop (Z.to_nat from) s).

(** [s.slice(b)] *)
Definition sliceFrom (s : string) (b : Z) : string :=
  let len := Z.of_nat (String.length s) in
  drop (Z.to_nat (clampIndex len b)) s.

(** [s.split(c)] for a one-character separator; never the empty list. *)
Fixpoint split (c : ascii) (s : string) : list string :=
  match s with
  | EmptyString => [EmptyString]
  | String a r =>
      if Ascii.eqb a c then EmptyString :: split c r
      else match split c r with
           | [] => [String a EmptyString]
           | h :: t => String a h :: t
           end
  end.

(** Digit of [Number.prototype.toString(radix)], radix at most 36. *)
Definition digitChar (d : Z) : ascii :=
  if d <? 10 then ascii_of_nat (Z.to_nat (48 + d))
  else ascii_of_nat (Z.to_nat (87 + d)).

Fixpoint digitsAux (fuel : nat) (radix n : Z) (acc : string) : string :=
  match fuel with
  | O => acc
  | S f =>
      let acc' := String (digitChar (n mod radix)) acc in
      if n / radix =? 0 then acc' else digitsAux f radix (n / radix) acc'
  end.

(** [n.toString(radix)] for an integer [n]. *)
Definition toString (radix n : Z) : string :=
  if n <? 0
  then String "-" (digitsAux (S (Z.to_nat (Z.log2 (- n)))) radix (- n) EmptyString)
  else digitsAux (S (Z.to_nat (Z.log2 n))) radix n EmptyString.

Fixpoint repeatChar (n : nat) (c : ascii) : string :=
  match n with
  | O => EmptyString
  | S k => String c (repeatChar k c)
  end.

(** [s.padStart(width, c)] with a one-character filler. *)
Definition padStart (s : string) (width : nat) (c : ascii) : string :=
  repeatChar (width - String.length s) c ++ s.

(** Value of a lower-case digit string in the given radix (the inverse of
    [toString] on its image); used to read the segments of an id back. *)
Definition digitValue (c : ascii) : Z :=
  let k := Z.of_nat (nat_of_ascii c) in
  if k <? 58 then k - 48 else k - 87.

Fixpoint parseAux (radix : Z) (s : string) (acc : Z) : Z :=
  match s with
  | EmptyString => acc
  | String c r => parseAux radix r (acc * radix + digitValue c)
  end.

Definition parseInt (s : string) (radix : Z) : Z := parseAux radix s 0.

(** A character of the base-36 alphabet [0-9a-z]. *)
Definition isDigit36 (c : ascii) : bool :=
  let k := Z.of_nat (nat_of_ascii c) in
  ((48 <=? k) && (k <=? 57)) || ((97 <=? k) && (k <=? 122)).

Fixpoint allChars (p : ascii -> bool) (s : string) : bool :=
  match s with
  | EmptyString => true
  | String c r => p c && allChars p r
  end.

(** Template-literal rendering of a value that is a string or [undefined]. *)
Definition show (v : option string) : string := default "undefined" v.

End JS.

(** ** Data model *)

(** [AceBaseIPCServerConfig] after [start()] has filled in the default
    [maxPayload]; [development] is [process.env.NODE_ENV === 'development']. *)
Record AceBaseIPCServerConfig := {
  maxPayload : Z;
  token : option string;
  development : bool
}.

(** The raw constructor argument: [maxPayload] may be missing. *)
Definition startConfig (mp : option Z) (tk : option string) (dev : bool)
  : AceBaseIPCServerConfig :=
  {| maxPayload := default (16 * 1024) mp; token := tk; development := dev |}.

(** [AceBaseIPCClient]; [client_ws] is the socket handle. *)
Record AceBaseIPCClient := {
  client_id : string;
  client_dbname : string;
  client_connected : Z;
  client_ws : nat
}.

(** An open uWS socket: the user data given to [res.upgrade] that the
    handlers read back ([ws.dbname], [ws.env.id]) and its topic
    subscriptions. *)
Record WebSocket := {
  ws_dbname : string;
  ws_env_id : string;
  ws_topics : gset string
}.

(** A pending [setTimeout] callback [delete this.largeMessages[id]]. *)
Record Timer := { due : Z; slot : string }.

Record Server := {
  config : AceBaseIPCServerConfig;
  clients : gmap string (list AceBaseIPCClient);
  largeMessages : gmap string string;
  _idSequence : Z;
  timers : list Timer;
  sockets : gmap nat WebSocket;
  nextSocket : nat
}.

Definition newServer (cfg : AceBaseIPCServerConfig) : Server :=
  {| config := cfg; clients := ∅; largeMessages := ∅; _idSequence := 0;
     timers := []; sockets := ∅; nextSocket := 0 |}.

Definition setClients (s : Server) (c : gmap string (list AceBaseIPCClient)) : Server :=
  {| config := config s; clients := c; largeMessages := largeMessages s;
     _idSequence := _idSequence s; timers := timers s; sockets := sockets s;
     nextSocket := nextSocket s |}.

Definition setLargeMessages (s : Server) (m : gmap string string) : Server :=
  {| config := config s; clients := clients s; largeMessages := m;
     _idSequence := _idSequence s; timers := timers s; sockets := sockets s;
     nextSocket := nextSocket s |}.

Definition setIdSequence (s : Server) (n : Z) : Server :=
  {| config := config s; clients := clients s; largeMessages := largeMessages s;
     _idSequence := n; timers := timers s; sockets := sockets s;
     nextSocket := nextSocket s |}.

Definition setTimers (s : Server) (t : list Timer) : Server :=
  {| config := config s; clients := clients s; largeMessages := largeMessages s;
     _idSequence := _idSequence s; timers := t; sockets := sockets s;
     nextSocket := nextSocket s |}.

Definition setSockets (s : Server) (k : gmap nat WebSocket) (n : nat) : Server :=
  {| config := config s; clients := clients s; largeMessages := largeMessages s;
     _idSequence := _idSequence s; timers := timers s; sockets := k;
     nextSocket := n |}.

(** What a handler does to the outside world. *)
Inductive effect :=
  | Deliver (ws : nat) (frame : string)      (* a frame written to socket [ws] *)
  | Closed (ws : nat)                        (* [ws.close()] *)
  | Upgraded (ws : nat)                      (* [res.upgrade]: the socket exists *)
  | Respond (status : option string) (body : string)   (* [writeStatus], [end] *)
  | RespondClients (rows : list (string * Z))          (* [end(JSON.stringify(rows))] *)
  | Warn (text : string)                     (* [console.warn] *)
  | Thrown.                                  (* an exception left the handler *)

#[global] Instance effect_eq_dec : EqDecision effect.
Proof. solve_decision. Defined.

(** The argument of [sendMessage] has type [any]: a string, or another value
    given here by its [JSON.stringify] text. *)
Inductive message :=
  | MString (s : string)
  | MValue (json : string).

(** The environment readings of one handler run. *)
Record reading := { now : Z; random : Z }.

(** ** The topic tree of the websocket library *)

(** [ws.subscribe(topic)] *)
Definition subscribe (h : nat) (topic : string) (s : Server) : Server :=
  setSockets s
    (alter (fun w => {| ws_dbname := ws_dbname w; ws_env_id := ws_env_id w;
                        ws_topics := {[topic]} ∪ ws_topics w |}) h (sockets s))
    (nextSocket s).

(** The open sockets subscribed to [topic]. *)
Definition subscribers (topic : string) (s : Server) : list nat :=
  (filter (fun hw => topic ∈ ws_topics hw.2) (map_to_list (sockets s))).*1.

(** [app.publish(topic, frame)] *)
Definition appPublish (topic frame : string) (s : Server) : list effect :=
  (fun h => Deliver h frame) <$> subscribers topic s.

(** [ws.publish(topic, frame)]: every subscriber but [ws] itself. *)
Definition wsPublish (ws : nat) (topic frame : string) (s : Server) : list effect :=
  (fun h => Deliver h frame) <$> filter (fun h => h ≠ ws) (subscribers topic s).

(** ** The server *)

(** The property names that every plain object inherits from
    [Object.prototype]: for these [name in object] holds though the object
    has no such property of its own, and [object[name]] is a function (for
    [__proto__], the prototype itself), never an array. *)
Definition inheritedNames : list string :=
  ["constructor"; "__defineGetter__"; "__defineSetter__"; "hasOwnProperty";
   "__lookupGetter__"; "__lookupSetter__"; "isPrototypeOf"; "propertyIsEnumerable";
   "toString"; "valueOf"; "__proto__"; "toLocaleString"].

Definition inherited (name : string) : bool := bool_decide (name ∈ inheritedNames).

(** [getClients(dbname)]: the list of the group, created when
    [dbname in this.clients] fails.  For a name that [this.clients] only
    inherits the test holds, nothing is created, and what is returned is not
    an array: [None]. *)
Definition getClients (dbname : string) (s : Server)
  : Server * option (list AceBaseIPCClient) :=
  match clients s !! dbname with
  | Some l => (s, Some l)
  | None =>
      if inherited dbname then (s, None)
      else (setClients s (<[dbname := []]> (clients s)), Some [])
  end.

(** [parseQuery(q)]: later pairs overwrite earlier ones; a pair without [=]
    stores [undefined].  The object starts as [{}]: an assignment to
    [__proto__] goes to the setter it inherits, which ignores a value that
    is a string or [undefined], so such a pair stores nothing. *)
Definition parseQuery (q : string) : gmap string (option string) :=
  fold_left
    (fun init kvp =>
       let pair := JS.split "=" kvp in
       if String.eqb (List.nth 0 pair EmptyString) "__proto__" then init
       else <[ List.nth 0 pair EmptyString := List.nth_error pair 1 ]> init)
    (JS.split "&" q) ∅.

(** Property read [env.k] for a name [k] that [Object.prototype] does not
    define (the server reads [v], [id], [t] and [msg]): a string, or [None]
    for [undefined]. *)
Definition prop (env : gmap string (option string)) (k : string) : option string :=
  mjoin (env !! k).

(** [Math.pow(36, 8)] *)
Definition _maxNr : Z := 36 ^ 8.

(** [generateID()] with the clock and random readings it takes. *)
Definition generateID (r : reading) (s : Server) : Server * string :=
  let seq := if _idSequence s + 1 =? _maxNr then 0 else _idSequence s + 1 in
  let time := JS.padStart (JS.toString 36 (now r)) 8 "0" in
  let seqs := JS.padStart (JS.toString 36 seq) 8 "0" in
  let rand := JS.padStart (JS.toString 36 (random r)) 8 "0" in
  (setIdSequence s seq, time ++ seqs ++ rand).

(** [client.sendMessage(msg)] (the back-pressure warning is not modelled). *)
Definition sendMessage (c : AceBaseIPCClient) (msg : message) : list effect :=
  let data := match msg with
              | MString m => m
              | MValue json => "msg:" ++ json
              end in
  [Deliver (client_ws c) data].

(** The channel name [`from-${dbname}-${id}`]. *)
Definition topicOf (dbname id : string) : string := "from-" ++ dbname ++ "-" ++ id.

(** The optional recipient prefix of [handleIncomingMessage]
    ([if (msg.startsWith('to:')) ...]): the recipient and the remaining body. *)
Definition splitRecipient (msg : string) : string * string :=
  if JS.startsWith msg "to:" then
    let i := JS.indexOf msg ";" in
    (JS.slice msg 3 i, JS.sliceFrom msg (i + 1))
  else (EmptyString, msg).

(** The spill of [handleIncomingMessage]
    ([if (msg.length > this.config.maxPayload) ...]): the body is parked under
    a generated id, its removal is scheduled 60 s ahead, and the outbound
    body becomes the download instruction. *)
Definition spill (r : reading) (msg : string) (s : Server) : Server * string :=
  if Z.of_nat (String.length msg) >? maxPayload (config s) then
    let '(s, id) := generateID r s in
    let s := setLargeMessages s (<[id := msg]> (largeMessages s)) in
    let s := setTimers s (timers s ++ [{| due := now r + 60000; slot := id |}]) in
    (s, "get:" ++ id)
  else (s, msg).

(** The dispatch of [handleIncomingMessage] ([if (to.length > 0) ... else ...])
    on the list of the group. *)
Definition forward (to msg : string) (ws : nat) (group : list AceBaseIPCClient)
    (s : Server) : list effect :=
  if 0 <? Z.of_nat (String.length to) then
    let forwardTo :=
      if String.eqb to "all"
      then filter (fun client => client_ws client ≠ ws) group
      else filter (fun client => client_id client = to) group in
    forwardTo ≫= (fun client => sendMessage client (MString msg))
  else
    match list_find (fun client => client_ws client = ws) group with
    | Some (_, client) =>
        wsPublish ws (topicOf (client_dbname client) (client_id client)) msg s
    | None => [Warn "Received message from unknown client"]
    end.

(** The same dispatch on what [getClients] returned: [clients.filter] and
    [clients.find] raise when it is not an array. *)
Definition dispatch (to msg : string) (ws : nat) (group : option (list AceBaseIPCClient))
    (s : Server) : list effect :=
  match group with
  | Some group => forward to msg ws group s
  | None => [Thrown]
  end.

(** [handleIncomingMessage(msg, ws)] *)
Definition handleIncomingMessage (r : reading) (msg : string) (ws : nat) (s : Server)
  : Server * list effect :=
  match sockets s !! ws with
  | None => (s, [Thrown])
  | Some w =>
    let '(s, group) := getClients (ws_dbname w) s in
    if String.eqb msg "ping" then (s, [Deliver ws "pong"]) else
    let '(to, msg) := splitRecipient msg in
    let '(s, msg) := spill r msg s in
    (s, dispatch to msg ws group s)
  end.

(** The [close] handler of the websocket route. *)
Definition closeHandler (ws : nat) (w : WebSocket) (s : Server) : Server * list effect :=
  let '(s, group) := getClients (ws_dbname w) s in
  match group with
  | None => (s, [Thrown])
  | Some group =>
    match list_find (fun client => client_ws client = ws) group with
    | Some (index, client) =>
        let s := setClients s (<[ws_dbname w := delete index group]> (clients s)) in
        (s, appPublish "all" ("disconnect:" ++ client_id client) s)
    | None => (s, [])
    end
  end.

(** The library closes socket [ws]: it leaves the topic tree, then the
    [close] handler runs. *)
Definition socketClosed (ws : nat) (s : Server) : Server * list effect :=
  match sockets s !! ws with
  | None => (s, [])
  | Some w => closeHandler ws w (setSockets s (delete ws (sockets s)) (nextSocket s))
  end.

(** [ws.close()] called by the server; the library raises on a socket that
    is already closed. *)
Definition wsClose (ws : nat) (s : Server) : option (Server * list effect) :=
  match sockets s !! ws with
  | None => None
  | Some _ => let '(s, e) := socketClosed ws s in Some (s, Closed ws :: e)
  end.

(** The double-quote character. *)
Definition dquote : string := String (ascii_of_nat 34) EmptyString.

(** An integer that a JavaScript number holds exactly
    ([Number.isSafeInteger]). *)
Definition safeInteger (n : Z) : Prop := - 2 ^ 53 < n < 2 ^ 53.

(** [JSON.stringify({ maxPayload: n })] for a safe integer [n], which
    [JSON.stringify] prints in decimal digits (from [1e21] on it prints an
    exponent, which is not modelled). *)
Definition welcomeJson (n : Z) : string :=
  "{" ++ dquote ++ "maxPayload" ++ dquote ++ ":" ++ JS.toString 10 n ++ "}".

(** The body of the [forEach] in the [open] handler: the newcomer [ws]
    subscribes to the channel of [client], and [client] to the newcomer's. *)
Definition crossSubscribe (ws : nat) (dbname id : string) (s : Server)
    (client : AceBaseIPCClient) : Server :=
  subscribe (client_ws client) (topicOf dbname id)
    (subscribe ws (topicOf dbname (client_id client)) s).

(** The [open] handler of the websocket route. *)
Definition openHandler (r : reading) (ws : nat) (s : Server) : Server * list effect :=
  match sockets s !! ws with
  | None => (s, [Thrown])
  | Some w =>
    let client := {| client_connected := now r; client_id := ws_env_id w;
                     client_dbname := ws_dbname w; client_ws := ws |} in
    let '(s, group) := getClients (ws_dbname w) s in
    match group with
    | None => (s, [Thrown])
    | Some group =>
      let s := foldl (crossSubscribe ws (ws_dbname w) (ws_env_id w)) s group in
      let s := setClients s (<[ws_dbname w := (group ++ [client])%list]> (clients s)) in
      let welcome := Deliver ws ("welcome:" ++ welcomeJson (maxPayload (config s))) in
      let connect := appPublish "all" ("connect:" ++ client_id client) s in
      (subscribe ws "all" s, welcome :: connect)
    end
  end.

(** [res.upgrade(userData, ...)]: the library creates the socket and runs the
    [open] handler. *)
Definition resUpgrade (r : reading) (dbname id : string) (s : Server) : Server * list effect :=
  let ws := nextSocket s in
  let s := setSockets s
             (<[ws := {| ws_dbname := dbname; ws_env_id := id; ws_topics := ∅ |}]> (sockets s))
             (S ws) in
  let '(s, e) := openHandler r ws s in
  (s, Upgraded ws :: e).

(** The three checks of the [upgrade] handler, in source order; [Some err]
    is the status line of the rejection. *)
Definition checkEnvironment (cfg : AceBaseIPCServerConfig) (env : gmap string (option string))
  : option string :=
  if match prop env "v" with
     | None => true
     | Some v => negb (String.eqb (List.nth 0 (JS.split "." v) EmptyString) "1")
     end
  then Some ("409 Unsupported client IPC version " ++ dquote ++ JS.show (prop env "v")
             ++ dquote ++ ". Update acebase-ipc-server package")
  else if match prop env "id" with
          | None => true
          | Some id => Z.of_nat (String.length id) <? 5
          end
  then Some ("500 Invalid IPC client id " ++ JS.show (prop env "id"))
  else if match token cfg with
          | Some tk => bool_decide (prop env "t" ≠ Some tk)
          | None => false
          end
  then Some "403 Unauthorized"
  else None.

(** The [upgrade] handler of the websocket route. *)
Definition upgrade (r : reading) (dbname query : string) (s : Server) : Server * list effect :=
  let env := parseQuery query in
  match checkEnvironment (config s) env, prop env "id" with
  | Some err, _ => (s, [Respond (Some err) err])
  | None, None => (s, [Thrown])
  | None, Some id =>
    let '(s, group) := getClients dbname s in
    match group with
    | None => (s, [Thrown])
    | Some group =>
      match list_find (fun client => client_id client = id) group with
      | Some (_, existingClient) =>
          match wsClose (client_ws existingClient) s with
          | None => (s, [Thrown])
          | Some (s, e1) => let '(s, e2) := resUpgrade r dbname id s in (s, (e1 ++ e2)%list)
          end
      | None => resUpgrade r dbname id s
      end
    end
  end.

(** The [message] handler of the websocket route. *)
Definition messageHandler (r : reading) (ws : nat) (isBinary : bool) (data : string)
    (s : Server) : Server * list effect :=
  if isBinary then (s, []) else
  match sockets s !! ws with
  | None => (s, [])
  | Some w =>
      let '(s, group) := getClients (ws_dbname w) s in
      match group with
      | None => (s, [Thrown])
      | Some _ => handleIncomingMessage r data ws s
      end
  end.

(** [!client || (typeof config.token === 'string' && query.t !== config.token)] *)
Definition unauthorized (cfg : AceBaseIPCServerConfig) (query : gmap string (option string))
    (client : option (nat * AceBaseIPCClient)) : bool :=
  match client with
  | None => true
  | Some _ => match token cfg with
              | Some tk => bool_decide (prop query "t" ≠ Some tk)
              | None => false
              end
  end.

(** [clients.find(client => client.id === query.id)] *)
Definition findById (query : gmap string (option string)) (l : list AceBaseIPCClient)
  : option (nat * AceBaseIPCClient) :=
  list_find (fun client => Some (client_id client) = prop query "id") l.

(** [GET /:dbname/clients] *)
Definition getClientsRoute (dbname : string) (s : Server) : Server * list effect :=
  let '(s, group) := getClients dbname s in
  match group with
  | None => (s, [Thrown])
  | Some group =>
      (s, [RespondClients
             ((fun client => (client_id client, client_connected client)) <$> group)])
  end.

(** [POST /:dbname/send], with the whole body in one chunk. *)
Definition postSend (r : reading) (dbname q data : string) (s : Server) : Server * list effect :=
  let query := parseQuery q in
  let '(s, group) := getClients dbname s in
  match group with
  | None => (s, [Thrown])
  | Some group =>
    let client := findById query group in
    if unauthorized (config s) query client
    then (s, [Respond (Some "401 Unauthorized") "Unauthorized"])
    else match client with
         | Some (_, client) =>
             let '(s, e) := handleIncomingMessage r data (client_ws client) s in
             (s, Respond None "ok" :: e)
         | None => (s, [Thrown])
         end
  end.

(** [GET /:dbname/send], the development-only test route. *)
Definition getSend (r : reading) (dbname q : string) (s : Server) : Server * list effect :=
  if negb (development (config s))
  then (s, [Respond (Some "405 Method Not Allowed") "405 Method Not Allowed"])
  else
    let query := parseQuery q in
    let '(s, group) := getClients dbname s in
    match group with
    | None => (s, [Thrown])
    | Some group =>
      let client := findById query group in
      if unauthorized (config s) query client
      then (s, [Respond (Some "401 Unauthorized") "Unauthorized"])
      else match client, prop query "msg" with
           | Some (_, client), Some msg => handleIncomingMessage r msg (client_ws client) s
           | _, _ => (s, [Thrown])
           end
    end.

(** [GET /:dbname/receive] *)
Definition getReceive (dbname q : string) (s : Server) : Server * list effect :=
  let query := parseQuery q in
  let '(s, group) := getClients dbname s in
  match group with
  | None => (s, [Thrown])
  | Some group =>
    let client := findById query group in
    if unauthorized (config s) query client
    then (s, [Respond (Some "401 Unauthorized") "Unauthorized"])
    else
      let key := JS.show (prop query "msg") in
      match largeMessages s !! key with
      | None => (s, [Respond (Some "404 Not Found") "Not Found"])
      | Some msg => (setLargeMessages s (delete key (largeMessages s)), [Respond None msg])
      end
  end.

(** ** The event loop *)

(** The timer phase at clock reading [t]: every callback that is due runs
    ([delete this.largeMessages[id]]) and leaves the queue. *)
Definition runTimers (t : Z) (s : Server) : Server :=
  let fired := filter (fun tm => due tm <= t) (timers s) in
  let s := setLargeMessages s (foldl (fun m tm => delete (slot tm) m) (largeMessages s) fired) in
  setTimers s (filter (fun tm => ¬ due tm <= t) (timers s)).

Inductive event :=
  | Connect (dbname query : string)         (* upgrade request on [/:dbname/connect] *)
  | Disconnect (ws : nat)                   (* the transport of [ws] went away *)
  | Message (ws : nat) (isBinary : bool) (data : string)
  | GetClients (dbname : string)
  | PostSend (dbname query data : string)
  | GetSend (dbname query : string)
  | GetReceive (dbname query : string).

Definition handle (r : reading) (e : event) (s : Server) : Server * list effect :=
  match e with
  | Connect dbname query => upgrade r dbname query s
  | Disconnect ws => socketClosed ws s
  | Message ws isBinary data => messageHandler r ws isBinary data s
  | GetClients dbname => getClientsRoute dbname s
  | PostSend dbname query data => postSend r dbname query data s
  | GetSend dbname query => getSend r dbname query s
  | GetReceive dbname query => getReceive dbname query s
  end.

(** One turn of the loop: due timers first, then the handler of the event. *)
Definition step (r : reading) (e : event) (s : Server) : Server * list effect :=
  handle r e (runTimers (now r) s).

(** A run of the loop, with the effects of every turn in order. *)
Fixpoint run (tr : list (reading * event)) (s : Server) : Server * list (list effect) :=
  match tr with
  | [] => (s, [])
  | (r, e) :: tr =>
      let '(s, out) := step r e s in
      let '(s, outs) := run tr s in
      (s, out :: outs)
  end.

Definition reachable (cfg : AceBaseIPCServerConfig) (s : Server) : Prop :=
  ∃ tr, (run tr (newServer cfg)).1 = s.

(** ** The vocabulary of the registry invariant *)

(** What holds of the registry and the socket table between two turns of
    the loop. *)
Record invariant (s : Server) : Prop := {
  inv_registered : ∀ g l c, clients s !! g = Some l → c ∈ l →
    client_dbname c = g
    ∧ ∃ w, sockets s !! client_ws c = Some w
           ∧ ws_dbname w = g ∧ ws_env_id w = client_id c;
  inv_unique : ∀ g l, clients s !! g = Some l → NoDup (client_id <$> l);
  inv_fresh : ∀ h w, sockets s !! h = Some w → (h < nextSocket s)%nat;
  inv_topics : ∀ h w t, sockets s !! h = Some w → t ∈ ws_topics w →
    t = "all" ∨ ∃ i, t = topicOf (ws_dbname w) i;
  inv_sequence : 0 <= _idSequence s < _maxNr;
  inv_id_length : ∀ g l c, clients s !! g = Some l → c ∈ l →
    (5 <= String.length (client_id c))%nat
}.

(** The lookup of group [g] gives an array: the registry has a list of its
    own for [g], or [g] is not a name it inherits. *)
Definition arrayAt (s : Server) (g : string) : Prop :=
  is_Some (clients s !! g) ∨ inherited g = false.

(** The socket that [res.upgrade] creates: no subscriptions yet. *)
Definition newSocket (dbname id : string) : WebSocket :=
  {| ws_dbname := dbname; ws_env_id := id; ws_topics := ∅ |}.

(** The entry that the [open] handler pushes for that socket. *)
Definition newClient (r : reading) (dbname id : string) (ws : nat) : AceBaseIPCClient :=
  {| client_id := id; client_dbname := dbname; client_connected := now r; client_ws := ws |}.

(** A socket listens to [all] and to channels of its own group only. *)
Definition topics_ok (w : WebSocket) : Prop :=
  ∀ t, t ∈ ws_topics w → t = "all" ∨ ∃ i, t = topicOf (ws_dbname w) i.

(** The same sockets with the same user data; a socket whose topics were in
    order before still has them in order. *)
Definition same_sockets (m m' : gmap nat WebSocket) : Prop :=
  ∀ h, option_Forall2
         (fun w w' => ws_dbname w' = ws_dbname w ∧ ws_env_id w' = ws_env_id w
                      ∧ (topics_ok w → topics_ok w'))
         (m !! h) (m' !! h).

(** Socket [h], if open, belongs to group [g]. *)
Definition dbname_at (m : gmap nat WebSocket) (h : nat) (g : string) : Prop :=
  ∀ w, m !! h = Some w → ws_dbname w = g.

(** The registry has no list of its own under an inherited name. *)
Definition ownKeys (s : Server) : Prop :=
  ∀ g, is_Some (clients s !! g) → inherited g = false.

(** ** The vocabulary of the handshake rules *)

(** The major component of the version parameter is [1]. *)
Definition versionOk (env : gmap string (option string)) : Prop :=
  ∃ v, prop env "v" = Some v ∧ head (JS.split "." v) = Some "1".

(** The id parameter is a string of at least five characters. *)
Definition idOk (env : gmap string (option string)) : Prop :=
  ∃ id, prop env "id" = Some id ∧ (5 <= String.length id)%nat.

(** The token parameter matches the configured token, when there is one. *)
Definition tokenOk (cfg : AceBaseIPCServerConfig) (env : gmap string (option string)) : Prop :=
  ∀ tk, token cfg = Some tk → prop env "t" = Some tk.

(** The two status lines that quote the request. *)
Definition unsupportedVersion (env : gmap string (option string)) : string :=
  "409 Unsupported client IPC version " ++ dquote ++ JS.show (prop env "v") ++ dquote
  ++ ". Update acebase-ipc-server package".

Definition invalidId (env : gmap string (option string)) : string :=
  "500 Invalid IPC client id " ++ JS.show (prop env "id").

(** ** Sample data: the scenario values [t=s], [maxPayload=50], group [mydb] *)

Definition sampleConfig : AceBaseIPCServerConfig := startConfig (Some 50) (Some "s") false.

Definition sampleReading : reading := {| now := 1700000000000; random := 12345 |}.

(** Scenario: [client1] and [client2] connected to [mydb]. *)
Definition twoPeers : Server :=
  (run [(sampleReading, Connect "mydb" "id=client1&v=1.0.0&t=s");
        (sampleReading, Connect "mydb" "id=client2&v=1.0.0&t=s")]
       (newServer sampleConfig)).1.

(** The socket of [client1] in [twoPeers]. *)
Definition client1Socket : WebSocket :=
  {| ws_dbname := "mydb"; ws_env_id := "client1";
     ws_topics := {["all"; "from-mydb-client2"]} |}.

(** A body of 70 characters, above the sample [maxPayload]. *)
Definition longBody : string :=
  "0123456789012345678901234567890123456789012345678901234567890123456789".

(** One second after [sampleReading]. *)
Definition laterReading : reading := {| now := 1700000001000; random := 0 |}.

(** The query of the download that scenario 5 makes. *)
Definition receiveQuery : string := "id=client2&msg=loyw3v2800000001000009ix&t=s".

(** The registry entries of [twoPeers]. *)
Definition client1 : AceBaseIPCClient :=
  {| client_id := "client1"; client_dbname := "mydb";
     client_connected := 1700000000000; client_ws := 0 |}.

Definition client2 : AceBaseIPCClient :=
  {| client_id := "client2"; client_dbname := "mydb";
     client_connected := 1700000000000; client_ws := 1 |}.

(** Scenario: [client1], [client2] and [client3] connected to [mydb]. *)
Definition threePeers : Server :=
  (step sampleReading (Connect "mydb" "id=client3&v=1.0.0&t=s") twoPeers).1.

(** Scenario: [twoPeers], then [clientX] connected to group [other]. *)
Definition twoGroups : Server :=
  (step sampleReading (Connect "other" "id=clientX&v=1.0.0&t=s") twoPeers).1.

(** Scenario with clashing channel names: [peer1] and [b-peer2] in group [a],
    [peer2] in group [a-b]. *)
Definition clashingNames : Server :=
  (run [(sampleReading, Connect "a" "id=peer1&v=1&t=s");
        (sampleReading, Connect "a" "id=b-peer2&v=1&t=s");
        (sampleReading, Connect "a-b" "id=peer2&v=1&t=s")]
       (newServer sampleConfig)).1.



(** The first clock reading whose base-36 form has nine digits
    (25 May 2059). *)
Definition rolloverReading : reading := {| now := 36 ^ 8; random := 0 |}.

(** Scenario: one peer whose id holds a [;]. *)
Definition semicolonPeer : Server :=
  (step sampleReading (Connect "mydb" "id=ab;cde&v=1&t=s") (newServer sampleConfig)).1.

(** Its registry entry. *)
Definition peerAbCde : AceBaseIPCClient :=
  {| client_id := "ab;cde"; client_dbname := "mydb";
     client_connected := 1700000000000; client_ws := 0 |}.

(** ** The vocabulary of directed frames *)

(** A recipient field cannot hold the delimiter. *)
Definition noSemicolon (recipient : string) : Prop := JS.indexOf recipient ";" = -1.

(** The inbound wire form [to:<recipient>;<body>]. *)
Definition directFrame (recipient body : string) : string :=
  "to:" ++ recipient ++ ";" ++ body.

(** Every connected peer is sent back the frame it directs at its own id. *)
Definition selfDelivery (cfg : AceBaseIPCServerConfig) : Prop :=
  ∀ s g l p r body,
    reachable cfg s → clients s !! g = Some l → p ∈ l →
    ∃ out, Deliver (client_ws p) out
             ∈ (step r (Message (client_ws p) false (directFrame (client_id p) body)) s).2.

(** ** The vocabulary of group isolation *)





(** A group name that holds no [-], the separator of the channel names. *)
Definition noDash (dbname : string) : Prop := JS.indexOf dbname "-" = -1.

(** No channel name of group [A] is a channel name of group [B]. *)
Definition channelsApart (A B : string) : Prop := ∀ i j, topicOf A i ≠ topicOf B j.

(** ** The vocabulary of slot ids *)

(** Every generated id has 24 characters, whatever the clock reads. *)
Definition idsHave24Characters (cfg : AceBaseIPCServerConfig) : Prop :=
  ∀ s r,
    reachable cfg s → 0 <= now r → 0 <= random r < 36 ^ 8 →
    String.length (generateID r s).2 = 24%nat.

(** ** The vocabulary of the sideband *)

(** The list of a group as a route handler sees it. *)
Definition groupOf (s : Server) (dbname : string) : list AceBaseIPCClient :=
  default [] (clients s !! dbname).



(** ** The vocabulary of the wiring between registry and topic tree *)

(** Every open socket is filed in the list of its group, listens to [all],
    and listens to the channel of every other member of its group. *)
Record wired (s : Server) : Prop := {
  wired_registered : ∀ h w, sockets s !! h = Some w →
    ∃ c, c ∈ groupOf s (ws_dbname w) ∧ client_ws c = h;
  wired_all : ∀ h w, sockets s !! h = Some w → "all" ∈ ws_topics w;
  wired_cross : ∀ g c1 c2 w1,
    c1 ∈ groupOf s g → c2 ∈ groupOf s g → client_ws c1 ≠ client_ws c2 →
    sockets s !! client_ws c1 = Some w1 →
    topicOf g (client_id c2) ∈ ws_topics w1
}.

(** What one handler run may do to the store and its timers: nothing, park
    one body with its timer, or remove one slot. *)
Definition storeStep (r : reading) (s s' : Server) : Prop :=
  (largeMessages s' = largeMessages s ∧ timers s' = timers s)
  ∨ (∃ id msg, largeMessages s' = <[id := msg]> (largeMessages s)
               ∧ timers s' = (timers s ++ [{| due := now r + 60000; slot := id |}])%list)
  ∨ (∃ id, largeMessages s' = delete id (largeMessages s) ∧ timers s' = timers s).

(** Every stored body still has a timer waiting for it. *)
Definition slotsTimed (s : Server) : Prop :=
  ∀ id msg, largeMessages s !! id = Some msg → ∃ tm, tm ∈ timers s ∧ slot tm = id.

(** Every waiting timer was set 60 s after one of the clock readings [past]. *)
Definition timersFrom (past : list Z) (s : Server) : Prop :=
  ∀ tm, tm ∈ timers s → ∃ t, t ∈ past ∧ due tm = t + 60000.

(** ** The vocabulary of admission *)

(** Socket [k] is the one of the member of group [g] that holds id [id]:
    the incumbent that a newcomer with the same id evicts. *)
Definition incumbent (s : Server) (g id : string) (k : nat) : Prop :=
  ∃ c, c ∈ groupOf s g ∧ client_id c = id ∧ client_ws c = k.

(** The rows of [GET /:dbname/clients]: id and time of connection. *)
Definition rows (group : list AceBaseIPCClient) : list (string * Z) :=
  (fun client => (client_id client, client_connected client)) <$> group.

(** ** The vocabulary of what a handler may emit *)

(** The events that open or close a session. *)
Definition isSession (e : event) : bool :=
  match e with
  | Connect _ _ | Disconnect _ => true
  | _ => false
  end.




(** ** The vocabulary of successive ids and of query strings *)

(** Clock reading and random draw below [36^8], so that each fills at most
    eight base-36 digits. *)
Definition inRange (r : reading) : Prop :=
  0 <= now r < 36 ^ 8 ∧ 0 <= random r < 36 ^ 8.

(** The ids of successive calls of [generateID], one per reading. *)
Fixpoint generateIDs (rs : list reading) (s : Server) : list string :=
  match rs with
  | [] => []
  | r :: rs => let '(s, id) := generateID r s in id :: generateIDs rs s
  end.

(** A key or value that holds neither separator of a query string. *)
Definition plain (x : string) : Prop := JS.indexOf x "&" = -1 ∧ JS.indexOf x "=" = -1.

(** The query string [k1=v1&k2=v2&...], as the clients write it
    ([`id=${id}&v=${version}&t=${token}`]). *)
Fixpoint queryString (kvs : list (string * string)) : string :=
  match kvs with
  | [] => EmptyString
  | [(k, v)] => k ++ "=" ++ v
  | (k, v) :: rest => k ++ "=" ++ v ++ "&" ++ queryString rest
  end.

(** ** [SimpleObservable] *)

(** The class [SimpleObservable] of the test helper.  Subscriber callbacks
    and cleanup functions are known by a number (their identity); the
    callbacks do not call back into the observable.  What the create
    function does when it is called is given with each [subscribe]: the
    values it passes to [observer.next] before it returns, and the cleanup
    function it returns, if any. *)
Module SimpleObservable.

Inductive effect (T : Type) :=
  | Created                                  (* [this._create(observer)] is called *)
  | Called (subscriber : nat) (value : T)    (* [s(value)] *)
  | Logged (subscriber : nat)                (* [console.error]: the callback threw *)
  | Cleaned (cleanup : nat).                 (* [this._cleanup()] *)

Arguments Created {T}.
Arguments Called {T} subscriber value.
Arguments Logged {T} subscriber.
Arguments Cleaned {T} cleanup.

Record creation (T : Type) := {
  emits : list T;
  returns : option nat
}.

Arguments emits {T} c.
Arguments returns {T} c.

Record state := {
  _active : bool;
  _cleanup : option nat;
  _subscribers : list nat
}.

(** [new SimpleObservable(create)] *)
Definition new : state := {| _active := false; _cleanup := None; _subscribers := [] |}.

(** [observer.next(value)]: every subscriber is called, in order; a callback
    that throws is logged and the others are still called. *)
Definition next {T} (faulty : nat → bool) (value : T) (s : state) : list (effect T) :=
  _subscribers s ≫=
    (fun subscriber =>
       Called subscriber value :: if faulty subscriber then [Logged subscriber] else []).

(** [array.indexOf(x)]: the first index, or [-1]. *)
Definition indexOf (l : list nat) (x : nat) : Z :=
  match list_find (fun y => y = x) l with
  | Some (i, _) => Z.of_nat i
  | None => -1
  end.

(** [array.splice(start, 1)]: a negative [start] counts from the end. *)
Definition splice1 (start : Z) (l : list nat) : list nat :=
  delete (Z.to_nat (JS.clampIndex (Z.of_nat (length l)) start)) l.

(** [subscribe(subscriber)] *)
Definition subscribe {T} (faulty : nat → bool) (c : creation T) (subscriber : nat)
    (s : state) : state * list (effect T) :=
  let '(s, e) :=
    if _active s then (s, [])
    else ({| _active := true; _cleanup := returns c; _subscribers := _subscribers s |},
          Created :: (emits c ≫= fun value => next faulty value s)) in
  ({| _active := _active s; _cleanup := _cleanup s;
      _subscribers := (_subscribers s ++ [subscriber])%list |}, e).

(** The [unsubscribe] of the subscription that [subscribe(subscriber)]
    returned. *)
Definition unsubscribe {T} (subscriber : nat) (s : state) : state * list (effect T) :=
  let l := splice1 (indexOf (_subscribers s) subscriber) (_subscribers s) in
  if decide (length l = 0%nat)
  then ({| _active := false; _cleanup := _cleanup s; _subscribers := l |},
        match _cleanup s with
        | Some f => [Cleaned f]
        | None => []
        end)
  else ({| _active := _active s; _cleanup := _cleanup s; _subscribers := l |}, []).

(** What the users of an observable do with it. *)
Inductive op (T : Type) :=
  | Subscribe (c : creation T) (subscriber : nat)
  | Unsubscribe (subscriber : nat)
  | Next (value : T).

Arguments Subscribe {T} c subscriber.
Arguments Unsubscribe {T} subscriber.
Arguments Next {T} value.

Definition apply {T} (faulty : nat → bool) (o : op T) (s : state) : state * list (effect T) :=
  match o with
  | Subscribe c subscriber => subscribe faulty c subscriber s
  | Unsubscribe subscriber => unsubscribe subscriber s
  | Next value => (s, next faulty value s)
  end.

Fixpoint run {T} (faulty : nat → bool) (ops : list (op T)) (s : state)
  : state * list (effect T) :=
  match ops with
  | [] => (s, [])
  | o :: ops =>
      let '(s, e1) := apply faulty o s in
      let '(s, e2) := run faulty ops s in
      (s, (e1 ++ e2)%list)
  end.

(** The observable is active exactly when somebody is subscribed. *)
Definition consistent (s : state) : Prop := _active s = true ↔ _subscribers s ≠ [].

End SimpleObservable.

(** ** The start script *)

(** [start.ts]: how the configuration is read from the command line and the
    environment.  [toUpperCase] is given for ASCII text, on which the
    properties below are stated. *)
Module Start.

Definition isAscii (s : string) : bool :=
  JS.allChars (fun c => Z.of_nat (nat_of_ascii c) <? 128) s.

Definition upperChar (c : ascii) : ascii :=
  let k := nat_of_ascii c in
  if ((97 <=? k) && (k <=? 122))%nat then ascii_of_nat (k - 32) else c.

(** [s.toUpperCase()] *)
Fixpoint toUpperCase (s : string) : string :=
  match s with
  | EmptyString => EmptyString
  | String c r => String (upperChar c) (toUpperCase r)
  end.

(** How a call ends: with a value ([None] is [undefined]) or with the
    [Error] it throws. *)
Inductive result :=
  | Returned (value : option string)
  | Threw (message : string).

(** [getVariable(name, defaultValue)], with [process.argv] and
    [process.env] as it finds them. *)
Definition getVariable (argv : list string) (env : gmap string string)
    (name : string) (defaultValue : option string) : result :=
  let name := toUpperCase name in
  let arg := List.find (fun arg => JS.startsWith (toUpperCase arg) (name ++ "=")) argv in
  match arg with
  | Some (String c r) => Returned (List.nth_error (JS.split "=" (String c r)) 1)
  | _ =>
      match env !! name with
      | Some value => Returned (Some value)
      | None =>
          match defaultValue with
          | None => Threw ("No value for variable " ++ dquote ++ name ++ dquote
                           ++ " found in environment or startup args")
          | Some value => Returned (Some value)
          end
      end
  end.

(** [getVariable('TOKEN', '') || undefined]; with a default the call does not
    throw, and the empty string and [undefined] both give [undefined]. *)
Definition startToken (argv : list string) (env : gmap string string) : option string :=
  match getVariable argv env "TOKEN" (Some EmptyString) with
  | Returned (Some value) => if String.eqb value EmptyString then None else Some value
  | _ => None
  end.

(** Argument [arg] gives a value to the variable [name]. *)
Definition names (name arg : string) : bool :=
  JS.startsWith (toUpperCase arg) (toUpperCase name ++ "=").

End Start.

(** ** The vocabulary of the spill threshold *)

(** The bytes of a string on the wire, in UTF-8: one for a code unit below
    128, two for the others (which are below 256). *)
Fixpoint utf8Length (m : string) : Z :=
  match m with
  | EmptyString => 0
  | String c rest => (if (nat_of_ascii c <? 128)%nat then 1 else 2) + utf8Length rest
  end.


(** A body of 30 code units that takes 60 bytes: thirty times [é]
    (U+00E9). *)
Definition accents : string := JS.repeatChar 30 (ascii_of_nat 233).






(** * Properties *)

(** ** Strings *)

Section StringFacts.

Lemma append_cons c (a b : string) : String c a ++ b = String c (a ++ b).
Proof. reflexivity. Qed.

Lemma append_nil_l (b : string) : "" ++ b = b.
Proof. reflexivity. Qed.

Lemma append_nil_r (a : string) : a ++ "" = a.
Proof. induction a as [|c a IH]; [reflexivity | now rewrite append_cons, IH]. Qed.

Lemma append_length (a b : string) :
  String.length (a ++ b) = (String.length a + String.length b)%nat.
Proof.
  induction a as [|c a IH]; [reflexivity |].
  rewrite append_cons. simpl. now rewrite IH.
Qed.

Lemma append_assoc (a b c : string) : (a ++ b) ++ c = a ++ (b ++ c).
Proof.
  induction a as [|x a IH]; [reflexivity |].
  now rewrite !append_cons, IH.
Qed.

Lemma take_app_length (a b : string) : JS.take (String.length a) (a ++ b) = a.
Proof.
  induction a as [|c a IH]; [now destruct b |].
  rewrite append_cons. simpl. now rewrite IH.
Qed.

Lemma drop_app_length (a b : string) : JS.drop (String.length a) (a ++ b) = b.
Proof.
  induction a as [|c a IH]; [reflexivity |].
  rewrite append_cons. simpl. exact IH.
Qed.

Lemma take_all (a : string) : JS.take (String.length a) a = a.
Proof. induction a as [|c a IH]; simpl; [reflexivity | now rewrite IH]. Qed.

Lemma allChars_app p (a b : string) :
  JS.allChars p (a ++ b) = JS.allChars p a && JS.allChars p b.
Proof.
  induction a as [|c a IH]; [reflexivity |].
  rewrite append_cons. simpl. now rewrite IH, andb_assoc.
Qed.

Lemma length_repeatChar n c : String.length (JS.repeatChar n c) = n.
Proof. induction n; simpl; congruence. Qed.

Lemma length_padStart s w c :
  (String.length s <= w)%nat → String.length (JS.padStart s w c) = w.
Proof.
  intros H. unfold JS.padStart. rewrite append_length, length_repeatChar. lia.
Qed.

Lemma parseAux_app radix (a b : string) acc :
  JS.parseAux radix (a ++ b) acc = JS.parseAux radix b (JS.parseAux radix a acc).
Proof.
  revert acc. induction a as [|c a IH]; intros; [reflexivity |].
  rewrite append_cons. simpl. apply IH.
Qed.

Lemma parseAux_zeros radix n :
  JS.parseAux radix (JS.repeatChar n "0") 0 = 0.
Proof. induction n; simpl; [reflexivity | exact IHn]. Qed.

Lemma parseInt_padStart radix s w :
  JS.parseInt (JS.padStart s w "0") radix = JS.parseInt s radix.
Proof.
  unfold JS.parseInt, JS.padStart. now rewrite parseAux_app, parseAux_zeros.
Qed.

Lemma allChars_padStart s w :
  JS.allChars JS.isDigit36 s = true →
  JS.allChars JS.isDigit36 (JS.padStart s w "0") = true.
Proof.
  intros H. unfold JS.padStart. rewrite allChars_app, H, andb_true_r.
  induction (w - String.length s)%nat; simpl; auto.
Qed.

End StringFacts.

(** ** Base-36 rendering *)

Section Digits.

Lemma digit_roundtrip d :
  0 <= d < 36 → JS.digitValue (JS.digitChar d) = d ∧ JS.isDigit36 (JS.digitChar d) = true.
Proof.
  intros H.
  assert (Hall : forallb (fun k => (JS.digitValue (JS.digitChar k) =? k)
                                   && JS.isDigit36 (JS.digitChar k)) (seqZ 0 36) = true)
    by (vm_compute; reflexivity).
  rewrite forallb_forall in Hall. specialize (Hall d).
  apply andb_true_iff in Hall as [Hv Hc].
  - apply Z.eqb_eq in Hv. auto.
  - apply list_elem_of_In, elem_of_seqZ. lia.
Qed.

(** The digit loop yields the digits of [n] in front of the accumulator. *)
Lemma digitsAux_spec fuel : ∀ n acc,
  0 <= n < 2 ^ Z.of_nat fuel →
  ∃ d, JS.digitsAux fuel 36 n acc = d ++ acc
       ∧ (∀ a, JS.parseAux 36 d a = a * 36 ^ Z.of_nat (String.length d) + n)
       ∧ JS.allChars JS.isDigit36 d = true.
Proof.
  induction fuel as [|f IH]; intros n acc Hn.
  - exists EmptyString. simpl in *. repeat split; intros; lia.
  - simpl JS.digitsAux.
    assert (Hm : 0 <= n mod 36 < 36) by (apply Z.mod_pos_bound; lia).
    destruct (digit_roundtrip _ Hm) as [Hv Hc].
    assert (Hdiv : n = 36 * (n / 36) + n mod 36) by (apply Z.div_mod; lia).
    destruct (n / 36 =? 0) eqn:Hq.
    + apply Z.eqb_eq in Hq.
      exists (String (JS.digitChar (n mod 36)) EmptyString). simpl.
      rewrite Hv, Hc. repeat split. intros a. lia.
    + apply Z.eqb_neq in Hq.
      assert (Hq0 : 0 <= n / 36) by (apply Z.div_pos; lia).
      assert (Hlt : n / 36 < 2 ^ Z.of_nat f).
      { rewrite Nat2Z.inj_succ, Z.pow_succ_r in Hn by lia.
        apply Z.div_lt_upper_bound; lia. }
      destruct (IH (n / 36) (String (JS.digitChar (n mod 36)) acc) (conj Hq0 Hlt))
        as (d & Hd & Hp & Ha).
      exists (d ++ String (JS.digitChar (n mod 36)) EmptyString).
      rewrite Hd, append_assoc, append_cons, append_nil_l. split; [reflexivity|]. split.
      * intros a. rewrite parseAux_app, Hp. simpl. rewrite Hv, append_length. simpl.
        rewrite Nat2Z.inj_add, Z.pow_add_r by lia. simpl (Z.of_nat 1).
        rewrite Z.pow_1_r. lia.
      * rewrite allChars_app, Ha. simpl. now rewrite Hc.
Qed.

(** A number below [36^k] has at most [k] digits. *)
Lemma digitsAux_length fuel : ∀ (k : nat) n acc,
  0 <= n < 36 ^ Z.of_nat (S k) →
  (String.length (JS.digitsAux fuel 36 n acc) <= String.length acc + S k)%nat.
Proof.
  induction fuel as [|f IH]; intros k n acc Hn; simpl JS.digitsAux; [lia|].
  destruct (n / 36 =? 0) eqn:Hq; [simpl; lia|].
  apply Z.eqb_neq in Hq.
  destruct k as [|k].
  - exfalso. apply Hq. apply Z.div_small. simpl in Hn. lia.
  - assert (Hq' : 0 <= n / 36 < 36 ^ Z.of_nat (S k)).
    { split; [apply Z.div_pos; lia|].
      rewrite (Nat2Z.inj_succ (S k)), Z.pow_succ_r in Hn by lia.
      apply Z.div_lt_upper_bound; lia. }
    specialize (IH k (n / 36) (String (JS.digitChar (n mod 36)) acc) Hq').
    simpl in IH. lia.
Qed.

Lemma toString36_spec n :
  0 <= n →
  JS.parseInt (JS.toString 36 n) 36 = n
  ∧ JS.allChars JS.isDigit36 (JS.toString 36 n) = true.
Proof.
  intros Hn. unfold JS.toString, JS.parseInt.
  destruct (n <? 0) eqn:Hneg; [apply Z.ltb_lt in Hneg; lia|].
  assert (Hfuel : 0 <= n < 2 ^ Z.of_nat (S (Z.to_nat (Z.log2 n)))).
  { split; [lia|]. rewrite Nat2Z.inj_succ, Z2Nat.id by apply Z.log2_nonneg.
    destruct (Z.eq_dec n 0) as [->|Hne]; [reflexivity|].
    apply Z.log2_spec. lia. }
  destruct (digitsAux_spec _ n EmptyString Hfuel) as (d & Hd & Hp & Ha).
  rewrite Hd, append_nil_r. split; [rewrite Hp; lia | exact Ha].
Qed.

Lemma toString36_length n (k : nat) :
  0 <= n < 36 ^ Z.of_nat (S k) → (String.length (JS.toString 36 n) <= S k)%nat.
Proof.
  intros Hn. unfold JS.toString.
  destruct (n <? 0) eqn:Hneg; [apply Z.ltb_lt in Hneg; lia|].
  apply (digitsAux_length _ k n EmptyString Hn).
Qed.

(** An eight-character segment of an id reads back as the number it was
    made from. *)
Lemma segment_spec n :
  0 <= n < 36 ^ 8 →
  let seg := JS.padStart (JS.toString 36 n) 8 "0" in
  String.length seg = 8%nat ∧ JS.parseInt seg 36 = n
  ∧ JS.allChars JS.isDigit36 seg = true.
Proof.
  intros Hn seg. subst seg.
  destruct (toString36_spec n (proj1 Hn)) as [Hp Ha].
  split; [|split].
  - apply length_padStart, (toString36_length n 7). exact Hn.
  - now rewrite parseInt_padStart.
  - now apply allChars_padStart.
Qed.

End Digits.

(** ** What the handlers leave alone *)

Section Frames.

Lemma getClients_cases g s :
  (∃ l, clients s !! g = Some l ∧ getClients g s = (s, Some l))
  ∨ (clients s !! g = None ∧ inherited g = false
     ∧ getClients g s = (setClients s (<[g := []]> (clients s)), Some []))
  ∨ (clients s !! g = None ∧ inherited g = true ∧ getClients g s = (s, None)).
Proof.
  unfold getClients. destruct (clients s !! g) as [l|]; [left; eauto|].
  destruct (inherited g); auto.
Qed.

(** A list that exists is returned as it is, and the state stays. *)
Lemma getClients_own g s l :
  clients s !! g = Some l → getClients g s = (s, Some l).
Proof. intros Hl. unfold getClients. now rewrite Hl. Qed.

(** When no array is returned the name is inherited and nothing changed. *)
Lemma getClients_None g s :
  (getClients g s).2 = None →
  getClients g s = (s, None) ∧ clients s !! g = None ∧ inherited g = true.
Proof.
  destruct (getClients_cases g s) as [(l & Hl & ->)|[(Hn & Hi & ->)|(Hn & Hi & ->)]];
    simpl; [discriminate | discriminate | auto].
Qed.

(** A name that is not inherited always gives an array. *)
Lemma getClients_Some g s :
  inherited g = false → ∃ l, (getClients g s).2 = Some l.
Proof.
  intros Hg.
  destruct (getClients_cases g s) as [(l & Hl & ->)|[(Hn & Hi & ->)|(Hn & Hi & ->)]];
    simpl; [eauto | eauto | congruence].
Qed.

Lemma getClients_array g s : arrayAt s g ↔ ∃ l, (getClients g s).2 = Some l.
Proof.
  unfold arrayAt.
  destruct (getClients_cases g s) as [(l & Hl & ->)|[(Hn & Hi & ->)|(Hn & Hi & ->)]];
    simpl; rewrite ?Hl, ?Hn, ?Hi.
  - split; eauto.
  - split; eauto.
  - split; [intros [[l Hl]|Hno]; discriminate | intros [l Hl]; discriminate].
Qed.

Lemma getClients_lookup g s l :
  (getClients g s).2 = Some l → clients (getClients g s).1 !! g = Some l.
Proof.
  destruct (getClients_cases g s) as [(l0 & Hl & ->)|[(Hn & Hi & ->)|(Hn & Hi & ->)]];
    simpl; intros [= <-]; [exact Hl|]. apply lookup_insert_eq.
Qed.

Lemma getClients_other g g' s :
  g' ≠ g → clients (getClients g s).1 !! g' = clients s !! g'.
Proof.
  intros Hne.
  destruct (getClients_cases g s) as [(l & Hl & ->)|[(Hn & Hi & ->)|(Hn & Hi & ->)]];
    simpl; [reflexivity | | reflexivity].
  now apply lookup_insert_ne.
Qed.

(** Every list present before the lookup is still there, unchanged. *)
Lemma getClients_keeps g g' s l :
  clients s !! g' = Some l → clients (getClients g s).1 !! g' = Some l.
Proof.
  intros Hl.
  destruct (getClients_cases g s) as [(l0 & Hl0 & ->)|[(Hn & Hi & ->)|(Hn & Hi & ->)]];
    simpl; [exact Hl | | exact Hl].
  rewrite lookup_insert_ne; [exact Hl | congruence].
Qed.

(** A list found after the lookup is the old one, or the new empty one. *)
Lemma getClients_lookup_inv g g' s l :
  clients (getClients g s).1 !! g' = Some l →
  clients s !! g' = Some l
  ∨ (g' = g ∧ l = [] ∧ clients s !! g = None ∧ inherited g = false).
Proof.
  destruct (getClients_cases g s) as [(l0 & Hl0 & ->)|[(Hn & Hi & ->)|(Hn & Hi & ->)]];
    simpl; [auto | | auto].
  destruct (decide (g = g')) as [<-|Hne].
  - rewrite lookup_insert_eq. intros [= <-]; auto.
  - rewrite lookup_insert_ne by done. auto.
Qed.

Lemma getClients_frame g s :
  sockets (getClients g s).1 = sockets s
  ∧ nextSocket (getClients g s).1 = nextSocket s
  ∧ _idSequence (getClients g s).1 = _idSequence s
  ∧ largeMessages (getClients g s).1 = largeMessages s
  ∧ timers (getClients g s).1 = timers s
  ∧ config (getClients g s).1 = config s.
Proof.
  destruct (getClients_cases g s) as [(l & Hl & ->)|[(Hn & Hi & ->)|(Hn & Hi & ->)]];
    simpl; auto 10.
Qed.

Lemma generateID_frame r s :
  clients (generateID r s).1 = clients s
  ∧ sockets (generateID r s).1 = sockets s
  ∧ nextSocket (generateID r s).1 = nextSocket s
  ∧ largeMessages (generateID r s).1 = largeMessages s
  ∧ timers (generateID r s).1 = timers s
  ∧ config (generateID r s).1 = config s.
Proof. simpl; auto 10. Qed.

Lemma generateID_sequence r s :
  0 <= _idSequence s < _maxNr →
  _idSequence (generateID r s).1 = (_idSequence s + 1) mod _maxNr
  ∧ 0 <= _idSequence (generateID r s).1 < _maxNr.
Proof.
  intros H. simpl. unfold _maxNr in *.
  destruct (_idSequence s + 1 =? 36 ^ 8) eqn:E.
  - apply Z.eqb_eq in E. rewrite E, Z.mod_same by lia. lia.
  - apply Z.eqb_neq in E. rewrite Z.mod_small by lia. lia.
Qed.

Lemma spill_frame r msg s :
  clients (spill r msg s).1 = clients s
  ∧ sockets (spill r msg s).1 = sockets s
  ∧ nextSocket (spill r msg s).1 = nextSocket s
  ∧ config (spill r msg s).1 = config s.
Proof.
  unfold spill. destruct (_ >? _); simpl; auto.
Qed.

Lemma spill_sequence r msg s :
  0 <= _idSequence s < _maxNr → 0 <= _idSequence (spill r msg s).1 < _maxNr.
Proof.
  intros H. unfold spill. destruct (_ >? _); [|exact H].
  apply (generateID_sequence r s H).
Qed.

Lemma runTimers_frame t s :
  clients (runTimers t s) = clients s
  ∧ sockets (runTimers t s) = sockets s
  ∧ nextSocket (runTimers t s) = nextSocket s
  ∧ _idSequence (runTimers t s) = _idSequence s
  ∧ config (runTimers t s) = config s.
Proof. simpl; auto 10. Qed.

End Frames.

(** ** The registry invariant *)

Section Invariant.

Lemma invariant_new cfg : invariant (newServer cfg).
Proof.
  constructor; simpl; intros; try (rewrite lookup_empty in *; discriminate).
  unfold _maxNr. lia.
Qed.

(** The invariant survives when sockets and list members only go away and
    every remaining member keeps its socket. *)
Lemma invariant_shrink s s' :
  invariant s →
  sockets s' ⊆ sockets s →
  nextSocket s' = nextSocket s →
  0 <= _idSequence s' < _maxNr →
  (∀ g l', clients s' !! g = Some l' →
     l' = [] ∨ ∃ l, clients s !! g = Some l ∧ l' `sublist_of` l) →
  (∀ g l' c, clients s' !! g = Some l' → c ∈ l' → is_Some (sockets s' !! client_ws c)) →
  invariant s'.
Proof.
  intros [Hreg Huni Hfresh Htop Hseq Hlen] Hsub Hnext Hseq' Hcl Hopen.
  constructor; [| | | |exact Hseq'|].
  - intros g l' c Hl' Hc.
    destruct (Hcl g l' Hl') as [->|(l & Hl & Hs)]; [inversion Hc|].
    destruct (Hreg g l c Hl (elem_of_sublist _ _ _ Hc Hs)) as (Hdb & w & Hw & Hg & Hid).
    split; [exact Hdb|]. exists w. split; [|auto].
    destruct (Hopen g l' c Hl' Hc) as [w' Hw'].
    rewrite Hw'. f_equal.
    pose proof (lookup_weaken _ _ _ _ Hw' Hsub) as Hw''. congruence.
  - intros g l' Hl'.
    destruct (Hcl g l' Hl') as [->|(l & Hl & Hs)]; [constructor|].
    apply (sublist_NoDup _ (client_id <$> l)); [apply (Huni g l Hl)|].
    now apply fmap_sublist.
  - intros h w Hw. rewrite Hnext. eapply Hfresh, lookup_weaken; eauto.
  - intros h w t Hw. eapply Htop, lookup_weaken; eauto.
  - intros g l' c Hl' Hc.
    destruct (Hcl g l' Hl') as [->|(l & Hl & Hs)]; [inversion Hc|].
    eapply Hlen; [exact Hl|]. eapply elem_of_sublist; eauto.
Qed.

(** Changing only the message store, the timers or the id counter. *)
Lemma invariant_ext s s' :
  clients s' = clients s → sockets s' = sockets s → nextSocket s' = nextSocket s →
  0 <= _idSequence s' < _maxNr →
  invariant s → invariant s'.
Proof.
  intros Hc Hs Hn Hq Hinv.
  apply (invariant_shrink s s' Hinv); auto.
  - now rewrite Hs.
  - intros g l' Hl'. right. exists l'. now rewrite <- Hc.
  - intros g l' c Hl' Hin. rewrite Hc in Hl'. rewrite Hs.
    destruct (inv_registered s Hinv g l' c Hl' Hin) as (_ & w & Hw & _). eauto.
Qed.

Lemma getClients_invariant g s : invariant s → invariant (getClients g s).1.
Proof.
  intros Hinv.
  destruct (getClients_frame g s) as (Hs & Hn & Hq & _).
  apply (invariant_shrink s _ Hinv).
  - now rewrite Hs.
  - exact Hn.
  - rewrite Hq. apply Hinv.
  - intros g' l' Hl'.
    destruct (getClients_lookup_inv _ _ _ _ Hl') as [H|(_ & -> & _)]; [right|left; auto].
    exists l'. auto.
  - intros g' l' c Hl' Hc. rewrite Hs.
    destruct (getClients_lookup_inv _ _ _ _ Hl') as [H|(_ & -> & _)]; [|inversion Hc].
    destruct (inv_registered s Hinv g' l' c H Hc) as (_ & w & Hw & _). eauto.
Qed.

Lemma runTimers_invariant t s : invariant s → invariant (runTimers t s).
Proof. intros Hinv. apply (invariant_ext s); auto. apply Hinv. Qed.

Lemma spill_invariant r msg s : invariant s → invariant (spill r msg s).1.
Proof.
  intros Hinv. destruct (spill_frame r msg s) as (Hc & Hs & Hn & _).
  apply (invariant_ext s); auto. apply spill_sequence, Hinv.
Qed.

Lemma handleIncomingMessage_invariant r msg ws s :
  invariant s → invariant (handleIncomingMessage r msg ws s).1.
Proof.
  intros Hinv. unfold handleIncomingMessage.
  destruct (sockets s !! ws) as [w|]; [|exact Hinv].
  pose proof (getClients_invariant (ws_dbname w) s Hinv) as H1.
  destruct (getClients (ws_dbname w) s) as [s1 group]. simpl in H1.
  destruct (String.eqb msg "ping"); [exact H1|].
  destruct (splitRecipient msg) as [to body].
  pose proof (spill_invariant r body s1 H1) as H2.
  destruct (spill r body s1) as [s2 out]. exact H2.
Qed.

(** Two members of a list with the same socket are the same entry. *)
Lemma same_socket_same_index s g l i j c c' :
  invariant s → clients s !! g = Some l →
  l !! i = Some c → l !! j = Some c' → client_ws c = client_ws c' → i = j.
Proof.
  intros Hinv Hl Hi Hj Hws.
  destruct (inv_registered s Hinv g l c Hl) as (_ & w & Hw & _ & Hid).
  { eapply list_elem_of_lookup_2; eauto. }
  destruct (inv_registered s Hinv g l c' Hl) as (_ & w' & Hw' & _ & Hid').
  { eapply list_elem_of_lookup_2; eauto. }
  rewrite Hws in Hw. rewrite Hw in Hw'. injection Hw' as <-.
  apply (NoDup_lookup (client_id <$> l) i j (client_id c)).
  - apply (inv_unique s Hinv g l Hl).
  - now rewrite list_lookup_fmap, Hi.
  - rewrite list_lookup_fmap, Hj. simpl. congruence.
Qed.

(** Closing the socket of a registered client: the socket leaves the table,
    the client leaves its list, and [disconnect:<id>] is published. *)
Lemma socketClosed_registered s g l i c :
  invariant s → clients s !! g = Some l → l !! i = Some c →
  let s' := setClients (setSockets s (delete (client_ws c) (sockets s)) (nextSocket s))
              (<[g := delete i l]> (clients s)) in
  socketClosed (client_ws c) s
  = (s', appPublish "all" ("disconnect:" ++ client_id c) s').
Proof.
  intros Hinv Hl Hi s'.
  assert (Hc : c ∈ l) by (eapply list_elem_of_lookup_2; eauto).
  destruct (inv_registered s Hinv g l c Hl Hc) as (_ & w & Hw & Hg & _).
  unfold socketClosed. rewrite Hw. unfold closeHandler, getClients. simpl.
  rewrite Hg, Hl.
  destruct (list_find_elem_of (fun client => client_ws client = client_ws c) l c Hc eq_refl)
    as [[i' c'] Hf].
  rewrite Hf. apply list_find_Some in Hf as (Hi' & Hws & _).
  assert (i' = i) as ->
    by (eapply (same_socket_same_index s g l i' i c' c); eauto).
  rewrite Hi in Hi'. injection Hi' as <-. reflexivity.
Qed.

Lemma socketClosed_invariant h s : invariant s → invariant (socketClosed h s).1.
Proof.
  intros Hinv. unfold socketClosed.
  destruct (sockets s !! h) as [w|] eqn:Hw; [|exact Hinv].
  unfold closeHandler.
  set (s0 := setSockets s (delete h (sockets s)) (nextSocket s)).
  pose proof (getClients_lookup (ws_dbname w) s0) as Hlk.
  pose proof (getClients_None (ws_dbname w) s0) as Hnone.
  pose proof (getClients_lookup_inv (ws_dbname w)) as Hlinv. specialize (Hlinv)with (s := s0).
  destruct (getClients_frame (ws_dbname w) s0) as (Hs & Hn & Hq & _).
  destruct (getClients (ws_dbname w) s0) as [s1 group]. simpl in *.
  assert (Hother : ∀ g' l' c, clients s !! g' = Some l' → c ∈ l' →
            client_ws c = h → g' = ws_dbname w).
  { intros g' l' c Hl' Hc Hh.
    destruct (inv_registered s Hinv g' l' c Hl' Hc) as (_ & w' & Hw' & Hg' & _).
    rewrite Hh, Hw in Hw'. injection Hw' as <-. auto. }
  assert (Hopen : ∀ g' l' c, clients s !! g' = Some l' → c ∈ l' →
            client_ws c ≠ h → is_Some (delete h (sockets s) !! client_ws c)).
  { intros g' l' c Hl' Hc Hne.
    destruct (inv_registered s Hinv g' l' c Hl' Hc) as (_ & w' & Hw' & _).
    exists w'. apply lookup_delete_Some. auto. }
  destruct group as [group|]; simpl.
  2:{ destruct (Hnone eq_refl) as ([= ->] & Hno & _).
      apply (invariant_shrink s); simpl; auto.
      - apply delete_subseteq.
      - apply Hinv.
      - intros g' l' Hl'. right. exists l'. auto.
      - intros g' l' c Hl' Hc. apply (Hopen _ l' c Hl' Hc). intros Hh.
        pose proof (Hother _ _ _ Hl' Hc Hh) as ->. simpl in Hno. congruence. }
  specialize (Hlk group eq_refl). clear Hnone.
  destruct (list_find _ group) as [[i c0]|] eqn:Hf; simpl.
  - apply list_find_Some in Hf as (Hi & Hws & _).
    assert (Hgroup : clients s !! ws_dbname w = Some group).
    { destruct (Hlinv _ _ Hlk) as [H|(_ & -> & _)]; [exact H | discriminate]. }
    apply (invariant_shrink s); simpl; auto.
    + rewrite Hs. apply delete_subseteq.
    + rewrite Hq. apply Hinv.
    + intros g' l' Hl'. apply lookup_insert_Some in Hl' as [[<- <-]|[Hne Hl']].
      * right. exists group. split; [exact Hgroup | apply sublist_delete].
      * destruct (Hlinv _ _ Hl') as [H|(_ & -> & _)]; [right; exists l'|left]; auto.
    + intros g' l' c Hl' Hc. rewrite Hs.
      apply lookup_insert_Some in Hl' as [[<- <-]|[Hne Hl']].
      * apply (Hopen _ group c Hgroup (list_elem_of_delete_inv _ _ _ Hc)).
        intros Hh. apply list_elem_of_lookup in Hc as [j Hj].
        rewrite list_lookup_delete in Hj.
        assert (Heq : (if decide (j < i)%nat then j else S j) = i).
        { eapply (same_socket_same_index s _ group _ i c c0); eauto. congruence. }
        destruct (decide (j < i)%nat); lia.
      * destruct (Hlinv _ _ Hl') as [H|(_ & -> & _)]; [|inversion Hc].
        apply (Hopen _ l' c H Hc). intros Hh. apply Hne. symmetry. eauto.
  - apply list_find_None in Hf.
    apply (invariant_shrink s); simpl; auto.
    + rewrite Hs. apply delete_subseteq.
    + rewrite Hq. apply Hinv.
    + intros g' l' Hl'.
      destruct (Hlinv _ _ Hl') as [H|(_ & -> & _)]; [right; exists l'|left]; auto.
    + intros g' l' c Hl' Hc. rewrite Hs.
      destruct (Hlinv _ _ Hl') as [H|(_ & -> & _)]; [|inversion Hc].
      apply (Hopen _ l' c H Hc). intros Hh.
      pose proof (Hother _ _ _ H Hc Hh) as ->.
      rewrite Hlk in Hl'. injection Hl' as <-.
      rewrite Forall_forall in Hf. exact (Hf c Hc Hh).
Qed.

(** *** Subscriptions *)

Lemma same_sockets_refl m : same_sockets m m.
Proof. intros h. destruct (m !! h); constructor; auto. Qed.

Lemma same_sockets_trans m1 m2 m3 :
  same_sockets m1 m2 → same_sockets m2 m3 → same_sockets m1 m3.
Proof.
  intros H12 H23 h. specialize (H12 h). specialize (H23 h).
  destruct H12 as [w1 w2 (Hd & Hi & Ht)|]; inversion H23 as [? w3 (Hd' & Hi' & Ht')|];
    subst; constructor.
  repeat split; [congruence | congruence | auto].
Qed.

Lemma same_sockets_lookup m m' h w' :
  same_sockets m m' → m' !! h = Some w' →
  ∃ w, m !! h = Some w ∧ ws_dbname w' = ws_dbname w ∧ ws_env_id w' = ws_env_id w
       ∧ (topics_ok w → topics_ok w').
Proof.
  intros H Hw. specialize (H h). rewrite Hw in H.
  inversion H as [w ? Hp|]; subst. eauto.
Qed.

Lemma same_sockets_lookup_l m m' h w :
  same_sockets m m' → m !! h = Some w →
  ∃ w', m' !! h = Some w' ∧ ws_dbname w' = ws_dbname w ∧ ws_env_id w' = ws_env_id w.
Proof.
  intros H Hw. specialize (H h). rewrite Hw in H.
  inversion H as [? w' (Hd & Hi & _)|]; subst. eauto.
Qed.

Lemma subscribe_same h t s :
  (∀ w, sockets s !! h = Some w → t = "all" ∨ ∃ i, t = topicOf (ws_dbname w) i) →
  same_sockets (sockets s) (sockets (subscribe h t s)).
Proof.
  intros Hok k. simpl. destruct (decide (h = k)) as [<-|Hne].
  - rewrite lookup_alter_eq. destruct (sockets s !! h) as [w|] eqn:Hw; constructor.
    simpl. repeat split. intros Hw_ok t' Ht'. simpl in *.
    apply elem_of_union in Ht' as [Ht'|Ht']; [|auto].
    apply elem_of_singleton in Ht' as ->. auto.
  - rewrite lookup_alter_ne by done. apply same_sockets_refl.
Qed.

Lemma subscribe_frame h t s :
  clients (subscribe h t s) = clients s
  ∧ nextSocket (subscribe h t s) = nextSocket s
  ∧ _idSequence (subscribe h t s) = _idSequence s
  ∧ largeMessages (subscribe h t s) = largeMessages s
  ∧ timers (subscribe h t s) = timers s
  ∧ config (subscribe h t s) = config s.
Proof. simpl; auto 10. Qed.

Lemma dbname_at_same m m' h g :
  same_sockets m m' → dbname_at m h g → dbname_at m' h g.
Proof.
  intros Hs Hd w' Hw'.
  destruct (same_sockets_lookup _ _ _ _ Hs Hw') as (w & Hw & Hdb & _).
  rewrite Hdb. auto.
Qed.

Lemma crossSubscribe_same h g id s c :
  dbname_at (sockets s) h g → dbname_at (sockets s) (client_ws c) g →
  same_sockets (sockets s) (sockets (crossSubscribe h g id s c)).
Proof.
  intros Hh Hc. unfold crossSubscribe.
  eapply same_sockets_trans.
  - apply (subscribe_same h (topicOf g (client_id c)) s).
    intros w Hw. right. exists (client_id c). now rewrite (Hh w Hw).
  - apply subscribe_same. intros w Hw. right. exists id.
    assert (Hd : dbname_at (sockets (subscribe h (topicOf g (client_id c)) s)) (client_ws c) g).
    { eapply dbname_at_same; [|exact Hc]. apply subscribe_same.
      intros w0 Hw0. right. exists (client_id c). now rewrite (Hh w0 Hw0). }
    now rewrite (Hd w Hw).
Qed.

Lemma foldl_crossSubscribe h g id l : ∀ s,
  dbname_at (sockets s) h g →
  (∀ c, c ∈ l → dbname_at (sockets s) (client_ws c) g) →
  let s' := foldl (crossSubscribe h g id) s l in
  same_sockets (sockets s) (sockets s')
  ∧ clients s' = clients s ∧ nextSocket s' = nextSocket s
  ∧ _idSequence s' = _idSequence s ∧ config s' = config s
  ∧ largeMessages s' = largeMessages s ∧ timers s' = timers s.
Proof.
  induction l as [|c l IH]; intros s Hh Hl; simpl.
  - split; [apply same_sockets_refl | auto 10].
  - assert (Hstep : same_sockets (sockets s) (sockets (crossSubscribe h g id s c))).
    { apply crossSubscribe_same; [exact Hh | apply Hl; left]. }
    destruct (IH (crossSubscribe h g id s c)) as (Hs & Hrest).
    + eapply dbname_at_same; eauto.
    + intros c' Hc'. eapply dbname_at_same; [exact Hstep|]. apply Hl. now right.
    + split; [eapply same_sockets_trans; eauto | exact Hrest].
Qed.

(** *** Admission *)

(** What [res.upgrade] and the [open] handler do: a new socket, a new last
    entry in the list of the group, the welcome frame, the connect broadcast. *)
Lemma resUpgrade_spec r g id s :
  invariant s → arrayAt s g →
  let h := nextSocket s in
  ∃ s' connects,
    resUpgrade r g id s
    = (s', Upgraded h :: Deliver h ("welcome:" ++ welcomeJson (maxPayload (config s)))
           :: connects)
    ∧ Forall (fun e => ∃ k, e = Deliver k ("connect:" ++ id)) connects
    ∧ clients s' = <[g := (default [] (clients s !! g) ++ [newClient r g id h])%list]> (clients s)
    ∧ same_sockets (<[h := newSocket g id]> (sockets s)) (sockets s')
    ∧ nextSocket s' = S h ∧ _idSequence s' = _idSequence s ∧ config s' = config s
    ∧ largeMessages s' = largeMessages s ∧ timers s' = timers s.
Proof.
  intros Hinv Harr h. unfold resUpgrade, openHandler. fold h. fold (newSocket g id).
  set (s0 := setSockets s (<[h:=newSocket g id]> (sockets s)) (S h)).
  assert (Hh : sockets s0 !! h = Some (newSocket g id)) by apply lookup_insert_eq.
  rewrite Hh. simpl ws_dbname. simpl ws_env_id.
  assert (Hg : ∃ s1, getClients g s0 = (s1, Some (default [] (clients s !! g)))
                ∧ sockets s1 = sockets s0 ∧ nextSocket s1 = S h
                ∧ _idSequence s1 = _idSequence s ∧ config s1 = config s
                ∧ largeMessages s1 = largeMessages s ∧ timers s1 = timers s
                ∧ <[g := (default [] (clients s !! g) ++ [newClient r g id h])%list]> (clients s1)
                  = <[g := (default [] (clients s !! g) ++ [newClient r g id h])%list]> (clients s)).
  { destruct (getClients_cases g s0) as [(l & Hl & ->)|[(Hn & Hi & ->)|(Hn & Hi & ->)]];
      simpl in *.
    - rewrite Hl. simpl. eexists; repeat split; reflexivity.
    - rewrite Hn. simpl. eexists; repeat split; try reflexivity.
      simpl. apply insert_insert_eq.
    - destruct Harr as [[l Hl]|Hno]; congruence. }
  destruct Hg as (s1 & -> & Hs1 & Hn1 & Hq1 & Hc1 & Hl1 & Ht1 & Hins).
  set (group := default [] (clients s !! g)) in *.
  destruct (foldl_crossSubscribe h g id group s1) as (Hsame & Hcl & Hnx & Hsq & Hcf & Hlm & Htm).
  { intros w Hw. rewrite Hs1, Hh in Hw. now injection Hw as <-. }
  { intros c Hc w Hw. subst group.
    destruct (clients s !! g) as [l|] eqn:Hl; [|inversion Hc]. simpl in Hc.
    destruct (inv_registered s Hinv g l c Hl Hc) as (_ & w' & Hw' & Hdb & _).
    rewrite Hs1 in Hw. simpl in Hw.
    rewrite lookup_insert_ne in Hw; [congruence|].
    pose proof (inv_fresh s Hinv _ _ Hw'). subst h. lia. }
  set (s2 := foldl (crossSubscribe h g id) s1 group) in *.
  simpl (config (setClients _ _)). rewrite Hcf, Hc1.
  eexists _, _. split; [reflexivity|]. simpl.
  repeat split; try congruence.
  - unfold appPublish. apply Forall_fmap, Forall_forall. intros k _. simpl. eauto.
  - rewrite Hcl. exact Hins.
  - assert (Hs1' : sockets s1 = <[h:=newSocket g id]> (sockets s)) by exact Hs1.
    rewrite <- Hs1'. eapply same_sockets_trans; [exact Hsame|].
    apply (subscribe_same h "all"
             (setClients s2 (<[g:=(group ++ [newClient r g id h])%list]> (clients s2)))).
    auto.
Qed.

Lemma resUpgrade_invariant r g id s :
  invariant s → arrayAt s g →
  (∀ l c, clients s !! g = Some l → c ∈ l → client_id c ≠ id) →
  (5 <= String.length id)%nat →
  invariant (resUpgrade r g id s).1.
Proof.
  intros Hinv Harr Hnew Hlen.
  destruct (resUpgrade_spec r g id s Hinv Harr)
    as (s' & connects & -> & _ & Hcl & Hsame & Hnx & Hsq & _).
  simpl. set (h := nextSocket s) in *.
  assert (Hold : ∀ k w, sockets s !! k = Some w →
            ∃ w', sockets s' !! k = Some w' ∧ ws_dbname w' = ws_dbname w
                  ∧ ws_env_id w' = ws_env_id w).
  { intros k w Hw. apply (same_sockets_lookup_l _ _ _ _ Hsame).
    rewrite lookup_insert_ne; [exact Hw|].
    pose proof (inv_fresh s Hinv _ _ Hw). subst h. lia. }
  assert (Hmem : ∀ g' l c, clients s' !! g' = Some l → c ∈ l →
            (g' = g ∧ c = newClient r g id h)
            ∨ ∃ l0, clients s !! g' = Some l0 ∧ c ∈ l0).
  { intros g' l c Hl Hc. rewrite Hcl in Hl.
    apply lookup_insert_Some in Hl as [[<- <-]|[Hne Hl]]; [|eauto].
    apply elem_of_app in Hc as [Hc|Hc].
    - right. destruct (clients s !! g) as [l0|]; [eauto | inversion Hc].
    - apply list_elem_of_singleton in Hc. auto. }
  constructor.
  - intros g' l c Hl Hc.
    destruct (Hmem g' l c Hl Hc) as [[-> ->]|(l0 & Hl0 & Hc0)].
    + split; [reflexivity|]. simpl.
      destruct (same_sockets_lookup_l _ _ h (newSocket g id) Hsame) as (w' & Hw' & Hd & Hi).
      { apply lookup_insert_eq. }
      exists w'. auto.
    + destruct (inv_registered s Hinv g' l0 c Hl0 Hc0) as (Hdb & w & Hw & Hg & Hid).
      split; [exact Hdb|].
      destruct (Hold _ _ Hw) as (w' & Hw' & Hd & Hi). exists w'.
      repeat split; congruence.
  - intros g' l Hl. rewrite Hcl in Hl.
    apply lookup_insert_Some in Hl as [[<- <-]|[Hne Hl]];
      [|apply (inv_unique s Hinv g' l Hl)].
    rewrite fmap_app. apply NoDup_app. repeat split.
    + destruct (clients s !! g) as [l0|] eqn:Hl0; simpl; [|constructor].
      apply (inv_unique s Hinv g l0 Hl0).
    + intros x Hx Hx'. simpl in Hx'. apply list_elem_of_singleton in Hx' as ->.
      apply list_elem_of_fmap in Hx as (c & Hid & Hc).
      destruct (clients s !! g) as [l0|] eqn:Hl0; [|inversion Hc].
      apply (Hnew l0 c eq_refl Hc). auto.
    + simpl. apply NoDup_singleton.
  - intros k w' Hw'. rewrite Hnx.
    destruct (same_sockets_lookup _ _ _ _ Hsame Hw') as (w & Hw & _).
    apply lookup_insert_Some in Hw as [[<- _]|[_ Hw]]; [lia|].
    pose proof (inv_fresh s Hinv _ _ Hw). subst h. lia.
  - intros k w' t Hw'.
    destruct (same_sockets_lookup _ _ _ _ Hsame Hw') as (w & Hw & _ & _ & Hok).
    apply Hok.
    apply lookup_insert_Some in Hw as [[_ <-]|[_ Hw]].
    + intros t' Ht'. simpl in Ht'. set_solver.
    + intros t' Ht'. apply (inv_topics s Hinv _ _ _ Hw Ht').
  - rewrite Hsq. apply Hinv.
  - intros g' l c Hl Hc.
    destruct (Hmem g' l c Hl Hc) as [[-> ->]|(l0 & Hl0 & Hc0)]; [exact Hlen|].
    apply (inv_id_length s Hinv g' l0 c Hl0 Hc0).
Qed.

Lemma checkEnvironment_None cfg env :
  checkEnvironment cfg env = None →
  ∃ id, prop env "id" = Some id ∧ (5 <= String.length id)%nat.
Proof.
  unfold checkEnvironment. intros H.
  destruct (prop env "v") as [v|]; [|discriminate].
  destruct (negb _); [discriminate|].
  destruct (prop env "id") as [id|]; [|discriminate].
  destruct (Z.of_nat (String.length id) <? 5) eqn:E; [discriminate|].
  apply Z.ltb_ge in E. exists id. split; [reflexivity | lia].
Qed.

Lemma delete_other_id (l : list AceBaseIPCClient) i c c' :
  NoDup (client_id <$> l) → l !! i = Some c → c' ∈ delete i l →
  client_id c' ≠ client_id c.
Proof.
  intros Hnd Hi Hc' Heq.
  apply list_elem_of_lookup in Hc' as [j Hj]. rewrite list_lookup_delete in Hj.
  assert (Hij : (if decide (j < i)%nat then j else S j) = i).
  { apply (NoDup_lookup (client_id <$> l) _ i (client_id c) Hnd).
    - now rewrite list_lookup_fmap, Hj, <- Heq.
    - now rewrite list_lookup_fmap, Hi. }
  destruct (decide (j < i)%nat); lia.
Qed.

(** The two ways an accepted upgrade request goes on when the lookup of the
    group gives an array: with the incumbent of the same id closed first, or
    straight to the upgrade. *)
Lemma upgrade_admitted r g q s id group :
  invariant s →
  checkEnvironment (config s) (parseQuery q) = None →
  prop (parseQuery q) "id" = Some id →
  (getClients g s).2 = Some group →
  match list_find (fun client => client_id client = id) group with
  | Some (_, existingClient) =>
      upgrade r g q s
      = let closed := socketClosed (client_ws existingClient) (getClients g s).1 in
        let opened := resUpgrade r g id closed.1 in
        (opened.1, (Closed (client_ws existingClient) :: closed.2 ++ opened.2)%list)
  | None => upgrade r g q s = resUpgrade r g id (getClients g s).1
  end.
Proof.
  intros Hinv Hck Hid Hgroup. unfold upgrade. rewrite Hck, Hid.
  pose proof (getClients_invariant g s Hinv) as H1.
  pose proof (getClients_lookup g s group Hgroup) as Hlk.
  destruct (getClients g s) as [s1 group']. simpl in *. subst group'.
  destruct (list_find _ group) as [[i c]|] eqn:Hf; [|reflexivity].
  apply list_find_Some in Hf as (Hi & _ & _).
  destruct (inv_registered s1 H1 g group c Hlk) as (_ & w & Hw & _).
  { eapply list_elem_of_lookup_2; eauto. }
  unfold wsClose. rewrite Hw.
  destruct (socketClosed (client_ws c) s1) as [s2 e1]. simpl.
  destruct (resUpgrade r g id s2) as [s3 e2]. reflexivity.
Qed.

(** An accepted upgrade request for a group name that the registry only
    inherits: [clients.find] raises before [res.upgrade] is reached. *)
Lemma upgrade_inherited r g q s :
  checkEnvironment (config s) (parseQuery q) = None →
  (getClients g s).2 = None →
  upgrade r g q s = (s, [Thrown]).
Proof.
  intros Hck Hnone. unfold upgrade. rewrite Hck.
  destruct (prop (parseQuery q) "id"); [|reflexivity].
  destruct (getClients_None g s Hnone) as (-> & _). reflexivity.
Qed.

(** After the lookup, and after the close of a member, the group has a list
    of its own. *)
Lemma getClients_arrayAt g s l : (getClients g s).2 = Some l → arrayAt (getClients g s).1 g.
Proof. intros Hl. left. rewrite (getClients_lookup g s l Hl). eauto. Qed.

Lemma upgrade_invariant r g q s : invariant s → invariant (upgrade r g q s).1.
Proof.
  intros Hinv.
  destruct (checkEnvironment (config s) (parseQuery q)) as [err|] eqn:Hck.
  { unfold upgrade. now rewrite Hck. }
  destruct (checkEnvironment_None _ _ Hck) as (id & Hid & Hlen).
  destruct (getClients g s).2 as [group|] eqn:Hgroup;
    [|now rewrite (upgrade_inherited r g q s Hck Hgroup)].
  pose proof (upgrade_admitted r g q s id group Hinv Hck Hid Hgroup) as Hup.
  pose proof (getClients_invariant g s Hinv) as H1.
  pose proof (getClients_lookup g s group Hgroup) as Hlk.
  pose proof (getClients_arrayAt g s group Hgroup) as Harr.
  destruct (getClients g s) as [s1 group']. simpl in *.
  destruct (list_find _ group) as [[i c]|] eqn:Hf; rewrite Hup; clear Hup.
  - apply list_find_Some in Hf as (Hi & Hcid & _). simpl.
    apply resUpgrade_invariant; [apply socketClosed_invariant, H1| | |exact Hlen].
    + rewrite (socketClosed_registered s1 g group i c H1 Hlk Hi). simpl.
      left. simpl. rewrite lookup_insert_eq. eauto.
    + rewrite (socketClosed_registered s1 g group i c H1 Hlk Hi). simpl.
      intros l c' Hl Hc'. rewrite lookup_insert_eq in Hl. injection Hl as <-.
      rewrite <- Hcid.
      apply (delete_other_id group i c c' (inv_unique s1 H1 g group Hlk) Hi Hc').
  - apply list_find_None in Hf. rewrite Forall_forall in Hf.
    apply resUpgrade_invariant; [exact H1 | exact Harr | | exact Hlen].
    intros l c Hl Hc. rewrite Hlk in Hl. injection Hl as <-. auto.
Qed.

Lemma handle_invariant r e s : invariant s → invariant (handle r e s).1.
Proof.
  intros Hinv. destruct e as [g q|h|h b d|g|g q d|g q|g q]; simpl.
  - now apply upgrade_invariant.
  - now apply socketClosed_invariant.
  - unfold messageHandler. destruct b; [exact Hinv|].
    destruct (sockets s !! h) as [w|]; [|exact Hinv].
    pose proof (getClients_invariant (ws_dbname w) s Hinv) as H1.
    destruct (getClients (ws_dbname w) s) as [s1 [group|]]; [|exact H1].
    now apply handleIncomingMessage_invariant.
  - unfold getClientsRoute.
    pose proof (getClients_invariant g s Hinv) as H1.
    destruct (getClients g s) as [s1 [group|]]; exact H1.
  - unfold postSend.
    pose proof (getClients_invariant g s Hinv) as H1.
    destruct (getClients g s) as [s1 [group|]]; simpl in H1; [|exact H1].
    destruct (unauthorized _ _ _); [exact H1|].
    destruct (findById _ group) as [[i c]|]; [|exact H1].
    pose proof (handleIncomingMessage_invariant r d (client_ws c) s1 H1) as H2.
    destruct (handleIncomingMessage r d (client_ws c) s1). exact H2.
  - unfold getSend. destruct (negb _); [exact Hinv|].
    pose proof (getClients_invariant g s Hinv) as H1.
    destruct (getClients g s) as [s1 [group|]]; simpl in H1; [|exact H1].
    destruct (unauthorized _ _ _); [exact H1|].
    destruct (findById _ group) as [[i c]|]; [|exact H1].
    destruct (prop _ "msg") as [m|]; [|exact H1].
    now apply handleIncomingMessage_invariant.
  - unfold getReceive.
    pose proof (getClients_invariant g s Hinv) as H1.
    destruct (getClients g s) as [s1 [group|]]; simpl in H1; [|exact H1].
    destruct (unauthorized _ _ _); [exact H1|].
    destruct (largeMessages s1 !! _); [|exact H1].
    apply (invariant_ext s1); auto. apply H1.
Qed.

Lemma step_invariant r e s : invariant s → invariant (step r e s).1.
Proof. intros Hinv. apply handle_invariant, runTimers_invariant, Hinv. Qed.

Lemma run_invariant tr : ∀ s, invariant s → invariant (run tr s).1.
Proof.
  induction tr as [|[r e] tr IH]; intros s Hinv; simpl; [exact Hinv|].
  pose proof (step_invariant r e s Hinv) as H1.
  destruct (step r e s) as [s1 out].
  specialize (IH s1 H1). destruct (run tr s1) as [s2 outs]. exact IH.
Qed.

Lemma reachable_invariant cfg s : reachable cfg s → invariant s.
Proof. intros [tr <-]. apply run_invariant, invariant_new. Qed.

End Invariant.

(** ** Slot ids *)

Section SlotIds.

Lemma slice_inside s (b e : Z) :
  0 <= b <= e → e <= Z.of_nat (String.length s) →
  JS.slice s b e = JS.take (Z.to_nat (e - b)) (JS.drop (Z.to_nat b) s).
Proof.
  intros Hb He. unfold JS.slice, JS.clampIndex.
  destruct (b <? 0) eqn:Eb; [apply Z.ltb_lt in Eb; lia|].
  destruct (e <? 0) eqn:Ee; [apply Z.ltb_lt in Ee; lia|].
  now rewrite !Z.min_l by lia.
Qed.

Lemma slice_segments (a b c : string) :
  String.length a = 8%nat → String.length b = 8%nat → String.length c = 8%nat →
  JS.slice (a ++ b ++ c) 0 8 = a
  ∧ JS.slice (a ++ b ++ c) 8 16 = b
  ∧ JS.slice (a ++ b ++ c) 16 24 = c.
Proof.
  intros Ha Hb Hc.
  rewrite !slice_inside by (rewrite ?append_length, ?Ha, ?Hb, ?Hc; lia).
  repeat split.
  - replace (Z.to_nat (8 - 0)) with (String.length a) by lia.
    replace (Z.to_nat 0) with 0%nat by lia.
    apply take_app_length.
  - replace (Z.to_nat 8) with (String.length a) by lia.
    rewrite drop_app_length.
    replace (Z.to_nat (16 - 8)) with (String.length b) by lia.
    apply take_app_length.
  - replace (Z.to_nat 16) with (String.length (a ++ b)) by (rewrite append_length; lia).
    rewrite <- append_assoc, drop_app_length.
    replace (Z.to_nat (24 - 16)) with (String.length c) by lia.
    apply take_all.
Qed.

(** The format of an id, for a counter in range. *)
Lemma generateID_segments r s :
  0 <= _idSequence s < _maxNr →
  0 <= now r < 36 ^ 8 →
  0 <= random r < 36 ^ 8 →
  let id := (generateID r s).2 in
  let seq := _idSequence (generateID r s).1 in
  String.length id = 24%nat
  ∧ JS.allChars JS.isDigit36 id = true
  ∧ id = JS.padStart (JS.toString 36 (now r)) 8 "0"
         ++ JS.padStart (JS.toString 36 seq) 8 "0"
         ++ JS.padStart (JS.toString 36 (random r)) 8 "0"
  ∧ String.length (JS.slice id 0 8) = 8%nat
  ∧ String.length (JS.slice id 8 16) = 8%nat
  ∧ String.length (JS.slice id 16 24) = 8%nat
  ∧ JS.parseInt (JS.slice id 0 8) 36 = now r
  ∧ JS.parseInt (JS.slice id 8 16) 36 = seq
  ∧ JS.parseInt (JS.slice id 16 24) 36 = random r
  ∧ seq = (_idSequence s + 1) mod 36 ^ 8.
Proof.
  intros Hseq Hnow Hrnd id seq.
  destruct (generateID_sequence r s Hseq) as [Hnext Hbound].
  fold seq in Hnext, Hbound. unfold _maxNr in *.
  destruct (segment_spec (now r) Hnow) as (Lt & Pt & At).
  destruct (segment_spec seq Hbound) as (Lq & Pq & Aq).
  destruct (segment_spec (random r) Hrnd) as (Lr & Pr & Ar).
  assert (Hid : id = JS.padStart (JS.toString 36 (now r)) 8 "0"
                     ++ JS.padStart (JS.toString 36 seq) 8 "0"
                     ++ JS.padStart (JS.toString 36 (random r)) 8 "0") by reflexivity.
  destruct (slice_segments _ _ _ Lt Lq Lr) as (S1 & S2 & S3).
  rewrite Hid, S1, S2, S3, !append_length, !allChars_app, Lt, Lq, Lr, At, Aq, Ar.
  repeat split; auto.
Qed.

(** Two ids generated one after the other differ: their counters do. *)
Lemma generateID_successive_distinct r1 r2 s :
  0 <= _idSequence s < _maxNr →
  0 <= now r1 < 36 ^ 8 → 0 <= random r1 < 36 ^ 8 →
  0 <= now r2 < 36 ^ 8 → 0 <= random r2 < 36 ^ 8 →
  (generateID r1 s).2 ≠ (generateID r2 (generateID r1 s).1).2.
Proof.
  intros Hseq Hn1 Hr1 Hn2 Hr2 Heq.
  destruct (generateID_sequence r1 s Hseq) as [_ Hseq1].
  destruct (generateID_segments r1 s Hseq Hn1 Hr1)
    as (_ & _ & _ & _ & _ & _ & _ & P1 & _ & _).
  destruct (generateID_segments r2 (generateID r1 s).1 Hseq1 Hn2 Hr2)
    as (_ & _ & _ & _ & _ & _ & _ & P2 & _ & N2).
  rewrite <- Heq, P1 in P2. rewrite <- P2 in N2. unfold _maxNr in *.
  destruct (Z.eq_dec (_idSequence (generateID r1 s).1 + 1) (36 ^ 8)) as [E|E].
  - rewrite E, Z.mod_same in N2 by lia. lia.
  - rewrite Z.mod_small in N2 by lia. lia.
Qed.

(** C8, amended.  Every id that [generateID] produces in a reachable state
    while the clock reads at least 0 and less than [36^8] ms (and the random
    draw is below [36^8], as [Math.floor(Math.random() * _maxNr)] is) has 24
    characters of the base-36 alphabet: three zero-padded segments of eight
    characters that read back as the clock, the sequence counter and the
    random draw; the counter is the previous one plus one, modulo [36^8]. *)
Theorem generateID_format cfg s r :
  reachable cfg s →
  0 <= now r < 36 ^ 8 →
  0 <= random r < 36 ^ 8 →
  let id := (generateID r s).2 in
  let seq := _idSequence (generateID r s).1 in
  String.length id = 24%nat
  ∧ JS.allChars JS.isDigit36 id = true
  ∧ id = JS.padStart (JS.toString 36 (now r)) 8 "0"
         ++ JS.padStart (JS.toString 36 seq) 8 "0"
         ++ JS.padStart (JS.toString 36 (random r)) 8 "0"
  ∧ String.length (JS.slice id 0 8) = 8%nat
  ∧ String.length (JS.slice id 8 16) = 8%nat
  ∧ String.length (JS.slice id 16 24) = 8%nat
  ∧ JS.parseInt (JS.slice id 0 8) 36 = now r
  ∧ JS.parseInt (JS.slice id 8 16) 36 = seq
  ∧ JS.parseInt (JS.slice id 16 24) 36 = random r
  ∧ seq = (_idSequence s + 1) mod 36 ^ 8.
Proof.
  intros Hreach Hnow Hrnd.
  apply generateID_segments; auto.
  apply (inv_sequence s (reachable_invariant cfg s Hreach)).
Qed.

(** The format on the first id of a fresh server. *)
Lemma generateID_format_witness :
  reachable sampleConfig (newServer sampleConfig)
  ∧ (generateID sampleReading (newServer sampleConfig)).2 = "loyw3v2800000001000009ix"
  ∧ String.length (generateID sampleReading (newServer sampleConfig)).2 = 24%nat.
Proof.
  assert (Hr : reachable sampleConfig (newServer sampleConfig)) by (exists []; reflexivity).
  split; [exact Hr|]. split; [reflexivity|].
  apply (generateID_format sampleConfig (newServer sampleConfig) sampleReading Hr);
    simpl; lia.
Defined.

(** C8, as stated, fails once the clock reaches [36^8] ms: the timestamp
    then has nine base-36 digits, [padStart] leaves it as it is, and the id
    has 25 characters. *)
Lemma generateID_after_rollover : ¬ idsHave24Characters sampleConfig.
Proof.
  intros H.
  assert (Hr : reachable sampleConfig (newServer sampleConfig)) by (exists []; reflexivity).
  specialize (H (newServer sampleConfig) rolloverReading Hr).
  assert (Hlen : String.length (generateID rolloverReading (newServer sampleConfig)).2
                 = 25%nat) by (vm_compute; reflexivity).
  rewrite Hlen in H. assert (25%nat = 24%nat) as Habs; [|discriminate Habs].
  apply H; [vm_compute; discriminate|].
  split; [vm_compute; discriminate | vm_compute; reflexivity].
Qed.

End SlotIds.

(** ** The upgrade handshake *)

Section Handshake.

Lemma checkEnvironment_spec cfg env :
  (¬ versionOk env ∧ checkEnvironment cfg env = Some (unsupportedVersion env))
  ∨ (versionOk env ∧ ¬ idOk env ∧ checkEnvironment cfg env = Some (invalidId env))
  ∨ (versionOk env ∧ idOk env ∧ ¬ tokenOk cfg env
     ∧ checkEnvironment cfg env = Some "403 Unauthorized")
  ∨ (versionOk env ∧ idOk env ∧ tokenOk cfg env ∧ checkEnvironment cfg env = None).
Proof.
  unfold checkEnvironment, versionOk, idOk, tokenOk, unsupportedVersion, invalidId.
  destruct (prop env "v") as [v|] eqn:Hv.
  2:{ left. split; [intros (v & [=] & _) | reflexivity]. }
  destruct (String.eqb (List.nth 0 (JS.split "." v) "") "1") eqn:Hmajor; simpl.
  2:{ left. split; [|reflexivity]. intros (v' & [= <-] & Hh).
      destruct (JS.split "." v) as [|m ms]; [discriminate|].
      simpl in *. injection Hh as ->. discriminate. }
  assert (Hver : ∃ v0, Some v = Some v0 ∧ head (JS.split "." v0) = Some "1").
  { exists v. split; [reflexivity|]. apply String.eqb_eq in Hmajor.
    destruct (JS.split "." v) as [|m ms]; simpl in *; [discriminate | congruence]. }
  right. destruct (prop env "id") as [id|] eqn:Hid.
  2:{ left. repeat split; auto. intros (i & [=] & _). }
  destruct (Z.of_nat (String.length id) <? 5) eqn:Hlen.
  { left. apply Z.ltb_lt in Hlen. repeat split; auto. intros (i & [= <-] & Hi). lia. }
  apply Z.ltb_ge in Hlen.
  assert (Hidok : ∃ i, Some id = Some i ∧ (5 <= String.length i)%nat)
    by (exists id; split; [reflexivity | lia]).
  right. destruct (token cfg) as [tk|] eqn:Htk.
  2:{ right. repeat split; auto. intros tk [=]. }
  destruct (bool_decide (prop env "t" ≠ Some tk)) eqn:Ht.
  - left. apply bool_decide_eq_true in Ht.
    repeat split; auto; try (intros Hall; apply Ht, Hall; reflexivity).
  - right. apply bool_decide_eq_false in Ht.
    repeat split; auto;
      try (intros tk' [= <-];
           destruct (decide (prop env "t" = Some tk)); [auto | contradiction]).
Qed.

Lemma upgrade_rejected r g q s err :
  checkEnvironment (config s) (parseQuery q) = Some err →
  upgrade r g q s = (s, [Respond (Some err) err]).
Proof. intros H. unfold upgrade. rewrite H. now destruct (prop (parseQuery q) "id"). Qed.

(** An accepted request upgrades: [Upgraded] is among the effects. *)
Lemma upgrade_accepted r g q s :
  invariant s → arrayAt s g → checkEnvironment (config s) (parseQuery q) = None →
  ∃ h, Upgraded h ∈ (upgrade r g q s).2.
Proof.
  intros Hinv Harr Hck.
  destruct (checkEnvironment_None _ _ Hck) as (id & Hid & Hlen).
  apply getClients_array in Harr as [group Hgroup].
  pose proof (upgrade_admitted r g q s id group Hinv Hck Hid Hgroup) as Hup.
  pose proof (getClients_invariant g s Hinv) as H1.
  pose proof (getClients_lookup g s group Hgroup) as Hlk.
  pose proof (getClients_arrayAt g s group Hgroup) as Harr1.
  destruct (getClients g s) as [s1 group']. simpl in *.
  destruct (list_find _ group) as [[i c]|] eqn:Hf; rewrite Hup; simpl.
  - pose proof (socketClosed_invariant (client_ws c) s1 H1) as H2.
    apply list_find_Some in Hf as (Hi & _).
    assert (Harr2 : arrayAt (socketClosed (client_ws c) s1).1 g).
    { rewrite (socketClosed_registered s1 g group i c H1 Hlk Hi). left. simpl.
      rewrite lookup_insert_eq. eauto. }
    destruct (resUpgrade_spec r g id _ H2 Harr2) as (s' & cs & -> & _).
    eexists. simpl. right. apply elem_of_app. right. left.
  - destruct (resUpgrade_spec r g id _ H1 Harr1) as (s' & cs & -> & _).
    eexists. left.
Qed.

(** An accepted request for a group name that the registry only inherits
    upgrades nothing and leaves the state as it is. *)
Lemma upgrade_raises r g q s :
  ¬ arrayAt s g → checkEnvironment (config s) (parseQuery q) = None →
  upgrade r g q s = (s, [Thrown]).
Proof.
  intros Harr Hck. apply upgrade_inherited; [exact Hck|].
  destruct (getClients g s).2 as [l|] eqn:E; [|reflexivity].
  elim Harr. apply getClients_array. eauto.
Qed.

(** The handshake for a group whose lookup gives an array.  A connection is
    admitted exactly when the major component of the version parameter is
    [1], the id is a string of at least five characters, and the token
    matches when one is configured.  Otherwise nothing is upgraded and the
    state is untouched; the status line is the 409 text for a bad version,
    else the 500 text for a bad id, else [403 Unauthorized] for a bad
    token. *)
Lemma upgrade_handshake cfg s r g q :
  reachable cfg s → arrayAt s g →
  ((∃ h, Upgraded h ∈ (upgrade r g q s).2)
     ↔ versionOk (parseQuery q) ∧ idOk (parseQuery q) ∧ tokenOk (config s) (parseQuery q))
  ∧ (¬ versionOk (parseQuery q) →
       upgrade r g q s
       = (s, [Respond (Some (unsupportedVersion (parseQuery q)))
                      (unsupportedVersion (parseQuery q))]))
  ∧ (versionOk (parseQuery q) → ¬ idOk (parseQuery q) →
       upgrade r g q s
       = (s, [Respond (Some (invalidId (parseQuery q))) (invalidId (parseQuery q))]))
  ∧ (versionOk (parseQuery q) → idOk (parseQuery q) →
     ¬ tokenOk (config s) (parseQuery q) →
       upgrade r g q s = (s, [Respond (Some "403 Unauthorized") "403 Unauthorized"])).
Proof.
  intros Hreach Harr. pose proof (reachable_invariant cfg s Hreach) as Hinv.
  assert (Hno : ∀ err, ¬ ∃ h, Upgraded h ∈ [Respond (Some err) err]).
  { intros err [h Hh]. apply list_elem_of_singleton in Hh. discriminate. }
  destruct (checkEnvironment_spec (config s) (parseQuery q))
    as [(Hv & Hck)|[(Hv & Hi & Hck)|[(Hv & Hi & Ht & Hck)|(Hv & Hi & Ht & Hck)]]].
  1-3: rewrite (upgrade_rejected r g q s _ Hck); simpl;
       repeat split; intros; try reflexivity; try tauto;
       exfalso; eapply Hno; eassumption.
  repeat split; intros; try tauto. now apply upgrade_accepted.
Qed.

(** The handshake on a fresh server: version 1.0.0 is admitted, 2.0.0 is
    answered 409. *)
Lemma upgrade_handshake_sample :
  reachable sampleConfig (newServer sampleConfig)
  ∧ (∃ h, Upgraded h ∈ (upgrade sampleReading "mydb" "id=client1&v=1.0.0&t=s"
                          (newServer sampleConfig)).2)
  ∧ (upgrade sampleReading "mydb" "id=client1&v=2.0.0&t=s" (newServer sampleConfig)).2
    = [Respond (Some (unsupportedVersion (parseQuery "id=client1&v=2.0.0&t=s")))
               (unsupportedVersion (parseQuery "id=client1&v=2.0.0&t=s"))].
Proof.
  assert (Hr : reachable sampleConfig (newServer sampleConfig)) by (exists []; reflexivity).
  assert (Ha : arrayAt (newServer sampleConfig) "mydb") by (right; reflexivity).
  split; [exact Hr|]. split.
  - exists 0%nat. vm_compute. left.
  - pose proof (upgrade_handshake sampleConfig (newServer sampleConfig) sampleReading
                  "mydb" "id=client1&v=2.0.0&t=s" Hr Ha) as (_ & H409 & _).
    rewrite H409; [reflexivity|].
    intros (v & Hv & Hmajor). vm_compute in Hv. injection Hv as <-.
    vm_compute in Hmajor. discriminate.
Defined.

(** C6. The upgrade request [/constructor/connect?id=client1&v=1.0.0&t=s]
    on a fresh server passes the three checks: version [1.0.0], an id of
    seven characters, the configured token.  It is not admitted and gets no
    status line: [constructor in this.clients] holds for the plain object,
    [getClients] hands back what the object inherits under that name, and
    [clients.find] raises before [res.upgrade] is reached.  The same holds
    in every state for every name the registry only inherits. *)
Theorem inherited_group_is_not_upgraded :
  versionOk (parseQuery "id=client1&v=1.0.0&t=s")
  ∧ idOk (parseQuery "id=client1&v=1.0.0&t=s")
  ∧ tokenOk sampleConfig (parseQuery "id=client1&v=1.0.0&t=s")
  ∧ step sampleReading (Connect "constructor" "id=client1&v=1.0.0&t=s")
      (newServer sampleConfig)
    = (newServer sampleConfig, [Thrown])
  ∧ (∀ h, Upgraded h
            ∉ (step sampleReading (Connect "constructor" "id=client1&v=1.0.0&t=s")
                 (newServer sampleConfig)).2)
  ∧ (∀ r g q s,
       ¬ arrayAt s g → checkEnvironment (config s) (parseQuery q) = None →
       upgrade r g q s = (s, [Thrown])).
Proof.
  assert (Hstep : step sampleReading (Connect "constructor" "id=client1&v=1.0.0&t=s")
                    (newServer sampleConfig)
                  = (newServer sampleConfig, [Thrown])) by (vm_compute; reflexivity).
  split; [exists "1.0.0"; split; vm_compute; reflexivity|].
  split; [exists "client1"; split; [vm_compute; reflexivity | simpl; lia]|].
  split; [intros tk [= <-]; vm_compute; reflexivity|].
  split; [exact Hstep|]. split; [|intros r g q s; apply upgrade_raises].
  intros h Hin. rewrite Hstep in Hin. apply list_elem_of_singleton in Hin. discriminate.
Qed.

End Handshake.

(** ** Group keys only accumulate *)

Section GroupKeys.

Lemma getClients_dom g s :
  dom (clients s) ⊆ dom (clients (getClients g s).1)
  ∧ (inherited g = false → dom (clients (getClients g s).1) = {[g]} ∪ dom (clients s)).
Proof.
  destruct (getClients_cases g s) as [(l & Hl & ->)|[(Hn & Hi & ->)|(Hn & Hi & ->)]]; simpl.
  - apply (elem_of_dom_2 (clients s)) in Hl. set_solver.
  - rewrite dom_insert_L. set_solver.
  - split; [done | congruence].
Qed.

Lemma foldl_crossSubscribe_clients h g id l : ∀ s,
  clients (foldl (crossSubscribe h g id) s l) = clients s.
Proof. induction l as [|c l IH]; intros s; simpl; [reflexivity | now rewrite IH]. Qed.

Lemma handleIncomingMessage_dom r msg ws s :
  dom (clients s) ⊆ dom (clients (handleIncomingMessage r msg ws s).1).
Proof.
  unfold handleIncomingMessage. destruct (sockets s !! ws) as [w|]; [|done].
  destruct (getClients_dom (ws_dbname w) s) as [Hd _].
  destruct (getClients (ws_dbname w) s) as [s1 group]. simpl in Hd.
  destruct (String.eqb msg "ping"); [simpl; set_solver|].
  destruct (splitRecipient msg) as [to body].
  destruct (spill_frame r body s1) as (Hc & _).
  destruct (spill r body s1) as [s2 out]. simpl in *. rewrite Hc. set_solver.
Qed.

Lemma socketClosed_dom h s : dom (clients s) ⊆ dom (clients (socketClosed h s).1).
Proof.
  unfold socketClosed. destruct (sockets s !! h) as [w|]; [|done].
  unfold closeHandler.
  destruct (getClients_dom (ws_dbname w)
              (setSockets s (delete h (sockets s)) (nextSocket s))) as [Hd _].
  destruct (getClients _ _) as [s1 [group|]]; simpl in Hd; [|simpl; set_solver].
  destruct (list_find _ group) as [[i c]|]; simpl; [|set_solver].
  rewrite dom_insert_L. set_solver.
Qed.

Lemma resUpgrade_dom r g id s : dom (clients s) ⊆ dom (clients (resUpgrade r g id s).1).
Proof.
  unfold resUpgrade, openHandler. simpl. rewrite lookup_insert_eq. simpl.
  destruct (getClients_dom g
              (setSockets s (<[nextSocket s:=newSocket g id]> (sockets s))
                 (S (nextSocket s)))) as [Hd _].
  unfold newSocket in Hd.
  destruct (getClients _ _) as [s1 [group|]]; simpl in *; [|set_solver].
  rewrite dom_insert_L, foldl_crossSubscribe_clients. set_solver.
Qed.

Lemma upgrade_dom r g q s : dom (clients s) ⊆ dom (clients (upgrade r g q s).1).
Proof.
  unfold upgrade.
  destruct (checkEnvironment _ _); [done|].
  destruct (prop _ "id") as [id|]; [|done].
  destruct (getClients_dom g s) as [Hd _].
  destruct (getClients g s) as [s1 [group|]]; simpl in Hd; [|simpl; set_solver].
  destruct (list_find _ group) as [[i c]|].
  - unfold wsClose. destruct (sockets s1 !! client_ws c); [|simpl; set_solver].
    pose proof (socketClosed_dom (client_ws c) s1) as Hc.
    destruct (socketClosed (client_ws c) s1) as [s2 e1]. simpl in Hc.
    pose proof (resUpgrade_dom r g id s2) as Hu.
    destruct (resUpgrade r g id s2) as [s3 e3]. simpl in *. set_solver.
  - pose proof (resUpgrade_dom r g id s1). set_solver.
Qed.

Lemma step_dom r e s : dom (clients s) ⊆ dom (clients (step r e s).1).
Proof.
  unfold step. change (clients s) with (clients (runTimers (now r) s)).
  generalize (runTimers (now r) s). clear s. intros s.
  destruct e as [g q|h|h b d|g|g q d|g q|g q]; simpl.
  - apply upgrade_dom.
  - apply socketClosed_dom.
  - unfold messageHandler. destruct b; [done|].
    destruct (sockets s !! h) as [w|]; [|done].
    destruct (getClients_dom (ws_dbname w) s) as [Hd _].
    destruct (getClients (ws_dbname w) s) as [s1 [group|]]; simpl in Hd; [|simpl; set_solver].
    pose proof (handleIncomingMessage_dom r d h s1). set_solver.
  - unfold getClientsRoute. destruct (getClients_dom g s) as [Hd _].
    destruct (getClients g s) as [s1 [group|]]; simpl in *; set_solver.
  - unfold postSend. destruct (getClients_dom g s) as [Hd _].
    destruct (getClients g s) as [s1 [group|]]; simpl in Hd; [|simpl; set_solver].
    destruct (unauthorized _ _ _); [simpl; set_solver|].
    destruct (findById _ group) as [[i c]|]; [|simpl; set_solver].
    pose proof (handleIncomingMessage_dom r d (client_ws c) s1) as Hh.
    destruct (handleIncomingMessage r d (client_ws c) s1). simpl in *. set_solver.
  - unfold getSend. destruct (negb _); [done|].
    destruct (getClients_dom g s) as [Hd _].
    destruct (getClients g s) as [s1 [group|]]; simpl in Hd; [|simpl; set_solver].
    destruct (unauthorized _ _ _); [simpl; set_solver|].
    destruct (findById _ group) as [[i c]|]; [|simpl; set_solver].
    destruct (prop _ "msg") as [m|]; [|simpl; set_solver].
    pose proof (handleIncomingMessage_dom r m (client_ws c) s1). set_solver.
  - unfold getReceive. destruct (getClients_dom g s) as [Hd _].
    destruct (getClients g s) as [s1 [group|]]; simpl in Hd; [|simpl; set_solver].
    destruct (unauthorized _ _ _); [simpl; set_solver|].
    destruct (largeMessages s1 !! _); simpl; set_solver.
Qed.

(** No handler files a list under an inherited name. *)
Lemma ownKeys_same s s' : clients s' = clients s → ownKeys s → ownKeys s'.
Proof. intros Hc H g. rewrite Hc. apply H. Qed.

Lemma ownKeys_insert s g l :
  is_Some (clients s !! g) → ownKeys s → ownKeys (setClients s (<[g := l]> (clients s))).
Proof.
  intros Hg H g' Hg'. simpl in Hg'. destruct (decide (g = g')) as [<-|Hne].
  - now apply H.
  - rewrite lookup_insert_ne in Hg' by done. now apply H.
Qed.

Lemma getClients_ownKeys g s : ownKeys s → ownKeys (getClients g s).1.
Proof.
  intros H g' Hg'.
  destruct (getClients_cases g s) as [(l & Hl & E)|[(Hn & Hi & E)|(Hn & Hi & E)]];
    rewrite E in Hg'; simpl in Hg'; [now apply H | | now apply H].
  destruct (decide (g = g')) as [<-|Hne]; [exact Hi|].
  rewrite lookup_insert_ne in Hg' by done. now apply H.
Qed.

Lemma handleIncomingMessage_ownKeys r msg ws s :
  ownKeys s → ownKeys (handleIncomingMessage r msg ws s).1.
Proof.
  intros H. unfold handleIncomingMessage. destruct (sockets s !! ws) as [w|]; [|exact H].
  pose proof (getClients_ownKeys (ws_dbname w) s H) as H1.
  destruct (getClients (ws_dbname w) s) as [s1 group]. simpl in H1.
  destruct (String.eqb msg "ping"); [exact H1|].
  destruct (splitRecipient msg) as [to body].
  destruct (spill_frame r body s1) as (Hc & _).
  destruct (spill r body s1) as [s2 out]. simpl in *. now apply (ownKeys_same s1).
Qed.

Lemma socketClosed_ownKeys h s : ownKeys s → ownKeys (socketClosed h s).1.
Proof.
  intros H. unfold socketClosed. destruct (sockets s !! h) as [w|]; [|exact H].
  unfold closeHandler.
  set (s0 := setSockets s (delete h (sockets s)) (nextSocket s)).
  assert (H0 : ownKeys s0) by exact H.
  pose proof (getClients_ownKeys (ws_dbname w) s0 H0) as H1.
  pose proof (getClients_lookup (ws_dbname w) s0) as Hlk.
  destruct (getClients (ws_dbname w) s0) as [s1 [group|]]; simpl in *; [|exact H1].
  destruct (list_find _ group) as [[i c]|]; simpl; [|exact H1].
  apply ownKeys_insert; [|exact H1]. rewrite (Hlk group eq_refl). eauto.
Qed.

Lemma resUpgrade_ownKeys r g id s : ownKeys s → ownKeys (resUpgrade r g id s).1.
Proof.
  intros H. unfold resUpgrade, openHandler. simpl. rewrite lookup_insert_eq. simpl.
  set (s0 := setSockets s _ _).
  assert (H0 : ownKeys s0) by exact H.
  pose proof (getClients_ownKeys g s0 H0) as H1.
  pose proof (getClients_lookup g s0) as Hlk.
  destruct (getClients g s0) as [s1 [group|]]; simpl in *; [|exact H1].
  intros g' Hg'. simpl in Hg'. rewrite foldl_crossSubscribe_clients in Hg'.
  destruct (decide (g = g')) as [<-|Hne].
  - apply H1. rewrite (Hlk group eq_refl). eauto.
  - rewrite lookup_insert_ne in Hg' by done. now apply H1.
Qed.

Lemma upgrade_ownKeys r g q s : ownKeys s → ownKeys (upgrade r g q s).1.
Proof.
  intros H. unfold upgrade.
  destruct (checkEnvironment _ _); [exact H|].
  destruct (prop _ "id") as [id|]; [|exact H].
  pose proof (getClients_ownKeys g s H) as H1.
  destruct (getClients g s) as [s1 [group|]]; simpl in H1; [|exact H1].
  destruct (list_find _ group) as [[i c]|].
  - unfold wsClose. destruct (sockets s1 !! client_ws c); [|exact H1].
    pose proof (socketClosed_ownKeys (client_ws c) s1 H1) as H2.
    destruct (socketClosed (client_ws c) s1) as [s2 e1]. simpl in H2.
    pose proof (resUpgrade_ownKeys r g id s2 H2) as H3.
    destruct (resUpgrade r g id s2) as [s3 e3]. exact H3.
  - now apply resUpgrade_ownKeys.
Qed.

Lemma step_ownKeys r e s : ownKeys s → ownKeys (step r e s).1.
Proof.
  intros H0. unfold step.
  assert (H : ownKeys (runTimers (now r) s)) by exact H0. clear H0.
  revert H. generalize (runTimers (now r) s). clear s. intros s H.
  destruct e as [g q|h|h b d|g|g q d|g q|g q]; simpl.
  - now apply upgrade_ownKeys.
  - now apply socketClosed_ownKeys.
  - unfold messageHandler. destruct b; [exact H|].
    destruct (sockets s !! h) as [w|]; [|exact H].
    pose proof (getClients_ownKeys (ws_dbname w) s H) as H1.
    destruct (getClients (ws_dbname w) s) as [s1 [group|]]; simpl in H1; [|exact H1].
    now apply handleIncomingMessage_ownKeys.
  - unfold getClientsRoute. pose proof (getClients_ownKeys g s H) as H1.
    destruct (getClients g s) as [s1 [group|]]; exact H1.
  - unfold postSend. pose proof (getClients_ownKeys g s H) as H1.
    destruct (getClients g s) as [s1 [group|]]; simpl in H1; [|exact H1].
    destruct (unauthorized _ _ _); [exact H1|].
    destruct (findById _ group) as [[i c]|]; [|exact H1].
    pose proof (handleIncomingMessage_ownKeys r d (client_ws c) s1 H1) as H2.
    destruct (handleIncomingMessage r d (client_ws c) s1). exact H2.
  - unfold getSend. destruct (negb _); [exact H|].
    pose proof (getClients_ownKeys g s H) as H1.
    destruct (getClients g s) as [s1 [group|]]; simpl in H1; [|exact H1].
    destruct (unauthorized _ _ _); [exact H1|].
    destruct (findById _ group) as [[i c]|]; [|exact H1].
    destruct (prop _ "msg") as [m|]; [|exact H1].
    now apply handleIncomingMessage_ownKeys.
  - unfold getReceive. pose proof (getClients_ownKeys g s H) as H1.
    destruct (getClients g s) as [s1 [group|]]; simpl in H1; [|exact H1].
    destruct (unauthorized _ _ _); [exact H1|].
    destruct (largeMessages s1 !! _); exact H1.
Qed.

Lemma run_ownKeys tr : ∀ s, ownKeys s → ownKeys (run tr s).1.
Proof.
  induction tr as [|[r e] tr IH]; intros s H; simpl; [exact H|].
  pose proof (step_ownKeys r e s H) as H1.
  destruct (step r e s) as [s1 out].
  specialize (IH s1 H1). destruct (run tr s1) as [s2 outs]. exact IH.
Qed.

(** In a reachable state the lists are filed under names of their own. *)
Lemma reachable_ownKeys cfg s : reachable cfg s → ownKeys s.
Proof.
  intros [tr <-]. apply run_ownKeys. intros g [l Hl]. simpl in Hl.
  rewrite lookup_empty in Hl. discriminate.
Qed.

(** In a reachable state a name gives an array exactly when it is not
    inherited. *)
Lemma reachable_arrayAt cfg s g : reachable cfg s → arrayAt s g ↔ inherited g = false.
Proof.
  intros Hreach. split; [|now right].
  intros [Hown|Hi]; [|exact Hi]. now apply (reachable_ownKeys cfg s Hreach).
Qed.

(** For a group name that the registry does not inherit: a lookup of the
    group's list creates the list when the group has no entry; so does
    [GET /:dbname/clients], which needs no token and answers with the empty
    array.  No turn of the loop ever removes a group key. *)
Lemma getClients_inserts_group g s :
  inherited g = false →
  (clients s !! g = None →
     getClients g s = (setClients s (<[g := []]> (clients s)), Some []))
  ∧ dom (clients (getClients g s).1) = {[g]} ∪ dom (clients s)
  ∧ (clients s !! g = None →
     ∀ r, step r (GetClients g) s
          = (setClients (runTimers (now r) s) (<[g := []]> (clients s)), [RespondClients []]))
  ∧ (∀ r, g ∈ dom (clients (step r (GetClients g) s).1))
  ∧ (∀ r e, dom (clients s) ⊆ dom (clients (step r e s).1)).
Proof.
  intros Hg. split; [|split; [|split; [|split]]].
  - intros Hnone. unfold getClients. now rewrite Hnone, Hg.
  - now apply getClients_dom.
  - intros Hnone r. unfold step, handle, getClientsRoute, getClients. simpl.
    now rewrite Hnone, Hg.
  - intros r. unfold step, handle, getClientsRoute.
    destruct (getClients_dom g (runTimers (now r) s)) as [_ Hd]. specialize (Hd Hg).
    destruct (getClients g (runTimers (now r) s)) as [s1 [group|]]; simpl in *;
      set_solver.
  - intros r e. apply step_dom.
Qed.

(** C10. [GET /constructor/clients] on a fresh server: the registry has no
    entry under [constructor], and the lookup inserts none.
    [constructor in this.clients] holds because the plain object inherits
    the name, so [getClients] skips the insertion and hands back the
    inherited function; [clients.map] then raises and no answer is sent.
    The same holds in every state for every name of [Object.prototype]:
    the set of group keys does not grow with such a name. *)
Theorem inherited_group_is_not_inserted :
  clients (newServer sampleConfig) !! "constructor" = None
  ∧ getClients "constructor" (newServer sampleConfig) = (newServer sampleConfig, None)
  ∧ step sampleReading (GetClients "constructor") (newServer sampleConfig)
    = (newServer sampleConfig, [Thrown])
  ∧ ("constructor"
       ∉ dom (clients (step sampleReading (GetClients "constructor")
                         (newServer sampleConfig)).1))
  ∧ (∀ g s r,
       inherited g = true → clients s !! g = None →
       getClients g s = (s, None)
       ∧ step r (GetClients g) s = (runTimers (now r) s, [Thrown])
       ∧ (g ∉ dom (clients (step r (GetClients g) s).1))).
Proof.
  split; [reflexivity|]. split; [reflexivity|]. split; [reflexivity|].
  split; [vm_compute; set_solver|].
  intros g s r Hg Hnone.
  assert (Hget : getClients g (runTimers (now r) s) = (runTimers (now r) s, None)).
  { unfold getClients. simpl. now rewrite Hnone, Hg. }
  assert (Hstep : step r (GetClients g) s = (runTimers (now r) s, [Thrown])).
  { unfold step, handle, getClientsRoute. now rewrite Hget. }
  split; [unfold getClients; now rewrite Hnone, Hg|]. split; [exact Hstep|].
  rewrite Hstep. simpl. now apply not_elem_of_dom.
Qed.

End GroupKeys.

(** ** The router *)

Section Router.

Lemma handleIncomingMessage_eq r msg ws w s :
  sockets s !! ws = Some w → msg ≠ "ping" →
  handleIncomingMessage r msg ws s
  = ((spill r (splitRecipient msg).2 (getClients (ws_dbname w) s).1).1,
     dispatch (splitRecipient msg).1
       (spill r (splitRecipient msg).2 (getClients (ws_dbname w) s).1).2
       ws (getClients (ws_dbname w) s).2
       (spill r (splitRecipient msg).2 (getClients (ws_dbname w) s).1).1).
Proof.
  intros Hw Hping. unfold handleIncomingMessage. rewrite Hw.
  destruct (getClients (ws_dbname w) s) as [s1 group].
  apply String.eqb_neq in Hping. rewrite Hping.
  destruct (splitRecipient msg) as [to body]. cbn [fst snd].
  destruct (spill r body s1) as [s2 out]. reflexivity.
Qed.

Lemma spill_small r msg s :
  Z.of_nat (String.length msg) <= maxPayload (config s) → spill r msg s = (s, msg).
Proof.
  intros H. unfold spill.
  destruct (Z.of_nat (String.length msg) >? maxPayload (config s)) eqn:E; [|reflexivity].
  apply Z.gtb_lt in E. lia.
Qed.

Lemma spill_big r msg s :
  Z.of_nat (String.length msg) > maxPayload (config s) →
  let id := (generateID r s).2 in
  (spill r msg s).2 = "get:" ++ id
  ∧ largeMessages (spill r msg s).1 = <[id := msg]> (largeMessages s)
  ∧ timers (spill r msg s).1 = (timers s ++ [{| due := now r + 60000; slot := id |}])%list.
Proof.
  intros H id. unfold spill.
  destruct (Z.of_nat (String.length msg) >? maxPayload (config s)) eqn:E.
  - simpl. auto.
  - rewrite Z.gtb_ltb in E. apply Z.ltb_ge in E. lia.
Qed.

(** Whatever path the dispatch takes, the frame it puts on the wire is the
    outbound body, as it is. *)
Lemma forward_frame to msg ws group s h f :
  Deliver h f ∈ forward to msg ws group s → f = msg.
Proof.
  unfold forward. destruct (0 <? Z.of_nat (String.length to)).
  - intros Hin. apply list_elem_of_bind in Hin as (c & Hc & _).
    simpl in Hc. apply list_elem_of_singleton in Hc. now injection Hc.
  - destruct (list_find _ group) as [[i c]|].
    + unfold wsPublish. intros Hin.
      apply list_elem_of_fmap in Hin as (k & Hk & _). now injection Hk.
    + intros Hin. apply list_elem_of_singleton in Hin. discriminate.
Qed.

Lemma handleIncomingMessage_closed r msg ws s :
  sockets s !! ws = None → handleIncomingMessage r msg ws s = (s, [Thrown]).
Proof. intros H. unfold handleIncomingMessage. now rewrite H. Qed.

Lemma generateID_getClients r g s :
  (generateID r (getClients g s).1).2 = (generateID r s).2.
Proof.
  destruct (getClients_frame g s) as (_ & _ & Hq & _).
  unfold generateID. simpl. now rewrite Hq.
Qed.

End Router.

(** ** The large-message store *)

Section Store.

Lemma groupOf_getClients g g' s : groupOf (getClients g s).1 g' = groupOf s g'.
Proof.
  unfold groupOf.
  destruct (getClients_cases g s) as [(l & Hl & ->)|[(Hn & Hi & ->)|(Hn & Hi & ->)]];
    simpl; [reflexivity | | reflexivity].
  destruct (decide (g = g')) as [<-|Hne].
  - now rewrite lookup_insert_eq, Hn.
  - now rewrite lookup_insert_ne.
Qed.

(** The lookup gives the peers of the group, or no array at all: then the
    group has no peers, and the state stays. *)
Lemma getClients_groupOf g s :
  (getClients g s).2 = Some (groupOf s g)
  ∨ (getClients g s = (s, None) ∧ groupOf s g = [] ∧ inherited g = true).
Proof.
  unfold groupOf.
  destruct (getClients_cases g s) as [(l & Hl & ->)|[(Hn & Hi & ->)|(Hn & Hi & ->)]];
    simpl.
  - left. now rewrite Hl.
  - left. now rewrite Hn.
  - right. now rewrite Hn.
Qed.

Lemma getClients_arrayAt_groupOf g s :
  arrayAt s g → (getClients g s).2 = Some (groupOf s g).
Proof.
  intros Ha. destruct (getClients_groupOf g s) as [H|(H & _ & _)]; [exact H|].
  apply getClients_array in Ha as [l Hl]. rewrite H in Hl. discriminate.
Qed.

(** A group that has a peer is an array, and looking it up changes nothing. *)
Lemma getClients_member g s c :
  c ∈ groupOf s g → getClients g s = (s, Some (groupOf s g)).
Proof.
  unfold groupOf. intros Hc. destruct (clients s !! g) as [l|] eqn:Hl.
  - simpl. now apply getClients_own.
  - simpl in Hc. inversion Hc.
Qed.


Lemma foldl_delete_lookup (l : list Timer) : ∀ (m : gmap string string) id,
  foldl (fun m tm => delete (slot tm) m) m l !! id
  = if decide (id ∈ slot <$> l) then None else m !! id.
Proof.
  induction l as [|tm l IH]; intros m id.
  - rewrite decide_False; [reflexivity | intros H; inversion H].
  - change (foldl (fun m tm => delete (slot tm) m) (delete (slot tm) m) l !! id
            = if decide (id ∈ slot <$> tm :: l) then None else m !! id).
    rewrite IH, fmap_cons. destruct (decide (id ∈ slot <$> l)) as [Hin|Hnot].
    + rewrite decide_True; [reflexivity | now right].
    + destruct (decide (slot tm = id)) as [<-|Hne].
      * rewrite lookup_delete_eq. rewrite decide_True; [reflexivity | left].
      * rewrite lookup_delete_ne by done.
        rewrite decide_False; [reflexivity|].
        intros Hin. apply elem_of_cons in Hin as [->|Hin]; auto.
Qed.

(** The timer phase never brings a slot back. *)
Lemma runTimers_absent t s id :
  largeMessages s !! id = None → largeMessages (runTimers t s) !! id = None.
Proof.
  intros H. simpl. rewrite foldl_delete_lookup. now case_decide.
Qed.


(** A slot with a due timer is gone after the timer phase. *)
Lemma runTimers_expires t s tm :
  tm ∈ timers s → due tm <= t → largeMessages (runTimers t s) !! slot tm = None.
Proof.
  intros Hin Hdue. simpl. rewrite foldl_delete_lookup.
  rewrite decide_True; [reflexivity|].
  apply list_elem_of_fmap. exists tm. split; [reflexivity|].
  apply list_elem_of_filter. auto.
Qed.





End Store.

(** ** Directed frames *)

Section Directed.

Lemma indexOf_bound s c : -1 <= JS.indexOf s c.
Proof.
  induction s as [|a s IH]; simpl; [lia|].
  destruct (Ascii.eqb a c); [lia|]. destruct (JS.indexOf s c <? 0); lia.
Qed.

(** The first occurrence of the delimiter after a field that has none. *)
Lemma indexOf_first (a b : string) c :
  JS.indexOf a c = -1 → JS.indexOf (a ++ String c b) c = Z.of_nat (String.length a).
Proof.
  induction a as [|x a IH]; intros Ha.
  - rewrite append_nil_l. simpl. now rewrite Ascii.eqb_refl.
  - rewrite append_cons. simpl in *.
    destruct (Ascii.eqb x c); [discriminate|].
    pose proof (indexOf_bound a c) as Hb.
    destruct (JS.indexOf a c <? 0) eqn:E.
    + apply Z.ltb_lt in E. rewrite IH by lia.
      destruct (Z.of_nat (String.length a) <? 0) eqn:E'; [apply Z.ltb_lt in E'|]; lia.
    + apply Z.ltb_ge in E. lia.
Qed.

Lemma startsWith_to rest : JS.startsWith ("to:" ++ rest) "to:" = true.
Proof. unfold JS.startsWith. destruct rest; reflexivity. Qed.

(** The first [;] splits recipient from body; whatever follows it, further
    [;] included, is the body. *)
Lemma splitRecipient_direct recipient body :
  noSemicolon recipient →
  splitRecipient (directFrame recipient body) = (recipient, body).
Proof.
  intros Hno. unfold splitRecipient, directFrame.
  rewrite startsWith_to.
  assert (Hi : JS.indexOf ("to:" ++ recipient ++ ";" ++ body) ";"
               = 3 + Z.of_nat (String.length recipient)).
  { pose proof (indexOf_first recipient body ";" Hno) as Hf.
    change (recipient ++ ";" ++ body) with (recipient ++ String ";" body).
    change ("to:" ++ recipient ++ String ";" body)
      with (String "t" (String "o" (String ":" (recipient ++ String ";" body)))).
    cbn [JS.indexOf]. rewrite Hf.
    change (Ascii.eqb "t" ";") with false. change (Ascii.eqb "o" ";") with false.
    change (Ascii.eqb ":" ";") with false. cbv iota.
    repeat match goal with
           | |- context [?x <? 0] =>
               let E := fresh in destruct (x <? 0) eqn:E;
               [apply Z.ltb_lt in E; lia | apply Z.ltb_ge in E]
           end.
    lia. }
  rewrite Hi.
  assert (Hlen : Z.of_nat (String.length ("to:" ++ recipient ++ ";" ++ body))
                 = 4 + Z.of_nat (String.length recipient) + Z.of_nat (String.length body)).
  { rewrite !append_length. simpl. lia. }
  f_equal.
  - rewrite slice_inside by lia.
    change (JS.drop (Z.to_nat 3) ("to:" ++ recipient ++ ";" ++ body))
      with (recipient ++ ";" ++ body).
    replace (Z.to_nat (3 + Z.of_nat (String.length recipient) - 3))
      with (String.length recipient) by lia.
    apply take_app_length.
  - unfold JS.sliceFrom, JS.clampIndex. rewrite Hlen.
    destruct (3 + Z.of_nat (String.length recipient) + 1 <? 0) eqn:E;
      [apply Z.ltb_lt in E; lia|].
    rewrite Z.min_l by lia.
    replace (Z.to_nat (3 + Z.of_nat (String.length recipient) + 1))
      with (String.length ("to:" ++ recipient ++ ";")) by (rewrite !append_length; simpl; lia).
    rewrite <- (drop_app_length ("to:" ++ recipient ++ ";") body) at 2.
    now rewrite !append_assoc.
Qed.

Lemma bind_singleton {A B} (f : A → B) (l : list A) : l ≫= (fun x => [f x]) = f <$> l.
Proof. induction l as [|x l IH]; [reflexivity|]. now rewrite bind_cons, IH. Qed.

(** A named recipient: the members of the list with that id, the sender not
    excepted, each sent the outbound body as it is. *)
Lemma forward_named to msg ws group s :
  to ≠ "" → to ≠ "all" →
  forward to msg ws group s
  = (fun client => Deliver (client_ws client) msg)
      <$> filter (fun client => client_id client = to) group.
Proof.
  intros Hne Hall. unfold forward.
  destruct to as [|c to]; [contradiction|]. simpl (0 <? _).
  apply String.eqb_neq in Hall. rewrite Hall.
  apply (bind_singleton (fun client => Deliver (client_ws client) msg)).
Qed.

Lemma forward_all msg ws group s :
  forward "all" msg ws group s
  = (fun client => Deliver (client_ws client) msg)
      <$> filter (fun client => client_ws client ≠ ws) group.
Proof.
  unfold forward. simpl.
  apply (bind_singleton (fun client => Deliver (client_ws client) msg)).
Qed.

Lemma getClients_idem g s :
  getClients g (getClients g s).1 = getClients g s.
Proof.
  destruct (getClients_cases g s) as [(l & Hl & E)|[(Hn & Hi & E)|(Hn & Hi & E)]];
    rewrite E; simpl.
  - unfold getClients. now rewrite Hl.
  - unfold getClients at 1. simpl. now rewrite lookup_insert_eq.
  - exact E.
Qed.

(** A text frame on an open socket is handed to [handleIncomingMessage]. *)
Lemma messageHandler_open r h w msg s :
  sockets s !! h = Some w → arrayAt s (ws_dbname w) →
  messageHandler r h false msg s = handleIncomingMessage r msg h s.
Proof.
  intros Hw Ha. unfold messageHandler, handleIncomingMessage. rewrite Hw.
  pose proof (getClients_idem (ws_dbname w) s) as Hidem.
  destruct (getClients_frame (ws_dbname w) s) as (Hsock & _).
  apply getClients_array in Ha as [l Hl].
  destruct (getClients (ws_dbname w) s) as [s1 group]. simpl in *. subst group.
  now rewrite Hsock, Hw, Hidem.
Qed.

(** A socket whose group has no array: the lookup of the sender fails. *)
Lemma messageHandler_inherited r h w msg s :
  sockets s !! h = Some w → ¬ arrayAt s (ws_dbname w) →
  messageHandler r h false msg s = (s, [Thrown]).
Proof.
  intros Hw Ha. unfold messageHandler. rewrite Hw.
  destruct (getClients_groupOf (ws_dbname w) s) as [H|(H & _ & _)].
  - destruct Ha. apply getClients_array. eauto.
  - now rewrite H.
Qed.

Lemma step_message r h w msg s :
  sockets s !! h = Some w → arrayAt s (ws_dbname w) →
  step r (Message h false msg) s = handleIncomingMessage r msg h (runTimers (now r) s).
Proof. intros Hw Ha. apply (messageHandler_open r h w msg (runTimers (now r) s) Hw Ha). Qed.

(** What a text frame on an open socket puts on the wire. *)
Lemma step_message_out r h w msg s :
  sockets s !! h = Some w → arrayAt s (ws_dbname w) → msg ≠ "ping" →
  ∃ s1,
    (step r (Message h false msg) s).2
    = forward (splitRecipient msg).1 (spill r (splitRecipient msg).2 s1).2 h
        (groupOf s (ws_dbname w)) (spill r (splitRecipient msg).2 s1).1
    ∧ sockets (spill r (splitRecipient msg).2 s1).1 = sockets s.
Proof.
  intros Hw Ha Hping. rewrite (step_message r h w msg s Hw Ha).
  rewrite (handleIncomingMessage_eq r msg h w (runTimers (now r) s) Hw Hping). simpl snd.
  rewrite (getClients_arrayAt_groupOf (ws_dbname w) (runTimers (now r) s) Ha).
  exists (getClients (ws_dbname w) (runTimers (now r) s)).1. split; [reflexivity|].
  destruct (spill_frame r (splitRecipient msg).2
              (getClients (ws_dbname w) (runTimers (now r) s)).1) as (_ & -> & _).
  now destruct (getClients_frame (ws_dbname w) (runTimers (now r) s)) as (-> & _).
Qed.

(** No frame closes a socket or opens one. *)
Lemma message_keeps_sockets r h b msg s :
  sockets (step r (Message h b msg) s).1 = sockets s
  ∧ ∀ k, Closed k ∉ (step r (Message h b msg) s).2.
Proof.
  unfold step. simpl handle. unfold messageHandler.
  destruct b; [split; [reflexivity | intros k Hk; inversion Hk]|].
  change (sockets (runTimers (now r) s)) with (sockets s).
  destruct (sockets s !! h) as [w|] eqn:Hw;
    [|split; [reflexivity | intros k Hk; inversion Hk]].
  destruct (getClients_groupOf (ws_dbname w) (runTimers (now r) s)) as [Hg|(Hg & _ & _)];
    [|rewrite Hg; split; [reflexivity|];
      intros k Hk; apply list_elem_of_singleton in Hk; discriminate].
  assert (Ha : arrayAt (runTimers (now r) s) (ws_dbname w))
    by (apply getClients_array; eauto).
  pose proof (messageHandler_open r h w msg (runTimers (now r) s) Hw Ha) as Hm.
  unfold messageHandler in Hm.
  change (sockets (runTimers (now r) s)) with (sockets s) in Hm. rewrite Hw in Hm.
  rewrite Hm. clear Hm.
  destruct (String.eqb_spec msg "ping") as [->|Hping].
  - unfold handleIncomingMessage.
    change (sockets (runTimers (now r) s)) with (sockets s). rewrite Hw.
    destruct (getClients_frame (ws_dbname w) (runTimers (now r) s)) as (Hs & _).
    destruct (getClients _ _) as [s1 group]. simpl in *.
    split; [exact Hs|]. intros k Hk. apply list_elem_of_singleton in Hk. discriminate.
  - rewrite (handleIncomingMessage_eq r msg h w (runTimers (now r) s) Hw Hping). simpl. split.
    + destruct (spill_frame r (splitRecipient msg).2
                  (getClients (ws_dbname w) (runTimers (now r) s)).1) as (_ & -> & _).
      now destruct (getClients_frame (ws_dbname w) (runTimers (now r) s)) as (-> & _).
    + intros k Hk. rewrite Hg in Hk. unfold dispatch, forward in Hk.
      destruct (0 <? _).
      * apply list_elem_of_bind in Hk as (c & Hc & _).
        apply list_elem_of_singleton in Hc. discriminate.
      * destruct (list_find _ _) as [[i c]|].
        -- apply list_elem_of_fmap in Hk as (k' & Hk' & _). discriminate.
        -- apply list_elem_of_singleton in Hk. discriminate.
Qed.

Lemma directFrame_not_ping recipient body : directFrame recipient body ≠ "ping".
Proof. unfold directFrame. intros H. discriminate H. Qed.

Lemma spill_out r msg s :
  (spill r msg s).2 = msg ∨ ∃ slotId, (spill r msg s).2 = "get:" ++ slotId.
Proof.
  unfold spill. destruct (_ >? _); simpl; [right; eauto | left; reflexivity].
Qed.

(** A directed frame from an open socket reaches exactly the members of the
    sender's group whose id is the recipient; the frame is the outbound body
    with nothing in front of it. *)
Lemma direct_delivery r h w to body s :
  sockets s !! h = Some w → arrayAt s (ws_dbname w) →
  noSemicolon to → to ≠ "" → to ≠ "all" →
  ∃ out,
    (step r (Message h false (directFrame to body)) s).2
    = (fun client => Deliver (client_ws client) out)
        <$> filter (fun client => client_id client = to) (groupOf s (ws_dbname w))
    ∧ (Z.of_nat (String.length body) <= maxPayload (config s) → out = body).
Proof.
  intros Hw Ha Hno Hne Hall.
  assert (Hcfg : config (getClients (ws_dbname w) (runTimers (now r) s)).1 = config s).
  { now destruct (getClients_frame (ws_dbname w) (runTimers (now r) s))
      as (_ & _ & _ & _ & _ & ->). }
  rewrite (step_message r h w _ s Hw Ha).
  rewrite (handleIncomingMessage_eq r _ h w (runTimers (now r) s) Hw
             (directFrame_not_ping to body)).
  rewrite (splitRecipient_direct to body Hno). cbn [fst snd].
  rewrite (getClients_arrayAt_groupOf (ws_dbname w) (runTimers (now r) s) Ha).
  unfold dispatch. rewrite forward_named by assumption.
  change (groupOf (runTimers (now r) s) (ws_dbname w)) with (groupOf s (ws_dbname w)).
  eexists. split; [reflexivity|].
  intros Hle. rewrite spill_small; [reflexivity | now rewrite Hcfg].
Qed.

(** C9, amended.  A frame [to:<p.id>;<body>] that a connected peer [p]
    whose id holds no [;] sends is delivered to [p] itself: a named recipient is looked up among all members
    of the group.  The recipient [all] and the unprefixed broadcast never
    reach the sender. *)
Theorem named_recipient_includes_sender cfg s g l p r body :
  reachable cfg s →
  clients s !! g = Some l →
  p ∈ l →
  noSemicolon (client_id p) →
  (∃ out,
     Deliver (client_ws p) out
       ∈ (step r (Message (client_ws p) false (directFrame (client_id p) body)) s).2
     ∧ (out = body ∨ ∃ slotId, out = "get:" ++ slotId))
  ∧ (∀ f, Deliver (client_ws p) f
            ∉ (step r (Message (client_ws p) false (directFrame "all" body)) s).2)
  ∧ (∀ msg f, JS.startsWith msg "to:" = false → msg ≠ "ping" →
       Deliver (client_ws p) f ∉ (step r (Message (client_ws p) false msg) s).2).
Proof.
  intros Hreach Hl Hp Hno.
  pose proof (reachable_invariant cfg s Hreach) as Hinv.
  destruct (inv_registered s Hinv g l p Hl Hp) as (_ & w & Hw & Hg & _).
  pose proof (inv_id_length s Hinv g l p Hl Hp) as Hlen.
  assert (Hgroup : groupOf s (ws_dbname w) = l) by (unfold groupOf; now rewrite Hg, Hl).
  assert (Ha : arrayAt s (ws_dbname w)) by (left; rewrite Hg, Hl; eauto).
  split; [|split].
  - destruct (step_message_out r (client_ws p) w _ s Hw Ha
                (directFrame_not_ping (client_id p) body)) as (s1 & -> & _).
    rewrite (splitRecipient_direct _ body Hno). cbn [fst snd].
    rewrite forward_named.
    + exists (spill r body s1).2. split; [|apply spill_out].
      apply list_elem_of_fmap. exists p. split; [reflexivity|].
      apply list_elem_of_filter. rewrite Hgroup. auto.
    + intros E. rewrite E in Hlen. simpl in Hlen. lia.
    + intros E. rewrite E in Hlen. simpl in Hlen. lia.
  - intros f Hin.
    destruct (step_message_out r (client_ws p) w _ s Hw Ha
                (directFrame_not_ping "all" body)) as (s1 & Hout & _).
    rewrite Hout in Hin.
    rewrite (splitRecipient_direct "all" body eq_refl) in Hin. cbn [fst snd] in Hin.
    rewrite forward_all in Hin.
    apply list_elem_of_fmap in Hin as (c & Hc & Hcin).
    apply list_elem_of_filter in Hcin as [Hne _]. injection Hc as Hws _. congruence.
  - intros msg f Hpre Hping Hin.
    destruct (step_message_out r (client_ws p) w msg s Hw Ha Hping) as (s1 & Hout & _).
    rewrite Hout in Hin. unfold splitRecipient in Hin. rewrite Hpre in Hin.
    cbn [fst snd] in Hin. unfold forward in Hin. simpl (0 <? _) in Hin. cbv iota in Hin.
    destruct (list_find _ _) as [[i c]|].
    + unfold wsPublish in Hin. apply list_elem_of_fmap in Hin as (k & Hk & Hkin).
      apply list_elem_of_filter in Hkin as [Hne _]. injection Hk as Hws _. congruence.
    + apply list_elem_of_singleton in Hin. discriminate.
Qed.

(** The sample states are reachable. *)
Lemma twoPeers_reachable : reachable sampleConfig twoPeers.
Proof. eexists. reflexivity. Qed.

(** [client1] sends a note to itself. *)
Lemma named_recipient_includes_sender_witness :
  reachable sampleConfig twoPeers
  ∧ clients twoPeers !! "mydb" = Some [client1; client2]
  ∧ client1 ∈ [client1; client2]
  ∧ noSemicolon (client_id client1)
  ∧ (∃ out,
       Deliver (client_ws client1) out
         ∈ (step sampleReading
              (Message (client_ws client1) false (directFrame (client_id client1) "note"))
              twoPeers).2
       ∧ (out = "note" ∨ ∃ slotId, out = "get:" ++ slotId)).
Proof.
  assert (H1 : clients twoPeers !! "mydb" = Some [client1; client2])
    by (vm_compute; reflexivity).
  assert (H2 : client1 ∈ [client1; client2]) by left.
  assert (H3 : noSemicolon (client_id client1)) by reflexivity.
  split; [exact twoPeers_reachable|]. split; [exact H1|]. split; [exact H2|].
  split; [exact H3|].
  exact (proj1 (named_recipient_includes_sender sampleConfig twoPeers "mydb"
                  [client1; client2] client1 sampleReading "note"
                  twoPeers_reachable H1 H2 H3)).
Defined.

(** C1. Scenario 3 on the code: [client1] and [client2] are connected to
    [mydb] and [client1] sends [to:client2;hello].  The only frame delivered
    goes to [client2] and is [hello]; no frame [msg:hello] is delivered.
    [sendMessage] puts [msg:] only in front of values that are not strings,
    and [handleIncomingMessage] passes it a string. *)
Theorem direct_delivery_unprefixed :
  (step sampleReading (Message 0 false "to:client2;hello") twoPeers).2
  = [Deliver 1 "hello"]
  ∧ (Deliver 1 "msg:hello"
       ∉ (step sampleReading (Message 0 false "to:client2;hello") twoPeers).2)
  ∧ sendMessage client2 (MString "hello") = [Deliver 1 "hello"]
  ∧ sendMessage client2 (MValue "{}") = [Deliver 1 "msg:{}"].
Proof.
  assert (H : (step sampleReading (Message 0 false "to:client2;hello") twoPeers).2
              = [Deliver 1 "hello"]) by (vm_compute; reflexivity).
  split; [exact H|]. split; [|split; reflexivity].
  rewrite H. intros Hin. apply list_elem_of_singleton in Hin. discriminate.
Qed.

(** A frame that starts with [to:] and has no [;]: [indexOf] answers [-1],
    so the recipient is what follows [to:] less its last character, and the
    body is the whole frame. *)
Lemma splitRecipient_unterminated rest :
  JS.indexOf rest ";" = -1 →
  splitRecipient ("to:" ++ rest) = (JS.slice ("to:" ++ rest) 3 (-1), "to:" ++ rest).
Proof.
  intros Hno. unfold splitRecipient. rewrite startsWith_to.
  assert (Hi : JS.indexOf ("to:" ++ rest) ";" = -1).
  { change ("to:" ++ rest) with (String "t" (String "o" (String ":" rest))).
    cbn [JS.indexOf]. rewrite Hno. reflexivity. }
  rewrite Hi. f_equal.
Qed.

(** C7. A frame that starts with [to:] and holds no [;] is not dropped:
    [to:client2!] sent by [client1] is forwarded, whole, to [client2]. *)
Theorem unterminated_prefix_is_forwarded :
  splitRecipient "to:client2!" = ("client2", "to:client2!")
  ∧ (step sampleReading (Message 0 false "to:client2!") twoPeers).2
    = [Deliver 1 "to:client2!"].
Proof. split; vm_compute; reflexivity. Qed.

(** C9, as stated, fails for a peer whose id holds a [;]: the frame
    [to:ab;cde;note] names the recipient [ab], and the peer [ab;cde] that
    sends it gets nothing back. *)
Lemma recipient_with_semicolon_is_cut : ¬ selfDelivery sampleConfig.
Proof.
  intros H.
  assert (Hr : reachable sampleConfig semicolonPeer).
  { exists [(sampleReading, Connect "mydb" "id=ab;cde&v=1&t=s")]. vm_compute. reflexivity. }
  assert (Hl : clients semicolonPeer !! "mydb" = Some [peerAbCde]) by (vm_compute; reflexivity).
  destruct (H semicolonPeer "mydb" [peerAbCde] peerAbCde sampleReading "note" Hr Hl)
    as [out Hout]; [left|].
  assert (Hnone : (step sampleReading
                     (Message (client_ws peerAbCde) false
                        (directFrame (client_id peerAbCde) "note")) semicolonPeer).2 = [])
    by (vm_compute; reflexivity).
  rewrite Hnone in Hout. inversion Hout.
Qed.

End Directed.

(** ** One peer per group and id *)

Section UniqueIds.

(** An accepted upgrade request whose id is taken: the incumbent's socket is
    closed and its entry removed, then the challenger is admitted. *)
Lemma upgrade_evicts r g q s l i c :
  invariant s →
  checkEnvironment (config s) (parseQuery q) = None →
  clients s !! g = Some l → l !! i = Some c →
  prop (parseQuery q) "id" = Some (client_id c) →
  ∃ s' disconnects after,
    upgrade r g q s
    = (s', (Closed (client_ws c) :: disconnects ++ Upgraded (nextSocket s) :: after)%list)
    ∧ Forall (fun e => ∃ k, e = Deliver k ("disconnect:" ++ client_id c)) disconnects
    ∧ sockets s' !! client_ws c = None
    ∧ clients s' !! g
      = Some (delete i l ++ [newClient r g (client_id c) (nextSocket s)])%list.
Proof.
  intros Hinv Hck Hl Hi Hid.
  assert (Hc : c ∈ l) by (eapply list_elem_of_lookup_2; eauto).
  pose proof (upgrade_admitted r g q s (client_id c) l Hinv Hck Hid) as Hup.
  assert (Hg : getClients g s = (s, Some l)) by (now apply getClients_own).
  rewrite Hg in Hup. simpl in Hup. specialize (Hup eq_refl).
  destruct (list_find_elem_of (fun client => client_id client = client_id c) l c Hc eq_refl)
    as [[i' c'] Hf].
  rewrite Hf in Hup. apply list_find_Some in Hf as (Hi' & Hid' & _).
  assert (i' = i) as ->.
  { apply (NoDup_lookup (client_id <$> l) i' i (client_id c)).
    - apply (inv_unique s Hinv g l Hl).
    - now rewrite list_lookup_fmap, Hi', <- Hid'.
    - now rewrite list_lookup_fmap, Hi. }
  rewrite Hi in Hi'. injection Hi' as <-.
  rewrite Hup. clear Hup.
  pose proof (socketClosed_invariant (client_ws c) s Hinv) as Hinv2.
  rewrite (socketClosed_registered s g l i c Hinv Hl Hi) in *. cbn [fst snd] in *.
  set (s2 := setClients (setSockets s (delete (client_ws c) (sockets s)) (nextSocket s))
               (<[g:=delete i l]> (clients s))) in *.
  assert (Ha2 : arrayAt s2 g) by (left; subst s2; simpl; rewrite lookup_insert_eq; eauto).
  destruct (resUpgrade_spec r g (client_id c) s2 Hinv2 Ha2)
    as (s' & connects & -> & _ & Hcl & Hsame & _).
  cbn [fst snd]. eexists _, _, _. split; [reflexivity|]. split; [|split].
  - unfold appPublish. apply Forall_fmap, Forall_forall. intros k _. simpl. eauto.
  - specialize (Hsame (client_ws c)).
    destruct (inv_registered s Hinv g l c Hl Hc) as (_ & w & Hw & _).
    pose proof (inv_fresh s Hinv _ _ Hw) as Hlt.
    rewrite lookup_insert_ne in Hsame by (simpl; lia).
    simpl in Hsame. rewrite lookup_delete_eq in Hsame. now inversion Hsame.
  - rewrite Hcl, lookup_insert_eq. simpl. now rewrite lookup_insert_eq.
Qed.

(** C3. In every reachable state the registry holds at most one peer for a
    group name and an id.  When a challenger with an id already present is
    admitted, the incumbent's socket is closed (and the incumbent removed)
    first; the effects show [Closed] ahead of [Upgraded]. *)
Theorem unique_id_per_group cfg s :
  reachable cfg s →
  (∀ g1 g2 l1 l2 i j c1 c2,
     clients s !! g1 = Some l1 → clients s !! g2 = Some l2 →
     l1 !! i = Some c1 → l2 !! j = Some c2 →
     client_dbname c1 = client_dbname c2 → client_id c1 = client_id c2 →
     g1 = g2 ∧ i = j)
  ∧ (∀ r g q l i c,
       checkEnvironment (config s) (parseQuery q) = None →
       clients s !! g = Some l → l !! i = Some c →
       prop (parseQuery q) "id" = Some (client_id c) →
       ∃ s' disconnects after,
         step r (Connect g q) s
         = (s', (Closed (client_ws c) :: disconnects
                 ++ Upgraded (nextSocket s) :: after)%list)
         ∧ Forall (fun e => ∃ k, e = Deliver k ("disconnect:" ++ client_id c)) disconnects
         ∧ sockets s' !! client_ws c = None
         ∧ clients s' !! g
           = Some (delete i l ++ [newClient r g (client_id c) (nextSocket s)])%list).
Proof.
  intros Hreach. pose proof (reachable_invariant cfg s Hreach) as Hinv. split.
  - intros g1 g2 l1 l2 i j c1 c2 Hl1 Hl2 Hi Hj Hdb Hid.
    destruct (inv_registered s Hinv g1 l1 c1 Hl1) as (Hd1 & _).
    { eapply list_elem_of_lookup_2; eauto. }
    destruct (inv_registered s Hinv g2 l2 c2 Hl2) as (Hd2 & _).
    { eapply list_elem_of_lookup_2; eauto. }
    assert (g1 = g2) as <- by congruence. split; [reflexivity|].
    rewrite Hl1 in Hl2. injection Hl2 as <-.
    apply (NoDup_lookup (client_id <$> l1) i j (client_id c1)).
    + apply (inv_unique s Hinv g1 l1 Hl1).
    + now rewrite list_lookup_fmap, Hi.
    + rewrite list_lookup_fmap, Hj. simpl. congruence.
  - intros r g q l i c Hck Hl Hi Hid.
    apply (upgrade_evicts r g q (runTimers (now r) s) l i c); auto.
    now apply runTimers_invariant.
Qed.

(** A second [client1] joins [mydb]: the first one is closed and replaced. *)
Lemma unique_id_per_group_witness :
  reachable sampleConfig twoPeers
  ∧ ∃ s' disconnects after,
      step sampleReading (Connect "mydb" "id=client1&v=1.0.0&t=s") twoPeers
      = (s', (Closed (client_ws client1) :: disconnects
              ++ Upgraded (nextSocket twoPeers) :: after)%list)
      ∧ Forall (fun e => ∃ k, e = Deliver k ("disconnect:" ++ client_id client1)) disconnects
      ∧ sockets s' !! client_ws client1 = None
      ∧ clients s' !! "mydb"
        = Some (delete 0%nat [client1; client2]
                ++ [newClient sampleReading "mydb" (client_id client1)
                      (nextSocket twoPeers)])%list.
Proof.
  split; [exact twoPeers_reachable|].
  apply (proj2 (unique_id_per_group sampleConfig twoPeers twoPeers_reachable)
           sampleReading "mydb" "id=client1&v=1.0.0&t=s" [client1; client2] 0%nat client1);
    vm_compute; reflexivity.
Defined.

End UniqueIds.

(** ** Groups and frames *)

Section Isolation.

Lemma noDash_cons c rest : noDash (String c rest) → c ≠ "-"%char ∧ noDash rest.
Proof.
  unfold noDash. simpl. destruct (Ascii.eqb_spec c "-") as [->|Hne]; [discriminate|].
  pose proof (indexOf_bound rest "-") as Hb. destruct (JS.indexOf rest "-" <? 0) eqn:E.
  - apply Z.ltb_lt in E. intros _. split; [exact Hne | lia].
  - apply Z.ltb_ge in E. intros Hx. lia.
Qed.

(** Channel names tell the groups apart when the group names hold no [-]. *)
Lemma dash_split (a b x y : string) :
  noDash a → noDash b → a ++ "-" ++ x = b ++ "-" ++ y → a = b.
Proof.
  revert b. induction a as [|c a IH]; intros [|d b] Ha Hb Heq.
  - reflexivity.
  - apply noDash_cons in Hb as [Hd _]. rewrite append_cons in Heq.
    injection Heq as Hc _. congruence.
  - apply noDash_cons in Ha as [Hc _]. rewrite append_cons in Heq.
    injection Heq as Hd _. congruence.
  - apply noDash_cons in Ha as [_ Ha]. apply noDash_cons in Hb as [_ Hb].
    rewrite !append_cons in Heq. injection Heq as -> Heq.
    f_equal. now apply IH.
Qed.

Lemma topicOf_group g g' i j :
  noDash g → noDash g' → topicOf g i = topicOf g' j → g = g'.
Proof.
  intros Hg Hg' Heq. unfold topicOf in Heq.
  apply (String.app_inj "from-") in Heq. eapply dash_split; eauto.
Qed.

Lemma topicOf_not_all g i : topicOf g i ≠ "all".
Proof. unfold topicOf. intros H. discriminate H. Qed.


(** Group names without [-] that differ have their channel names apart. *)
Lemma noDash_channelsApart A B : noDash A → noDash B → A ≠ B → channelsApart A B.
Proof. intros HA HB Hne i j Heq. apply Hne. eapply topicOf_group; eauto. Qed.



Lemma twoGroups_reachable : reachable sampleConfig twoGroups.
Proof.
  exists [(sampleReading, Connect "mydb" "id=client1&v=1.0.0&t=s");
          (sampleReading, Connect "mydb" "id=client2&v=1.0.0&t=s");
          (sampleReading, Connect "other" "id=clientX&v=1.0.0&t=s")].
  vm_compute. reflexivity.
Qed.





(** The [disconnect:] broadcast crosses groups in the same way. *)
Example disconnect_crosses_groups :
  (step sampleReading (Disconnect 2) twoGroups).2
  = [Deliver 1 "disconnect:clientX"; Deliver 0 "disconnect:clientX"].
Proof. vm_compute. reflexivity. Qed.

(** With a [-] in a group name two channel names can coincide: the channel
    of [peer2] in group [a-b] is the channel of [b-peer2] in group [a], and
    the broadcast of the former reaches [peer1] in group [a]. *)
Example channel_names_collide :
  topicOf "a-b" "peer2" = topicOf "a" "b-peer2"
  ∧ ws_dbname <$> sockets clashingNames !! 0%nat = Some "a"
  ∧ ws_dbname <$> sockets clashingNames !! 2%nat = Some "a-b"
  ∧ (step sampleReading (Message 2 false "announce") clashingNames).2
    = [Deliver 0 "announce"].
Proof. repeat split; vm_compute; reflexivity. Qed.

(** The store is not divided by group: the body that [clientX] of group
    [other] posts, too long to be forwarded, is parked, and a peer of group
    [mydb] that asks for its id is answered with it. *)
Example parked_body_crosses_groups :
  (step sampleReading (PostSend "other" "id=clientX&t=s" longBody) twoGroups).2
  = [Respond None "ok"]
  ∧ (step laterReading (GetReceive "mydb" receiveQuery)
       (step sampleReading (PostSend "other" "id=clientX&t=s" longBody) twoGroups).1).2
    = [Respond None longBody].
Proof. split; vm_compute; reflexivity. Qed.

End Isolation.

(** ** The scenarios of the protocol, run on the model *)

Section Scenarios.

(** Handshake: the first frame on the new socket is the welcome. *)
Example handshake_welcome :
  (step sampleReading (Connect "mydb" "id=client1&v=1.0.0&t=s") (newServer sampleConfig)).2
  = [Upgraded 0; Deliver 0 ("welcome:{" ++ dquote ++ "maxPayload" ++ dquote ++ ":50}")].
Proof. vm_compute. reflexivity. Qed.

(** Handshake rejected for the version. *)
Example handshake_version :
  (step sampleReading (Connect "mydb" "id=client1&v=2.0.0&t=s") (newServer sampleConfig)).2
  = [Respond (Some ("409 Unsupported client IPC version " ++ dquote ++ "2.0.0" ++ dquote
                    ++ ". Update acebase-ipc-server package"))
             ("409 Unsupported client IPC version " ++ dquote ++ "2.0.0" ++ dquote
              ++ ". Update acebase-ipc-server package")].
Proof. vm_compute. reflexivity. Qed.

(** Broadcast: the others receive the frame as it is, the sender nothing. *)
Example broadcast_announce :
  (step sampleReading (Message 0 false "announce") threePeers).2
  = [Deliver 2 "announce"; Deliver 1 "announce"].
Proof. vm_compute. reflexivity. Qed.

(** [to:all]: the same recipients, one [sendMessage] each. *)
Example to_all_announce :
  (step sampleReading (Message 0 false "to:all;announce") threePeers).2
  = [Deliver 1 "announce"; Deliver 2 "announce"].
Proof. vm_compute. reflexivity. Qed.

(** Spill: the recipient is sent the download instruction. *)
Example spill_reference :
  (step sampleReading (Message 0 false ("to:client2;" ++ longBody)) twoPeers).2
  = [Deliver 1 "get:loyw3v2800000001000009ix"].
Proof. vm_compute. reflexivity. Qed.

(** Duplicate id: the incumbent is closed, then the newcomer is welcomed. *)
Example duplicate_id_eviction :
  (step sampleReading (Connect "mydb" "id=client1&v=1.0.0&t=s") twoPeers).2
  = [Closed 0; Deliver 1 "disconnect:client1"; Upgraded 2;
     Deliver 2 ("welcome:{" ++ dquote ++ "maxPayload" ++ dquote ++ ":50}");
     Deliver 1 "connect:client1"].
Proof. vm_compute. reflexivity. Qed.

(** A second close event for a socket that is gone publishes nothing. *)
Example disconnect_twice :
  (step sampleReading (Disconnect 0) twoPeers).2 = [Deliver 1 "disconnect:client1"]
  ∧ (step sampleReading (Disconnect 0) (step sampleReading (Disconnect 0) twoPeers).1).2 = [].
Proof. split; vm_compute; reflexivity. Qed.

(** Liveness probe. *)
Example ping_pong :
  (step sampleReading (Message 0 false "ping") twoPeers).2 = [Deliver 0 "pong"].
Proof. vm_compute. reflexivity. Qed.

End Scenarios.

(** * Further properties of the server *)

(** ** Subscriptions only grow *)

Section Wiring.

Lemma subscribe_grows h t s k w :
  sockets s !! k = Some w →
  ∃ w', sockets (subscribe h t s) !! k = Some w'
        ∧ ws_topics w ⊆ ws_topics w' ∧ (k = h → t ∈ ws_topics w').
Proof.
  intros Hw. simpl. destruct (decide (h = k)) as [<-|Hne].
  - rewrite lookup_alter_eq, Hw. simpl. eexists. split; [reflexivity|].
    simpl. split; [set_solver | intros _; set_solver].
  - rewrite lookup_alter_ne by done. exists w. split; [exact Hw|].
    split; [set_solver | congruence].
Qed.

Lemma subscribe_back h t s k w' :
  sockets (subscribe h t s) !! k = Some w' →
  ∃ w, sockets s !! k = Some w ∧ ∀ x, x ∈ ws_topics w' → x ∈ ws_topics w ∨ x = t.
Proof.
  simpl. intros Hw'. apply lookup_alter_Some in Hw' as [(<- & w & Hw & ->)|[Hne Hw]].
  - exists w. split; [exact Hw|]. simpl. intros x Hx. set_solver.
  - exists w'. split; [exact Hw | auto].
Qed.

Lemma crossSubscribe_grows h g id s c k w :
  sockets s !! k = Some w →
  ∃ w', sockets (crossSubscribe h g id s c) !! k = Some w'
        ∧ ws_topics w ⊆ ws_topics w'
        ∧ (k = h → topicOf g (client_id c) ∈ ws_topics w')
        ∧ (k = client_ws c → topicOf g id ∈ ws_topics w').
Proof.
  intros Hw. unfold crossSubscribe.
  destruct (subscribe_grows h (topicOf g (client_id c)) s k w Hw) as (w1 & Hw1 & Hsub1 & Hh).
  destruct (subscribe_grows (client_ws c) (topicOf g id) _ k w1 Hw1) as (w2 & Hw2 & Hsub2 & Hc).
  exists w2. split; [exact Hw2|]. split; [set_solver|]. split; [|exact Hc].
  intros Hk. specialize (Hh Hk). set_solver.
Qed.

Lemma crossSubscribe_back h g id s c k w' :
  sockets (crossSubscribe h g id s c) !! k = Some w' →
  ∃ w, sockets s !! k = Some w
       ∧ ∀ x, x ∈ ws_topics w' → x ∈ ws_topics w ∨ ∃ i, x = topicOf g i.
Proof.
  unfold crossSubscribe. intros Hw'.
  apply subscribe_back in Hw' as (w1 & Hw1 & H1).
  apply subscribe_back in Hw1 as (w & Hw & H0).
  exists w. split; [exact Hw|]. intros x Hx.
  destruct (H1 x Hx) as [Hx1| ->]; [|eauto].
  destruct (H0 x Hx1) as [Hx0| ->]; eauto.
Qed.

(** The [forEach] of the [open] handler: the newcomer [h] gets the channel
    of every member, every member gets the newcomer's, nobody loses a topic,
    and nothing but channels of the group is added. *)
Lemma foldl_crossSubscribe_topics h g id l : ∀ s,
  (∀ k w, sockets s !! k = Some w →
     ∃ w', sockets (foldl (crossSubscribe h g id) s l) !! k = Some w'
           ∧ ws_topics w ⊆ ws_topics w'
           ∧ (k = h → ∀ c, c ∈ l → topicOf g (client_id c) ∈ ws_topics w')
           ∧ ((∃ c, c ∈ l ∧ client_ws c = k) → topicOf g id ∈ ws_topics w'))
  ∧ (∀ k w', sockets (foldl (crossSubscribe h g id) s l) !! k = Some w' →
       ∃ w, sockets s !! k = Some w
            ∧ ∀ x, x ∈ ws_topics w' → x ∈ ws_topics w ∨ ∃ i, x = topicOf g i).
Proof.
  induction l as [|c l IH]; intros s.
  - split.
    + intros k w Hw. exists w. split; [exact Hw|]. split; [set_solver|].
      split; [intros _ c Hc; inversion Hc | intros (c & Hc & _); inversion Hc].
    + intros k w' Hw'. exists w'. split; [exact Hw' | auto].
  - destruct (IH (crossSubscribe h g id s c)) as [Hfwd Hback]. split.
    + intros k w Hw.
      destruct (crossSubscribe_grows h g id s c k w Hw) as (w1 & Hw1 & Hs1 & Hh1 & Hc1).
      destruct (Hfwd k w1 Hw1) as (w2 & Hw2 & Hs2 & Hh2 & Hc2).
      exists w2. split; [exact Hw2|]. split; [set_solver|]. split.
      * intros Hk c' Hc'. apply elem_of_cons in Hc' as [->|Hc'].
        -- specialize (Hh1 Hk). set_solver.
        -- exact (Hh2 Hk c' Hc').
      * intros (c' & Hc' & Hws). apply elem_of_cons in Hc' as [->|Hc'].
        -- specialize (Hc1 (eq_sym Hws)). set_solver.
        -- apply Hc2. eauto.
    + intros k w' Hw'. simpl in Hw'.
      destruct (Hback k w' Hw') as (w1 & Hw1 & H1).
      destruct (crossSubscribe_back h g id s c k w1 Hw1) as (w & Hw & H0).
      exists w. split; [exact Hw|]. intros x Hx.
      destruct (H1 x Hx) as [Hx1|?]; [|auto]. exact (H0 x Hx1).
Qed.

End Wiring.

(** ** Registry and topic tree stay wired together *)

Section Wired.

Lemma groupOf_elem s g c :
  c ∈ groupOf s g ↔ ∃ l, clients s !! g = Some l ∧ c ∈ l.
Proof.
  unfold groupOf. destruct (clients s !! g) as [l|]; simpl.
  - split; [eauto | intros (l' & [= <-] & Hc); exact Hc].
  - split; [intros Hc; inversion Hc | intros (l' & [=] & _)].
Qed.

Lemma groupOf_insert s s' g l g' :
  clients s' = <[g := l]> (clients s) →
  groupOf s' g' = if decide (g = g') then l else groupOf s g'.
Proof.
  intros Hcl. unfold groupOf. rewrite Hcl. destruct (decide (g = g')) as [<-|Hne].
  - now rewrite lookup_insert_eq.
  - now rewrite lookup_insert_ne.
Qed.

Lemma elem_of_delete_ne {A} (l : list A) i x y :
  l !! i = Some x → y ∈ l → y ≠ x → y ∈ delete i l.
Proof.
  intros Hi Hy Hne. apply list_elem_of_lookup in Hy as [j Hj].
  assert (j ≠ i) by (intros ->; congruence).
  destruct (decide (j < i)%nat) as [Hlt|Hge].
  - apply (list_elem_of_lookup_2 _ j). rewrite list_lookup_delete.
    now rewrite decide_True by exact Hlt.
  - apply (list_elem_of_lookup_2 _ (pred j)). rewrite list_lookup_delete.
    rewrite decide_False by lia. replace (S (pred j)) with j by lia. exact Hj.
Qed.

Lemma elem_of_appPublish k f topic frame s :
  Deliver k f ∈ appPublish topic frame s
  ↔ f = frame ∧ ∃ w, sockets s !! k = Some w ∧ topic ∈ ws_topics w.
Proof.
  unfold appPublish, subscribers. rewrite list_elem_of_fmap. split.
  - intros (k' & [= -> ->] & Hk). split; [reflexivity|].
    apply list_elem_of_fmap in Hk as ([k w] & -> & Hkw).
    apply list_elem_of_filter in Hkw as [Ht Hkw]. apply elem_of_map_to_list in Hkw.
    exists w. auto.
  - intros (-> & w & Hw & Ht). exists k. split; [reflexivity|].
    apply list_elem_of_fmap. exists (k, w). split; [reflexivity|].
    apply list_elem_of_filter. split; [exact Ht | now apply elem_of_map_to_list].
Qed.

Lemma elem_of_wsPublish k f ws topic frame s :
  Deliver k f ∈ wsPublish ws topic frame s
  ↔ f = frame ∧ k ≠ ws ∧ ∃ w, sockets s !! k = Some w ∧ topic ∈ ws_topics w.
Proof.
  unfold wsPublish, subscribers. rewrite list_elem_of_fmap. split.
  - intros (k' & [= -> ->] & Hk). split; [reflexivity|].
    apply list_elem_of_filter in Hk as [Hne Hk]. split; [exact Hne|].
    apply list_elem_of_fmap in Hk as ([k w] & -> & Hkw).
    apply list_elem_of_filter in Hkw as [Ht Hkw]. apply elem_of_map_to_list in Hkw.
    exists w. auto.
  - intros (-> & Hne & w & Hw & Ht). exists k. split; [reflexivity|].
    apply list_elem_of_filter. split; [exact Hne|].
    apply list_elem_of_fmap. exists (k, w). split; [reflexivity|].
    apply list_elem_of_filter. split; [exact Ht | now apply elem_of_map_to_list].
Qed.

Lemma socketClosed_arrayAt h s g : arrayAt s g → arrayAt (socketClosed h s).1 g.
Proof.
  intros [Hown|Hi]; [left | now right].
  apply elem_of_dom. apply (socketClosed_dom h s). now apply elem_of_dom.
Qed.

Lemma wired_new cfg : wired (newServer cfg).
Proof.
  constructor; simpl.
  - intros h w Hw. rewrite lookup_empty in Hw. discriminate.
  - intros h w Hw. rewrite lookup_empty in Hw. discriminate.
  - intros g c1 c2 w1 Hc1. unfold groupOf in Hc1. simpl in Hc1.
    rewrite lookup_empty in Hc1. inversion Hc1.
Qed.

Lemma wired_ext s s' :
  sockets s' = sockets s → (∀ g, groupOf s' g = groupOf s g) → wired s → wired s'.
Proof.
  intros Hs Hg [H1 H2 H3]. constructor.
  - intros h w Hw. rewrite Hg. apply H1. now rewrite <- Hs.
  - intros h w Hw. apply (H2 h). now rewrite <- Hs.
  - intros g c1 c2 w1. rewrite Hg, Hs. apply H3.
Qed.

(** A closed socket leaves the registry with its client: the others stay
    wired as they were. *)
Lemma socketClosed_wired h s : invariant s → wired s → wired (socketClosed h s).1.
Proof.
  intros Hinv Hwd.
  destruct (sockets s !! h) as [w|] eqn:Hw;
    [|unfold socketClosed; rewrite Hw; exact Hwd].
  destruct (wired_registered s Hwd h w Hw) as (c & Hc & <-).
  apply groupOf_elem in Hc as (l & Hl & Hc).
  pose proof Hc as Hc'. apply list_elem_of_lookup in Hc' as [i Hi].
  rewrite (socketClosed_registered s _ l i c Hinv Hl Hi). simpl.
  set (s' := setClients _ _).
  assert (Hg : ∀ g', groupOf s' g'
            = if decide (ws_dbname w = g') then delete i l else groupOf s g')
    by (intros g'; apply groupOf_insert; reflexivity).
  assert (Hsub : ∀ g' c', c' ∈ groupOf s' g' → c' ∈ groupOf s g').
  { intros g' c'. rewrite Hg. destruct (decide (ws_dbname w = g')) as [<-|]; [|auto].
    intros Hd. apply groupOf_elem. exists l. split; [exact Hl|].
    eapply list_elem_of_delete_inv, Hd. }
  constructor.
  - intros k wk Hk. simpl in Hk. apply lookup_delete_Some in Hk as [Hne Hk].
    destruct (wired_registered s Hwd k wk Hk) as (c' & Hc' & Hws). exists c'.
    split; [|exact Hws]. rewrite Hg.
    destruct (decide (ws_dbname w = ws_dbname wk)) as [Heq|]; [|exact Hc'].
    apply groupOf_elem in Hc' as (l' & Hl' & Hc'). rewrite <- Heq, Hl in Hl'.
    injection Hl' as <-. apply (elem_of_delete_ne l i c c' Hi Hc'). congruence.
  - intros k wk Hk. simpl in Hk. apply lookup_delete_Some in Hk as [Hne Hk].
    apply (wired_all s Hwd k wk Hk).
  - intros g' c1 c2 w1 H1 H2 Hne Hk. simpl in Hk.
    apply lookup_delete_Some in Hk as [_ Hk].
    apply (wired_cross s Hwd g' c1 c2 w1); auto.
Qed.

End Wired.

(** ** Admission wires the newcomer to its group *)

Section Admission.

Lemma foldl_crossSubscribe_config h g id l : ∀ s,
  config (foldl (crossSubscribe h g id) s l) = config s.
Proof. induction l as [|c l IH]; intros s; simpl; [reflexivity | now rewrite IH]. Qed.

(** The topic tree after [res.upgrade] and the [open] handler, and who is
    sent what: the newcomer the welcome frame, every socket that was open
    before the [connect:] notice. *)
Lemma resUpgrade_topics r g id s :
  invariant s → arrayAt s g →
  let h := nextSocket s in
  let s' := (resUpgrade r g id s).1 in
  (∀ k w, sockets s !! k = Some w →
     ∃ w', sockets s' !! k = Some w' ∧ ws_topics w ⊆ ws_topics w'
           ∧ ((∃ c, c ∈ groupOf s g ∧ client_ws c = k) → topicOf g id ∈ ws_topics w'))
  ∧ (∃ wh, sockets s' !! h = Some wh ∧ "all" ∈ ws_topics wh
           ∧ ∀ c, c ∈ groupOf s g → topicOf g (client_id c) ∈ ws_topics wh)
  ∧ (∀ k f, Deliver k f ∈ (resUpgrade r g id s).2 ↔
       (k = h ∧ f = "welcome:" ++ welcomeJson (maxPayload (config s)))
       ∨ (f = "connect:" ++ id ∧ ∃ w, sockets s !! k = Some w ∧ "all" ∈ ws_topics w)).
Proof.
  intros Hinv Ha h. unfold resUpgrade, openHandler. fold h. fold (newSocket g id).
  set (s0 := setSockets s (<[h:=newSocket g id]> (sockets s)) (S h)).
  assert (Hh : sockets s0 !! h = Some (newSocket g id)) by apply lookup_insert_eq.
  assert (Hfresh : ∀ k w, sockets s !! k = Some w → k ≠ h).
  { intros k w Hw. pose proof (inv_fresh s Hinv _ _ Hw). subst h. lia. }
  rewrite Hh. simpl ws_dbname. simpl ws_env_id.
  assert (Hgrp : (getClients g s0).2 = Some (groupOf s g))
    by (apply (getClients_arrayAt_groupOf g s0); exact Ha).
  destruct (getClients_frame g s0) as (Hs1 & _ & _ & _ & _ & Hc1).
  destruct (getClients g s0) as [s1 group0]. simpl in Hgrp, Hs1, Hc1. subst group0.
  destruct (foldl_crossSubscribe_topics h g id (groupOf s g) s1) as [Hfwd Hback].
  pose proof (foldl_crossSubscribe_config h g id (groupOf s g) s1) as Hc2.
  set (s2 := foldl (crossSubscribe h g id) s1 (groupOf s g)) in *.
  set (s3 := setClients s2 _).
  assert (Hs3 : sockets s3 = sockets s2) by reflexivity.
  assert (Hold : ∀ k w, sockets s !! k = Some w →
            ∃ w2, sockets s3 !! k = Some w2 ∧ ws_topics w ⊆ ws_topics w2
                  ∧ ((∃ c, c ∈ groupOf s g ∧ client_ws c = k)
                     → topicOf g id ∈ ws_topics w2)).
  { intros k w Hw.
    destruct (Hfwd k w) as (w2 & Hw2 & Hsub & _ & Hmem).
    { rewrite Hs1. simpl. rewrite lookup_insert_ne; [exact Hw|].
      intros ->. now apply (Hfresh _ _ Hw). }
    exists w2. rewrite Hs3. auto. }
  simpl fst. simpl snd. split; [|split].
  - intros k w Hw. destruct (Hold k w Hw) as (w2 & Hw2 & Hsub & Hmem).
    destruct (subscribe_grows h "all" s3 k w2 Hw2) as (w3 & Hw3 & Hsub3 & _).
    exists w3. split; [exact Hw3|]. split; [set_solver|].
    intros Hc. specialize (Hmem Hc). set_solver.
  - destruct (Hfwd h (newSocket g id)) as (w2 & Hw2 & _ & Hmine & _).
    { now rewrite Hs1. }
    destruct (subscribe_grows h "all" s3 h w2 Hw2) as (w3 & Hw3 & Hsub3 & Hall).
    exists w3. split; [exact Hw3|]. split; [auto|].
    intros c Hc. specialize (Hmine eq_refl c Hc). set_solver.
  - intros k f. simpl config. rewrite Hc2, Hc1. simpl config.
    rewrite elem_of_cons, elem_of_cons, elem_of_appPublish. simpl client_id.
    split.
    + intros [Habs|[[= -> ->]|(-> & w2 & Hw2 & Hall)]]; [discriminate | left; auto|].
      right. split; [reflexivity|].
      destruct (Hback k w2 Hw2) as (w1 & Hw1 & Hfrom).
      destruct (Hfrom "all" Hall) as [Hin|[i Hi]];
        [|symmetry in Hi; now apply topicOf_not_all in Hi].
      rewrite Hs1 in Hw1. simpl in Hw1.
      apply lookup_insert_Some in Hw1 as [[_ <-]|[_ Hw1]]; [|eauto].
      simpl in Hin. set_solver.
    + intros [[-> ->]|(-> & w & Hw & Hall)]; [right; left; reflexivity|].
      right. right. split; [reflexivity|].
      destruct (Hold k w Hw) as (w2 & Hw2 & Hsub & _). exists w2. split; [exact Hw2|].
      set_solver.
Qed.

Lemma resUpgrade_wired r g id s :
  invariant s → arrayAt s g → wired s → wired (resUpgrade r g id s).1.
Proof.
  intros Hinv Ha Hwd.
  destruct (resUpgrade_topics r g id s Hinv Ha) as (Hold & (wh & Hwh & Hall & Hmine) & _).
  destruct (resUpgrade_spec r g id s Hinv Ha)
    as (s' & connects & Heq & _ & Hcl & Hsame & _).
  rewrite Heq in Hold, Hwh |- *. simpl in Hold, Hwh |- *. clear Heq.
  set (h := nextSocket s) in *.
  assert (Hg : ∀ g', groupOf s' g'
            = if decide (g = g') then (groupOf s g ++ [newClient r g id h])%list
              else groupOf s g')
    by (intros g'; apply (groupOf_insert s); exact Hcl).
  assert (Hfresh : ∀ k w, sockets s !! k = Some w → k ≠ h).
  { intros k w Hw. pose proof (inv_fresh s Hinv _ _ Hw). subst h. lia. }
  assert (Hopen : ∀ g' c, c ∈ groupOf s g' →
            ∃ w, sockets s !! client_ws c = Some w).
  { intros g' c Hc. apply groupOf_elem in Hc as (l & Hl & Hc).
    destruct (inv_registered s Hinv g' l c Hl Hc) as (_ & w & Hw & _). eauto. }
  assert (Hkeep : ∀ g' c, c ∈ groupOf s g' → c ∈ groupOf s' g').
  { intros g' c Hc. rewrite Hg. destruct (decide (g = g')) as [<-|]; [|exact Hc].
    apply elem_of_app. now left. }
  constructor.
  - intros k w' Hw'.
    destruct (same_sockets_lookup _ _ _ _ Hsame Hw') as (w & Hw & Hdb & _).
    apply lookup_insert_Some in Hw as [[<- <-]|[Hne Hw]].
    + exists (newClient r g id h). split; [|reflexivity].
      rewrite Hdb, Hg. simpl. rewrite decide_True by reflexivity.
      apply elem_of_app. right. apply list_elem_of_singleton. reflexivity.
    + destruct (wired_registered s Hwd k w Hw) as (c & Hc & Hws).
      exists c. split; [|exact Hws]. rewrite Hdb. now apply Hkeep.
  - intros k w' Hw'.
    destruct (same_sockets_lookup _ _ _ _ Hsame Hw') as (w & Hw & _).
    apply lookup_insert_Some in Hw as [[<- <-]|[Hne Hw]].
    + rewrite Hwh in Hw'. now injection Hw' as <-.
    + destruct (Hold k w Hw) as (w2 & Hw2 & Hsub & _).
      rewrite Hw2 in Hw'. injection Hw' as <-.
      pose proof (wired_all s Hwd k w Hw). set_solver.
  - intros g' c1 c2 w1 H1 H2 Hne Hw1. rewrite Hg in H1, H2.
    destruct (decide (g = g')) as [<-|Hgne].
    + apply elem_of_app in H1 as [H1|H1]; apply elem_of_app in H2 as [H2|H2].
      * destruct (Hopen g c1 H1) as (w & Hw).
        destruct (Hold _ w Hw) as (w2 & Hw2 & Hsub & _).
        rewrite Hw2 in Hw1. injection Hw1 as <-.
        pose proof (wired_cross s Hwd g c1 c2 w H1 H2 Hne Hw). set_solver.
      * apply list_elem_of_singleton in H2 as ->. simpl.
        destruct (Hopen g c1 H1) as (w & Hw).
        destruct (Hold _ w Hw) as (w2 & Hw2 & _ & Hmem).
        rewrite Hw2 in Hw1. injection Hw1 as <-. apply Hmem. eauto.
      * apply list_elem_of_singleton in H1 as ->. simpl in Hw1.
        rewrite Hwh in Hw1. injection Hw1 as <-. now apply Hmine.
      * apply list_elem_of_singleton in H1 as ->.
        apply list_elem_of_singleton in H2 as ->. now elim Hne.
    + destruct (Hopen g' c1 H1) as (w & Hw).
      destruct (Hold _ w Hw) as (w2 & Hw2 & Hsub & _).
      rewrite Hw2 in Hw1. injection Hw1 as <-.
      pose proof (wired_cross s Hwd g' c1 c2 w H1 H2 Hne Hw). set_solver.
Qed.

Lemma getClients_wired g s : wired s → wired (getClients g s).1.
Proof.
  apply wired_ext; [apply getClients_frame | intros g'; apply groupOf_getClients].
Qed.

Lemma upgrade_wired r g q s : invariant s → wired s → wired (upgrade r g q s).1.
Proof.
  intros Hinv Hwd.
  destruct (checkEnvironment (config s) (parseQuery q)) as [err|] eqn:Hck.
  { unfold upgrade. now rewrite Hck. }
  destruct (checkEnvironment_None _ _ Hck) as (id & Hid & Hlen).
  destruct (getClients g s).2 as [group|] eqn:Hgroup;
    [|now rewrite (upgrade_inherited r g q s Hck Hgroup)].
  pose proof (upgrade_admitted r g q s id group Hinv Hck Hid Hgroup) as Hup.
  pose proof (getClients_invariant g s Hinv) as H1.
  pose proof (getClients_wired g s Hwd) as W1.
  pose proof (getClients_arrayAt g s group Hgroup) as Harr.
  destruct (getClients g s) as [s1 group']. simpl in *.
  destruct (list_find _ group) as [[i c]|] eqn:Hf; rewrite Hup; clear Hup; simpl.
  - apply resUpgrade_wired;
      [now apply socketClosed_invariant | now apply socketClosed_arrayAt
      | now apply socketClosed_wired].
  - now apply resUpgrade_wired.
Qed.

(** The handlers of frames and of the HTTP routes leave the socket table,
    the member lists and the configuration as they are. *)
Lemma handleIncomingMessage_registry r msg ws s :
  sockets (handleIncomingMessage r msg ws s).1 = sockets s
  ∧ (∀ g, groupOf (handleIncomingMessage r msg ws s).1 g = groupOf s g)
  ∧ config (handleIncomingMessage r msg ws s).1 = config s.
Proof.
  unfold handleIncomingMessage. destruct (sockets s !! ws) as [w|]; [|auto].
  pose proof (groupOf_getClients (ws_dbname w)) as Hg. specialize Hg with (s := s).
  destruct (getClients_frame (ws_dbname w) s) as (Hs & _ & _ & _ & _ & Hc).
  destruct (getClients (ws_dbname w) s) as [s1 group]. simpl in Hg, Hs, Hc.
  destruct (String.eqb msg "ping"); [auto|].
  destruct (splitRecipient msg) as [to body].
  destruct (spill_frame r body s1) as (Hcl & Hs2 & _ & Hc2).
  destruct (spill r body s1) as [s2 out]. simpl in *.
  split; [congruence|]. split; [|congruence].
  intros g. unfold groupOf in *. rewrite Hcl. apply Hg.
Qed.

Lemma handle_registry r e s :
  match e with
  | Connect _ _ | Disconnect _ => True
  | _ => sockets (handle r e s).1 = sockets s
         ∧ (∀ g, groupOf (handle r e s).1 g = groupOf s g)
         ∧ config (handle r e s).1 = config s
  end.
Proof.
  assert (Hvia : ∀ g m h,
    sockets (handleIncomingMessage r m h (getClients g s).1).1 = sockets s
    ∧ (∀ g', groupOf (handleIncomingMessage r m h (getClients g s).1).1 g' = groupOf s g')
    ∧ config (handleIncomingMessage r m h (getClients g s).1).1 = config s).
  { intros g m h.
    destruct (handleIncomingMessage_registry r m h (getClients g s).1) as (-> & Hg & ->).
    destruct (getClients_frame g s) as (-> & _ & _ & _ & _ & ->).
    split; [reflexivity|]. split; [|reflexivity].
    intros g'. rewrite Hg. apply groupOf_getClients. }
  assert (Hget : ∀ g, sockets (getClients g s).1 = sockets s
    ∧ (∀ g', groupOf (getClients g s).1 g' = groupOf s g')
    ∧ config (getClients g s).1 = config s).
  { intros g. destruct (getClients_frame g s) as (-> & _ & _ & _ & _ & ->).
    split; [reflexivity|]. split; [|reflexivity]. intros g'. apply groupOf_getClients. }
  destruct e as [g q|h|h b d|g|g q d|g q|g q]; simpl; auto.
  - unfold messageHandler. destruct b; [auto|].
    destruct (sockets s !! h) as [w|]; [|auto].
    specialize (Hvia (ws_dbname w) d h). specialize (Hget (ws_dbname w)).
    destruct (getClients (ws_dbname w) s) as [s1 [group|]]; [exact Hvia | exact Hget].
  - unfold getClientsRoute. specialize (Hget g).
    destruct (getClients g s) as [s1 [group|]]; exact Hget.
  - unfold postSend. specialize (Hget g). pose proof (Hvia g d) as Hv.
    destruct (getClients g s) as [s1 [group|]]; [|exact Hget]. simpl in Hget, Hv.
    destruct (unauthorized _ _ _); [exact Hget|].
    destruct (findById _ group) as [[i c]|]; [|exact Hget].
    specialize (Hv (client_ws c)).
    destruct (handleIncomingMessage r d (client_ws c) s1). exact Hv.
  - unfold getSend. destruct (negb _); [auto|].
    specialize (Hget g). pose proof (Hvia g) as Hv.
    destruct (getClients g s) as [s1 [group|]]; [|exact Hget]. simpl in Hget, Hv.
    destruct (unauthorized _ _ _); [exact Hget|].
    destruct (findById _ group) as [[i c]|]; [|exact Hget].
    destruct (prop _ "msg") as [m|]; [|exact Hget]. apply Hv.
  - unfold getReceive. specialize (Hget g).
    destruct (getClients g s) as [s1 [group|]]; [|exact Hget]. simpl in Hget.
    destruct (unauthorized _ _ _); [exact Hget|].
    destruct (largeMessages s1 !! _); exact Hget.
Qed.

Lemma handle_wired r e s : invariant s → wired s → wired (handle r e s).1.
Proof.
  intros Hinv Hwd. pose proof (handle_registry r e s) as Hreg.
  destruct e as [g q|h|h b d|g|g q d|g q|g q];
    try (destruct Hreg as (Hs & Hg & _); now apply (wired_ext s)).
  - now apply upgrade_wired.
  - now apply socketClosed_wired.
Qed.

Lemma step_wired r e s : invariant s → wired s → wired (step r e s).1.
Proof.
  intros Hinv Hwd. apply handle_wired; [now apply runTimers_invariant|].
  destruct (runTimers_frame (now r) s) as (Hcl & Hs & _).
  apply (wired_ext s); [exact Hs | | exact Hwd].
  intros g. unfold groupOf. now rewrite Hcl.
Qed.

Lemma run_wired tr : ∀ s, invariant s → wired s → wired (run tr s).1.
Proof.
  induction tr as [|[r e] tr IH]; intros s Hinv Hwd; simpl; [exact Hwd|].
  pose proof (step_invariant r e s Hinv) as H1.
  pose proof (step_wired r e s Hinv Hwd) as W1.
  destruct (step r e s) as [s1 out].
  specialize (IH s1 H1 W1). destruct (run tr s1) as [s2 outs]. exact IH.
Qed.

Lemma reachable_wired cfg s : reachable cfg s → wired s.
Proof. intros [tr <-]. apply run_wired; [apply invariant_new | apply wired_new]. Qed.

End Admission.

(** ** Who a broadcast reaches *)

Section Broadcast.

(** The outbound body depends on the configuration and the sequence
    counter only. *)
Lemma spill_out_eq r msg s1 s :
  config s1 = config s → _idSequence s1 = _idSequence s →
  (spill r msg s1).2 = (spill r msg s).2.
Proof.
  intros Hc Hq. unfold spill, generateID. rewrite Hc, Hq.
  destruct (_ >? _); reflexivity.
Qed.

(** A frame of a registered peer, as [handleIncomingMessage] dispatches it
    after the timer phase. *)
Lemma step_message_registered cfg s g p r msg :
  reachable cfg s → p ∈ groupOf s g → msg ≠ "ping" →
  ∃ s2,
    (step r (Message (client_ws p) false msg) s).2
    = forward (splitRecipient msg).1 (spill r (splitRecipient msg).2 s).2
        (client_ws p) (groupOf s g) s2
    ∧ sockets s2 = sockets s.
Proof.
  intros Hreach Hp Hping.
  pose proof (reachable_invariant cfg s Hreach) as Hinv.
  apply groupOf_elem in Hp as (l & Hl & Hp).
  destruct (inv_registered s Hinv g l p Hl Hp) as (_ & w & Hw & Hg & _).
  destruct (runTimers_frame (now r) s) as (Hcl0 & Hs0 & _ & Hq0 & Hc0).
  set (s0 := runTimers (now r) s) in *.
  assert (Hw0 : sockets s0 !! client_ws p = Some w) by now rewrite Hs0.
  assert (Ha : arrayAt s (ws_dbname w)) by (left; rewrite Hg, Hl; eauto).
  rewrite (step_message r _ w msg s Hw Ha). fold s0.
  rewrite (handleIncomingMessage_eq r msg _ w s0 Hw0 Hping). cbn [fst snd].
  destruct (getClients_frame (ws_dbname w) s0) as (Hs1 & _ & Hq1 & _ & _ & Hc1).
  rewrite (getClients_arrayAt_groupOf (ws_dbname w) s0 Ha). unfold dispatch.
  set (s1 := (getClients (ws_dbname w) s0).1) in *.
  destruct (spill_frame r (splitRecipient msg).2 s1) as (_ & Hs2 & _).
  exists (spill r (splitRecipient msg).2 s1).1. split.
  - rewrite (spill_out_eq r _ s1 s) by congruence.
    rewrite Hg. unfold groupOf. now rewrite Hcl0.
  - congruence.
Qed.

(** An unprefixed frame is published on the sender's channel: the frame
    goes to the sockets, other than the sender's, that listen to it. *)
Lemma broadcast_effects cfg s g p r msg :
  reachable cfg s → p ∈ groupOf s g →
  JS.startsWith msg "to:" = false → msg ≠ "ping" →
  ∃ s2,
    (step r (Message (client_ws p) false msg) s).2
    = wsPublish (client_ws p) (topicOf g (client_id p)) (spill r msg s).2 s2
    ∧ sockets s2 = sockets s.
Proof.
  intros Hreach Hp Hpre Hping.
  pose proof (reachable_invariant cfg s Hreach) as Hinv.
  destruct (step_message_registered cfg s g p r msg Hreach Hp Hping) as (s2 & -> & Hs2).
  exists s2. split; [|exact Hs2].
  unfold splitRecipient. rewrite Hpre. cbn [fst snd]. unfold forward.
  simpl (0 <? _). cbv iota.
  apply groupOf_elem in Hp as (l & Hl & Hp).
  assert (Hgl : groupOf s g = l) by (unfold groupOf; now rewrite Hl).
  rewrite Hgl.
  destruct (list_find_elem_of (fun client => client_ws client = client_ws p) l p Hp eq_refl)
    as [[i c] Hf].
  rewrite Hf. apply list_find_Some in Hf as (Hi & Hws & _).
  apply list_elem_of_lookup in Hp as [j Hj].
  assert (i = j) as -> by (eapply (same_socket_same_index s g l i j c p); eauto).
  rewrite Hj in Hi. injection Hi as <-.
  destruct (inv_registered s Hinv g l p Hl) as (-> & _); [|reflexivity].
  eapply list_elem_of_lookup_2; eauto.
Qed.

(** The recipient [all]: the frame goes to the other members of the list. *)
Lemma to_all_effects cfg s g p r body :
  reachable cfg s → p ∈ groupOf s g →
  (step r (Message (client_ws p) false (directFrame "all" body)) s).2
  = (fun client => Deliver (client_ws client) (spill r body s).2)
      <$> filter (fun client => client_ws client ≠ client_ws p) (groupOf s g).
Proof.
  intros Hreach Hp.
  destruct (step_message_registered cfg s g p r _ Hreach Hp (directFrame_not_ping "all" body))
    as (s2 & -> & _).
  rewrite (splitRecipient_direct "all" body eq_refl). cbn [fst snd].
  apply forward_all.
Qed.

(** Every other member of the group listens to the sender's channel. *)
Lemma channel_heard_by_members cfg s s2 g p c frame :
  reachable cfg s → sockets s2 = sockets s →
  p ∈ groupOf s g → c ∈ groupOf s g → client_ws c ≠ client_ws p →
  Deliver (client_ws c) frame
    ∈ wsPublish (client_ws p) (topicOf g (client_id p)) frame s2.
Proof.
  intros Hreach Hs2 Hp Hc Hne.
  pose proof (reachable_invariant cfg s Hreach) as Hinv.
  pose proof (reachable_wired cfg s Hreach) as Hwd.
  apply elem_of_wsPublish. split; [reflexivity|]. split; [exact Hne|].
  pose proof Hc as Hc'. apply groupOf_elem in Hc' as (l & Hl & Hcl).
  destruct (inv_registered s Hinv g l c Hl Hcl) as (_ & w & Hw & _).
  exists w. rewrite Hs2. split; [exact Hw|].
  apply (wired_cross s Hwd g c p w Hc Hp Hne Hw).
Qed.

(** Without [-] in the group names, only members of the group listen to it. *)
Lemma channel_heard_by_members_only cfg s s2 g p h f frame :
  reachable cfg s → sockets s2 = sockets s → p ∈ groupOf s g →
  (∀ k wk, sockets s !! k = Some wk → noDash (ws_dbname wk)) →
  Deliver h f ∈ wsPublish (client_ws p) (topicOf g (client_id p)) frame s2 →
  f = frame ∧ h ≠ client_ws p ∧ ∃ c, c ∈ groupOf s g ∧ client_ws c = h.
Proof.
  intros Hreach Hs2 Hp Hdash Hin.
  pose proof (reachable_invariant cfg s Hreach) as Hinv.
  pose proof (reachable_wired cfg s Hreach) as Hwd.
  apply elem_of_wsPublish in Hin as (-> & Hne & w & Hw & Ht).
  split; [reflexivity|]. split; [exact Hne|].
  rewrite Hs2 in Hw.
  destruct (inv_topics s Hinv h w _ Hw Ht) as [Hall|[i Hi]];
    [now apply topicOf_not_all in Hall|].
  apply groupOf_elem in Hp as (l & Hl & Hp).
  destruct (inv_registered s Hinv g l p Hl Hp) as (_ & wp & Hwp & Hg & _).
  assert (g = ws_dbname w) as ->.
  { subst g. apply (topicOf_group _ _ _ _ (Hdash _ _ Hwp) (Hdash _ _ Hw) Hi). }
  apply (wired_registered s Hwd h w Hw).
Qed.

(** No open socket of the sample state belongs to a group with a [-]. *)
Lemma twoPeers_noDash k wk : sockets twoPeers !! k = Some wk → noDash (ws_dbname wk).
Proof.
  intros Hk. apply elem_of_map_to_list in Hk.
  assert (Hall : Forall (fun kw => noDash (ws_dbname kw.2)) (map_to_list (sockets twoPeers))).
  { assert (Hl : ∃ l, map_to_list (sockets twoPeers) = l
                      ∧ forallb (fun kw => JS.indexOf (ws_dbname kw.2) "-" =? -1) l = true).
    { eexists. split; [reflexivity|]. vm_compute. reflexivity. }
    destruct Hl as (l & -> & Hl). apply Forall_forall. intros kw Hkw.
    apply list_elem_of_In in Hkw.
    rewrite forallb_forall in Hl. specialize (Hl kw Hkw). now apply Z.eqb_eq in Hl. }
  rewrite Forall_forall in Hall. exact (Hall (k, wk) Hk).
Qed.

(** X1. Broadcast reach.  An unprefixed text frame (not [ping]) that a
    registered peer sends is delivered to every other member of its group,
    never to the sender, and nothing but that one outbound body is
    delivered.  When no open socket belongs to a group whose name holds a
    [-], the recipients are members of the sender's group. *)
Theorem broadcast_reaches_group cfg s g p r msg :
  reachable cfg s → p ∈ groupOf s g →
  JS.startsWith msg "to:" = false → msg ≠ "ping" →
  let out := (spill r msg s).2 in
  let effects := (step r (Message (client_ws p) false msg) s).2 in
  (∀ c, c ∈ groupOf s g → client_ws c ≠ client_ws p → Deliver (client_ws c) out ∈ effects)
  ∧ (∀ e, e ∈ effects → ∃ h, e = Deliver h out ∧ h ≠ client_ws p)
  ∧ ((∀ k wk, sockets s !! k = Some wk → noDash (ws_dbname wk)) →
     ∀ h f, Deliver h f ∈ effects → ∃ c, c ∈ groupOf s g ∧ client_ws c = h).
Proof.
  intros Hreach Hp Hpre Hping out effects.
  destruct (broadcast_effects cfg s g p r msg Hreach Hp Hpre Hping) as (s2 & Heff & Hs2).
  subst effects. rewrite Heff. fold out. clear Heff.
  split; [|split].
  - intros c Hc Hne. now apply (channel_heard_by_members cfg s).
  - intros e He. unfold wsPublish in He.
    apply list_elem_of_fmap in He as (h & -> & Hh).
    apply list_elem_of_filter in Hh as [Hne _]. eauto.
  - intros Hdash h f Hin.
    now destruct (channel_heard_by_members_only cfg s s2 g p h f out Hreach Hs2 Hp Hdash Hin)
      as (_ & _ & Hc).
Qed.

(** [client1] broadcasts [hello] in the group of the two sample peers. *)
Lemma broadcast_reaches_group_witness :
  reachable sampleConfig twoPeers
  ∧ client1 ∈ groupOf twoPeers "mydb"
  ∧ JS.startsWith "hello" "to:" = false
  ∧ "hello" ≠ "ping"
  ∧ (∀ c, c ∈ groupOf twoPeers "mydb" → client_ws c ≠ client_ws client1 →
       Deliver (client_ws c) (spill sampleReading "hello" twoPeers).2
         ∈ (step sampleReading (Message (client_ws client1) false "hello") twoPeers).2).
Proof.
  assert (H1 : client1 ∈ groupOf twoPeers "mydb") by (vm_compute; left).
  assert (H2 : JS.startsWith "hello" "to:" = false) by reflexivity.
  assert (H3 : "hello" ≠ "ping") by discriminate.
  split; [exact twoPeers_reachable|]. split; [exact H1|]. split; [exact H2|].
  split; [exact H3|].
  exact (proj1 (broadcast_reaches_group sampleConfig twoPeers "mydb" client1 sampleReading
                  "hello" twoPeers_reachable H1 H2 H3)).
Defined.

(** X2. The recipient [all] and the bare broadcast.  When no open socket
    belongs to a group whose name holds a [-], a registered peer's frame
    [to:all;<body>] and its unprefixed frame [<body>] deliver the same
    frame to the same sockets (for a body that is neither [ping] nor
    starts with [to:]). *)
Theorem to_all_is_broadcast cfg s g p r body :
  reachable cfg s → p ∈ groupOf s g →
  (∀ k wk, sockets s !! k = Some wk → noDash (ws_dbname wk)) →
  JS.startsWith body "to:" = false → body ≠ "ping" →
  ∀ h f,
    Deliver h f ∈ (step r (Message (client_ws p) false (directFrame "all" body)) s).2
    ↔ Deliver h f ∈ (step r (Message (client_ws p) false body) s).2.
Proof.
  intros Hreach Hp Hdash Hpre Hping h f.
  destruct (broadcast_effects cfg s g p r body Hreach Hp Hpre Hping) as (s2 & -> & Hs2).
  rewrite (to_all_effects cfg s g p r body Hreach Hp). split.
  - intros Hin. apply list_elem_of_fmap in Hin as (c & [= -> ->] & Hc).
    apply list_elem_of_filter in Hc as [Hne Hc].
    now apply (channel_heard_by_members cfg s).
  - intros Hin.
    destruct (channel_heard_by_members_only cfg s s2 g p h f _ Hreach Hs2 Hp Hdash Hin)
      as (-> & Hne & c & Hc & <-).
    apply list_elem_of_fmap. exists c. split; [reflexivity|].
    apply list_elem_of_filter. split; [exact Hne | exact Hc].
Qed.

(** [client1] sends [hello] to [all] and as a broadcast. *)
Lemma to_all_is_broadcast_witness :
  reachable sampleConfig twoPeers
  ∧ client1 ∈ groupOf twoPeers "mydb"
  ∧ (∀ k wk, sockets twoPeers !! k = Some wk → noDash (ws_dbname wk))
  ∧ JS.startsWith "hello" "to:" = false
  ∧ "hello" ≠ "ping"
  ∧ ∀ h f,
      Deliver h f ∈ (step sampleReading
                       (Message (client_ws client1) false (directFrame "all" "hello"))
                       twoPeers).2
      ↔ Deliver h f ∈ (step sampleReading (Message (client_ws client1) false "hello")
                         twoPeers).2.
Proof.
  assert (H1 : client1 ∈ groupOf twoPeers "mydb") by (vm_compute; left).
  assert (H2 : JS.startsWith "hello" "to:" = false) by reflexivity.
  assert (H3 : "hello" ≠ "ping") by discriminate.
  split; [exact twoPeers_reachable|]. split; [exact H1|].
  split; [exact twoPeers_noDash|]. split; [exact H2|]. split; [exact H3|].
  exact (to_all_is_broadcast sampleConfig twoPeers "mydb" client1 sampleReading "hello"
           twoPeers_reachable H1 twoPeers_noDash H2 H3).
Defined.

End Broadcast.

(** ** The connect and disconnect notices *)

Section Notices.

Lemma filter_all {A} (P : A → Prop) `{∀ x, Decision (P x)} (l : list A) :
  (∀ x, x ∈ l → P x) → filter P l = l.
Proof.
  induction l as [|a l IH]; intros Hall; [reflexivity|].
  rewrite filter_cons_True by (apply Hall; left).
  f_equal. apply IH. intros x Hx. apply Hall. now right.
Qed.

Lemma filter_ext_in {A} (P Q : A → Prop) `{∀ x, Decision (P x)} `{∀ x, Decision (Q x)}
    (l : list A) :
  (∀ x, x ∈ l → P x ↔ Q x) → filter P l = filter Q l.
Proof.
  induction l as [|a l IH]; intros Hall; [reflexivity|].
  assert (IH' : filter P l = filter Q l) by (apply IH; intros x Hx; apply Hall; now right).
  destruct (decide (P a)) as [Hp|Hp].
  - rewrite filter_cons_True by exact Hp.
    rewrite filter_cons_True by (apply Hall; [left|exact Hp]). now f_equal.
  - rewrite filter_cons_False by exact Hp.
    rewrite filter_cons_False; [exact IH'|]. intros Hq. apply Hp, Hall; [left|exact Hq].
Qed.

(** [splice(index, 1)] on the one entry that fails a test is the filter. *)
Lemma delete_filter {A} (P : A → Prop) `{∀ x, Decision (P x)} (l : list A) : ∀ i x,
  l !! i = Some x → ¬ P x → (∀ j y, l !! j = Some y → j ≠ i → P y) →
  delete i l = filter P l.
Proof.
  induction l as [|a l IH]; intros i x Hi Hx Hrest; [discriminate|].
  destruct i as [|i]; simpl in Hi.
  - injection Hi as ->. rewrite filter_cons_False by exact Hx. simpl.
    symmetry. apply filter_all. intros y Hy.
    apply list_elem_of_lookup in Hy as [j Hj]. apply (Hrest (S j) y Hj). lia.
  - rewrite filter_cons_True by (apply (Hrest 0%nat a eq_refl); lia).
    simpl. f_equal. apply (IH i x Hi Hx). intros j y Hj Hne.
    apply (Hrest (S j) y Hj). lia.
Qed.

Lemma groupOf_runTimers t s g : groupOf (runTimers t s) g = groupOf s g.
Proof. reflexivity. Qed.

Lemma runTimers_wired t s : wired s → wired (runTimers t s).
Proof.
  apply wired_ext; [apply runTimers_frame | intros g; apply groupOf_runTimers].
Qed.

(** A socket is open exactly when a client with that socket is registered. *)
Lemma open_registered s k :
  invariant s → wired s →
  is_Some (sockets s !! k) ↔ ∃ g c, c ∈ groupOf s g ∧ client_ws c = k.
Proof.
  intros Hinv Hwd. split.
  - intros [w Hw]. destruct (wired_registered s Hwd k w Hw) as (c & Hc & Hws). eauto.
  - intros (g & c & Hc & <-). apply groupOf_elem in Hc as (l & Hl & Hc).
    destruct (inv_registered s Hinv g l c Hl Hc) as (_ & w & Hw & _). eauto.
Qed.

(** Closing the socket of a registered client, in full: its entry is the only
    one removed, and every socket that stays open is told. *)
Lemma socketClosed_result s g c :
  invariant s → wired s → c ∈ groupOf s g →
  let s' := (socketClosed (client_ws c) s).1 in
  sockets s' = delete (client_ws c) (sockets s)
  ∧ (∀ g', groupOf s' g' = filter (fun c' => client_ws c' ≠ client_ws c) (groupOf s g'))
  ∧ (∀ e, e ∈ (socketClosed (client_ws c) s).2 ↔
       ∃ k, e = Deliver k ("disconnect:" ++ client_id c)
            ∧ k ≠ client_ws c ∧ is_Some (sockets s !! k))
  ∧ nextSocket s' = nextSocket s ∧ config s' = config s
  ∧ largeMessages s' = largeMessages s ∧ timers s' = timers s.
Proof.
  intros Hinv Hwd Hc.
  apply groupOf_elem in Hc as (l & Hl & Hc).
  pose proof Hc as Hc'. apply list_elem_of_lookup in Hc' as [i Hi].
  destruct (inv_registered s Hinv g l c Hl Hc) as (_ & w & Hw & Hg & _).
  rewrite (socketClosed_registered s g l i c Hinv Hl Hi). cbn [fst snd].
  set (s' := setClients _ _).
  split; [reflexivity|]. split; [|split; [|repeat split]].
  - intros g'. rewrite (groupOf_insert s s' g (delete i l) g' eq_refl).
    destruct (decide (g = g')) as [<-|Hne].
    + unfold groupOf. rewrite Hl. simpl.
      apply (delete_filter _ l i c Hi); [auto|].
      intros j y Hj Hji Hws. apply Hji.
      apply (same_socket_same_index s g l j i y c Hinv Hl Hj Hi Hws).
    + symmetry. apply filter_all. intros c' Hc' Hws.
      apply groupOf_elem in Hc' as (l' & Hl' & Hc').
      destruct (inv_registered s Hinv g' l' c' Hl' Hc') as (_ & w' & Hw' & Hg' & _).
      rewrite Hws, Hw in Hw'. injection Hw' as <-. congruence.
  - intros e. split.
    + intros He. unfold appPublish in He. apply list_elem_of_fmap in He as (k & -> & Hk).
      assert (Hin : Deliver k ("disconnect:" ++ client_id c)
                      ∈ appPublish "all" ("disconnect:" ++ client_id c) s').
      { unfold appPublish. apply list_elem_of_fmap. eauto. }
      apply elem_of_appPublish in Hin as (_ & wk & Hwk & _).
      simpl in Hwk. apply lookup_delete_Some in Hwk as [Hne Hwk].
      exists k. split; [reflexivity|]. split; [congruence | eauto].
    + intros (k & -> & Hne & wk & Hwk). apply elem_of_appPublish.
      split; [reflexivity|]. exists wk. split.
      * simpl. apply lookup_delete_Some. split; [congruence | exact Hwk].
      * apply (wired_all s Hwd k wk Hwk).
Qed.

(** [res.upgrade] and the [open] handler, in full. *)
Lemma resUpgrade_result r g id s :
  invariant s → arrayAt s g → wired s →
  let h := nextSocket s in
  let s' := (resUpgrade r g id s).1 in
  (∀ e, e ∈ (resUpgrade r g id s).2 ↔
     e = Upgraded h
     ∨ e = Deliver h ("welcome:" ++ welcomeJson (maxPayload (config s)))
     ∨ ∃ k, e = Deliver k ("connect:" ++ id) ∧ is_Some (sockets s !! k))
  ∧ (∀ g', groupOf s' g'
           = if decide (g = g') then (groupOf s g ++ [newClient r g id h])%list
             else groupOf s g')
  ∧ (∀ k, is_Some (sockets s' !! k) ↔ k = h ∨ is_Some (sockets s !! k))
  ∧ config s' = config s ∧ largeMessages s' = largeMessages s ∧ timers s' = timers s.
Proof.
  intros Hinv Ha Hwd h.
  destruct (resUpgrade_topics r g id s Hinv Ha) as (_ & _ & Hdel).
  destruct (resUpgrade_spec r g id s Hinv Ha)
    as (s' & connects & Heq & Hconn & Hcl & Hsame & _ & _ & Hcfg & Hlm & Htm).
  fold h in Hdel, Heq, Hcl, Hsame. rewrite Heq in Hdel |- *. cbn [fst snd] in *.
  split; [|split; [|split; [|auto]]].
  - intros e. split.
    + intros He. rewrite Forall_forall in Hconn.
      apply elem_of_cons in He as [->|He]; [auto|].
      apply elem_of_cons in He as [->|He]; [auto|].
      destruct (Hconn e He) as [k ->].
      assert (Hin : Deliver k ("connect:" ++ id)
                      ∈ Upgraded h :: Deliver h ("welcome:" ++ welcomeJson (maxPayload (config s)))
                          :: connects) by (right; right; exact He).
      apply Hdel in Hin as [[-> Habs]|(_ & w & Hw & _)]; [discriminate Habs|].
      right. right. exists k. eauto.
    + intros [->|[->|(k & -> & w & Hw)]]; [left | right; left|].
      apply Hdel. right. split; [reflexivity|]. exists w. split; [exact Hw|].
      apply (wired_all s Hwd k w Hw).
  - intros g'. apply (groupOf_insert s). exact Hcl.
  - intros k. specialize (Hsame k). rewrite lookup_insert in Hsame.
    destruct (decide (h = k)) as [->|Hne].
    + inversion Hsame. split; [auto | eauto].
    + split.
      * intros [w' Hw']. rewrite Hw' in Hsame. inversion Hsame. right. eauto.
      * intros [->|[w Hw]]; [congruence|]. rewrite Hw in Hsame. inversion Hsame. eauto.
Qed.

(** X3. Disconnect.  When the transport of an open socket goes away, the
    socket leaves the table, its client (and no other) leaves the registry,
    and [disconnect:<id>] is delivered to every socket that stays open, in
    whatever group.  A second close of the same socket does nothing. *)
Theorem disconnect_removes_and_tells cfg s h w r :
  reachable cfg s → sockets s !! h = Some w →
  let s' := (step r (Disconnect h) s).1 in
  sockets s' = delete h (sockets s)
  ∧ (∀ g, groupOf s' g = filter (fun c => client_ws c ≠ h) (groupOf s g))
  ∧ (∀ e, e ∈ (step r (Disconnect h) s).2 ↔
       ∃ k, e = Deliver k ("disconnect:" ++ ws_env_id w)
            ∧ k ≠ h ∧ is_Some (sockets s !! k))
  ∧ (∀ r', (step r' (Disconnect h) s').2 = []).
Proof.
  intros Hreach Hw.
  pose proof (runTimers_invariant (now r) s (reachable_invariant cfg s Hreach)) as Hinv0.
  pose proof (runTimers_wired (now r) s (reachable_wired cfg s Hreach)) as Hwd0.
  destruct (runTimers_frame (now r) s) as (_ & Hs0 & _).
  unfold step. cbn [handle]. set (s0 := runTimers (now r) s) in *.
  rewrite <- Hs0 in Hw |- *.
  destruct (wired_registered s0 Hwd0 h w Hw) as (c & Hc & <-).
  assert (Hid : ws_env_id w = client_id c).
  { pose proof Hc as Hc'. apply groupOf_elem in Hc' as (l & Hl & Hcl).
    destruct (inv_registered s0 Hinv0 _ l c Hl Hcl) as (_ & w' & Hw' & _ & Hid).
    rewrite Hw in Hw'. now injection Hw' as <-. }
  destruct (socketClosed_result s0 _ c Hinv0 Hwd0 Hc) as (Hs' & Hg' & He' & _).
  rewrite Hid. split; [exact Hs'|]. split; [exact Hg'|]. split; [exact He'|].
  intros r'. unfold socketClosed at 1.
  destruct (runTimers_frame (now r') (socketClosed (client_ws c) s0).1) as (_ & -> & _).
  rewrite Hs', lookup_delete_eq. reflexivity.
Qed.

(** [client1] of the two sample peers loses its connection. *)
Lemma disconnect_removes_and_tells_witness :
  reachable sampleConfig twoPeers
  ∧ sockets twoPeers !! 0%nat = Some client1Socket
  ∧ sockets (step sampleReading (Disconnect 0) twoPeers).1 = delete 0%nat (sockets twoPeers).
Proof.
  assert (H1 : sockets twoPeers !! 0%nat = Some client1Socket) by (vm_compute; reflexivity).
  split; [exact twoPeers_reachable|]. split; [exact H1|].
  exact (proj1 (disconnect_removes_and_tells sampleConfig twoPeers 0 client1Socket
                  sampleReading twoPeers_reachable H1)).
Defined.

(** X4. Admission.  An upgrade request that passes the checks, for a group
    name that is not inherited from [Object.prototype] and with [maxPayload]
    a safe integer: the newcomer (and it alone) is sent the welcome frame
    with the configured [maxPayload]; every socket that was open before, in
    whatever group, is sent [connect:<id>], except the incumbent of the same
    id in the group, which is closed; when there is such an incumbent the
    same sockets are sent [disconnect:<id>].  The newcomer becomes the last
    entry of its group, the incumbent's entry is dropped, other groups are
    untouched. *)
Theorem connect_admits_and_tells cfg s g q id r :
  reachable cfg s →
  inherited g = false →
  safeInteger (maxPayload (config s)) →
  checkEnvironment (config s) (parseQuery q) = None →
  prop (parseQuery q) "id" = Some id →
  let h := nextSocket s in
  let s' := (step r (Connect g q) s).1 in
  (∀ k f, Deliver k f ∈ (step r (Connect g q) s).2 ↔
     (k = h ∧ f = "welcome:" ++ welcomeJson (maxPayload (config s)))
     ∨ (is_Some (sockets s !! k) ∧ ¬ incumbent s g id k
        ∧ (f = "connect:" ++ id
           ∨ (f = "disconnect:" ++ id ∧ ∃ k', incumbent s g id k'))))
  ∧ groupOf s' g
    = (filter (fun c => client_id c ≠ id) (groupOf s g) ++ [newClient r g id h])%list
  ∧ (∀ g', g' ≠ g → groupOf s' g' = groupOf s g')
  ∧ (∀ k, is_Some (sockets s' !! k)
          ↔ k = h ∨ (is_Some (sockets s !! k) ∧ ¬ incumbent s g id k)).
Proof.
  intros Hreach Hg _ Hck Hid h.
  pose proof (runTimers_invariant (now r) s (reachable_invariant cfg s Hreach)) as Hinv0.
  pose proof (runTimers_wired (now r) s (reachable_wired cfg s Hreach)) as Hwd0.
  destruct (runTimers_frame (now r) s) as (_ & Hs0 & Hn0 & _ & Hc0).
  unfold step. cbn [handle].
  assert (Hinc0 : ∀ k, incumbent s g id k ↔ incumbent (runTimers (now r) s) g id k)
    by (intros k; reflexivity).
  setoid_rewrite Hinc0. clear Hinc0.
  change (groupOf s) with (groupOf (runTimers (now r) s)).
  subst h. rewrite <- Hc0, <- Hn0 in *. rewrite <- Hs0. clear Hs0 Hn0 Hc0.
  set (s0 := runTimers (now r) s) in *. clearbody s0. clear Hreach s.
  assert (Ha0 : arrayAt s0 g) by (right; exact Hg).
  pose proof (getClients_arrayAt_groupOf g s0 Ha0) as Hgrp.
  pose proof (upgrade_admitted r g q s0 id (groupOf s0 g) Hinv0 Hck Hid Hgrp) as Hup.
  pose proof (getClients_invariant g s0 Hinv0) as H1.
  pose proof (getClients_wired g s0 Hwd0) as W1.
  pose proof (getClients_arrayAt g s0 _ Hgrp) as Ha1.
  pose proof (groupOf_getClients g) as Hg1. specialize Hg1 with (s := s0).
  destruct (getClients_frame g s0) as (Hs1 & Hn1 & _ & _ & _ & Hc1).
  destruct (getClients g s0) as [s1 group]. cbn [fst snd] in *. clear Hgrp group.
  destruct (list_find _ (groupOf s0 g)) as [[i c]|] eqn:Hf; rewrite Hup; clear Hup.
  - apply list_find_Some in Hf as (Hi & Hcid & _).
    assert (Hc : c ∈ groupOf s0 g) by (eapply list_elem_of_lookup_2; eauto).
    assert (Hinc : ∀ k, incumbent s0 g id k ↔ k = client_ws c).
    { intros k. split; [|intros ->; exists c; auto].
      intros (c' & Hc' & Hid' & <-).
      apply groupOf_elem in Hc as (l & Hl & Hc).
      assert (Hgl : groupOf s0 g = l) by (unfold groupOf; now rewrite Hl).
      rewrite Hgl in Hi, Hc'. apply list_elem_of_lookup in Hc' as [j Hj].
      assert (j = i) as ->.
      { apply (NoDup_lookup (client_id <$> l) j i id (inv_unique s0 Hinv0 g l Hl)).
        - now rewrite list_lookup_fmap, Hj, <- Hid'.
        - now rewrite list_lookup_fmap, Hi, <- Hcid. }
      congruence. }
    assert (Hc1' : c ∈ groupOf s1 g) by now rewrite Hg1.
    destruct (socketClosed_result s1 g c H1 W1 Hc1') as (Hs2 & Hg2 & He2 & Hn2 & Hc2 & _).
    pose proof (socketClosed_invariant (client_ws c) s1 H1) as Hinv2.
    pose proof (socketClosed_wired (client_ws c) s1 H1 W1) as Hwd2.
    pose proof (socketClosed_arrayAt (client_ws c) s1 g Ha1) as Ha2.
    set (s2 := (socketClosed (client_ws c) s1).1) in *.
    destruct (resUpgrade_result r g id s2 Hinv2 Ha2 Hwd2) as (He3 & Hg3 & Hs3 & _).
    cbn [fst snd].
    assert (Hopen2 : ∀ k, is_Some (sockets s2 !! k)
              ↔ is_Some (sockets s0 !! k) ∧ ¬ incumbent s0 g id k).
    { intros k. rewrite Hs2, Hs1, Hinc. unfold is_Some.
      setoid_rewrite lookup_delete_Some. naive_solver. }
    split; [|split; [|split]].
    + intros k f. rewrite elem_of_cons, elem_of_app, He2, He3, Hn2, Hn1, Hc2, Hc1.
      rewrite Hs1. setoid_rewrite Hopen2. setoid_rewrite Hinc. rewrite <- Hcid.
      split.
      * intros [Habs|[(k' & [= -> ->] & Hne & Hk')|[Habs|[[= -> ->]|(k' & [= -> ->] & Hk' & Hne)]]]];
          try discriminate; [right | left; auto | right]; naive_solver.
      * intros [[-> ->]|(Hk & Hne & [->|[-> _]])].
        -- right; right; right; left; reflexivity.
        -- do 4 right. exists k. auto.
        -- right; left. exists k. auto.
    + rewrite Hg3, decide_True by reflexivity. rewrite Hg2, Hg1, Hn2, Hn1. f_equal.
      apply filter_ext_in. intros c' Hc'. rewrite <- Hcid. split.
      * intros Hws Heq. apply Hws. apply Hinc. exists c'. split; [exact Hc'|].
        split; [congruence | reflexivity].
      * intros Hne Hws. apply Hne.
        assert (Hk : incumbent s0 g id (client_ws c')) by (apply Hinc; exact Hws).
        destruct Hk as (c'' & Hc'' & Hid'' & Hws'').
        apply groupOf_elem in Hc' as (l & Hl & Hc').
        assert (Hgl : groupOf s0 g = l) by (unfold groupOf; now rewrite Hl).
        rewrite Hgl in Hc''.
        apply list_elem_of_lookup in Hc' as [j Hj].
        apply list_elem_of_lookup in Hc'' as [j' Hj'].
        assert (j' = j) as ->
          by (apply (same_socket_same_index s0 g l j' j c'' c' Hinv0 Hl Hj' Hj Hws'')).
        congruence.
    + intros g' Hne. rewrite Hg3, decide_False by congruence. rewrite Hg2, Hg1.
      apply filter_all. intros c' Hc' Hws.
      apply groupOf_elem in Hc' as (l' & Hl' & Hc').
      destruct (inv_registered s0 Hinv0 g' l' c' Hl' Hc') as (_ & w' & Hw' & Hdb' & _).
      apply groupOf_elem in Hc as (l & Hl & Hc).
      destruct (inv_registered s0 Hinv0 g l c Hl Hc) as (_ & w & Hw & Hdb & _).
      rewrite Hws, Hw in Hw'. injection Hw' as <-. congruence.
    + intros k. rewrite Hs3, Hn2, Hn1, Hopen2. reflexivity.
  - apply list_find_None in Hf. rewrite Forall_forall in Hf.
    assert (Hinc : ∀ k, ¬ incumbent s0 g id k).
    { intros k (c & Hc & Hid' & _). exact (Hf c Hc Hid'). }
    destruct (resUpgrade_result r g id s1 H1 Ha1 W1) as (He3 & Hg3 & Hs3 & _).
    split; [|split; [|split]].
    + intros k f. rewrite He3, Hn1, Hc1, Hs1. split.
      * intros [Habs|[[= -> ->]|(k' & [= -> ->] & Hk')]]; [discriminate | left; auto|].
        right. split; [exact Hk'|]. split; [apply Hinc | left; reflexivity].
      * intros [[-> ->]|(Hk & _ & [->|[_ [k' Hk']]])]; [right; left; reflexivity | |].
        -- right. right. eauto.
        -- now apply Hinc in Hk'.
    + rewrite Hg3, decide_True by reflexivity. rewrite Hg1, Hn1. f_equal.
      symmetry. apply filter_all. exact Hf.
    + intros g' Hne. rewrite Hg3, decide_False by congruence. apply Hg1.
    + intros k. rewrite Hs3, Hn1, Hs1. split; [|tauto].
      intros [->|Hk]; [left; reflexivity | right; split; [exact Hk | apply Hinc]].
Qed.

(** A third peer joins the two sample peers. *)
Lemma connect_admits_and_tells_witness :
  reachable sampleConfig twoPeers
  ∧ inherited "mydb" = false
  ∧ safeInteger (maxPayload (config twoPeers))
  ∧ checkEnvironment (config twoPeers) (parseQuery "id=client3&v=1.0.0&t=s") = None
  ∧ prop (parseQuery "id=client3&v=1.0.0&t=s") "id" = Some "client3"
  ∧ groupOf (step sampleReading (Connect "mydb" "id=client3&v=1.0.0&t=s") twoPeers).1 "mydb"
    = (filter (fun c => client_id c ≠ "client3") (groupOf twoPeers "mydb")
         ++ [newClient sampleReading "mydb" "client3" (nextSocket twoPeers)])%list.
Proof.
  assert (H1 : checkEnvironment (config twoPeers) (parseQuery "id=client3&v=1.0.0&t=s") = None)
    by (vm_compute; reflexivity).
  assert (H2 : prop (parseQuery "id=client3&v=1.0.0&t=s") "id" = Some "client3")
    by (vm_compute; reflexivity).
  assert (H3 : inherited "mydb" = false) by (vm_compute; reflexivity).
  assert (H4 : safeInteger (maxPayload (config twoPeers))) by (vm_compute; split; reflexivity).
  split; [exact twoPeers_reachable|]. split; [exact H3|]. split; [exact H4|].
  split; [exact H1|]. split; [exact H2|].
  exact (proj1 (proj2 (connect_admits_and_tells sampleConfig twoPeers "mydb"
                         "id=client3&v=1.0.0&t=s" "client3" sampleReading
                         twoPeers_reachable H3 H4 H1 H2))).
Defined.

(** X5. The listing.  For a group name that is not inherited from
    [Object.prototype], [GET /:dbname/clients] answers, without any token,
    the entries of the group in order of admission; for an inherited name
    ([constructor], [toString], ...) the handler raises and nothing is
    answered.  No id is listed twice, and an id is listed exactly when a
    socket that connected to the group under that id is open. *)
Theorem clients_route_lists_open_sockets cfg s g r :
  reachable cfg s →
  (step r (GetClients g) s).2
    = (if inherited g then [Thrown] else [RespondClients (rows (groupOf s g))])
  ∧ NoDup (rows (groupOf s g)).*1
  ∧ (∀ id, id ∈ (rows (groupOf s g)).*1
           ↔ ∃ k w, sockets s !! k = Some w ∧ ws_dbname w = g ∧ ws_env_id w = id).
Proof.
  intros Hreach.
  pose proof (reachable_invariant cfg s Hreach) as Hinv.
  pose proof (reachable_wired cfg s Hreach) as Hwd.
  assert (Hids : (rows (groupOf s g)).*1 = client_id <$> groupOf s g).
  { unfold rows. rewrite <- list_fmap_compose. reflexivity. }
  rewrite Hids. split; [|split].
  - unfold step. cbn [handle]. unfold getClientsRoute.
    destruct (getClients_groupOf g (runTimers (now r) s)) as [Hgrp|(Hgrp & _ & Hi)].
    + assert (Ha : arrayAt s g)
        by (apply (getClients_array g (runTimers (now r) s)); eauto).
      apply (reachable_arrayAt cfg s g Hreach) in Ha. rewrite Ha.
      destruct (getClients g (runTimers (now r) s)) as [s1 group]. simpl in Hgrp.
      now rewrite Hgrp, groupOf_runTimers.
    + now rewrite Hgrp, Hi.
  - unfold groupOf. destruct (clients s !! g) as [l|] eqn:Hl; simpl; [|constructor].
    apply (inv_unique s Hinv g l Hl).
  - intros id. rewrite list_elem_of_fmap. split.
    + intros (c & -> & Hc). apply groupOf_elem in Hc as (l & Hl & Hc).
      destruct (inv_registered s Hinv g l c Hl Hc) as (_ & w & Hw & Hdb & Hid). eauto.
    + intros (k & w & Hw & <- & <-).
      destruct (wired_registered s Hwd k w Hw) as (c & Hc & <-). exists c.
      split; [|exact Hc]. apply groupOf_elem in Hc as (l & Hl & Hc).
      destruct (inv_registered s Hinv _ l c Hl Hc) as (_ & w' & Hw' & _ & Hid).
      rewrite Hw in Hw'. now injection Hw' as <-.
Qed.

(** The listing of the two sample peers. *)
Lemma clients_route_lists_open_sockets_witness :
  reachable sampleConfig twoPeers
  ∧ (step sampleReading (GetClients "mydb") twoPeers).2
    = [RespondClients (rows (groupOf twoPeers "mydb"))].
Proof.
  split; [exact twoPeers_reachable|].
  exact (proj1 (clients_route_lists_open_sockets sampleConfig twoPeers "mydb" sampleReading
                  twoPeers_reachable)).
Defined.

End Notices.

(** ** The HTTP routes *)

Section Routes.


Lemma socketClosed_store h s :
  config (socketClosed h s).1 = config s
  ∧ largeMessages (socketClosed h s).1 = largeMessages s
  ∧ timers (socketClosed h s).1 = timers s.
Proof.
  unfold socketClosed. destruct (sockets s !! h) as [w|]; [|auto].
  unfold closeHandler.
  destruct (getClients_frame (ws_dbname w) (setSockets s (delete h (sockets s)) (nextSocket s)))
    as (_ & _ & _ & Hl & Ht & Hc).
  destruct (getClients _ _) as [s1 [group|]]; [|simpl in *; auto].
  destruct (list_find _ group) as [[i c]|]; simpl in *; auto.
Qed.



(** [POST /:dbname/send] by a known peer runs the frame as if it had come
    over the peer's socket, and answers [ok]. *)
Lemma postSend_frame r g q data s i c :
  invariant s →
  findById (parseQuery q) (groupOf s g) = Some (i, c) →
  unauthorized (config s) (parseQuery q) (Some (i, c)) = false →
  postSend r g q data s
  = ((messageHandler r (client_ws c) false data s).1,
     Respond None "ok" :: (messageHandler r (client_ws c) false data s).2).
Proof.
  intros Hinv Hf Hau.
  assert (Hc0 : c ∈ groupOf s g).
  { apply list_find_Some in Hf as (Hi & _). eapply list_elem_of_lookup_2; eauto. }
  pose proof Hc0 as Hc. apply groupOf_elem in Hc as (l & Hl & Hc).
  destruct (inv_registered s Hinv g l c Hl Hc) as (_ & w & Hw & Hg & _).
  unfold postSend, messageHandler. rewrite Hw, Hg.
  rewrite (getClients_member g s c Hc0). cbn beta iota.
  rewrite Hf, Hau.
  destruct (handleIncomingMessage r data (client_ws c) s). reflexivity.
Qed.

Lemma getSend_frame r g q msg s i c :
  invariant s → development (config s) = true →
  findById (parseQuery q) (groupOf s g) = Some (i, c) →
  unauthorized (config s) (parseQuery q) (Some (i, c)) = false →
  prop (parseQuery q) "msg" = Some msg →
  getSend r g q s = messageHandler r (client_ws c) false msg s.
Proof.
  intros Hinv Hdev Hf Hau Hmsg.
  assert (Hc0 : c ∈ groupOf s g).
  { apply list_find_Some in Hf as (Hi & _). eapply list_elem_of_lookup_2; eauto. }
  pose proof Hc0 as Hc. apply groupOf_elem in Hc as (l & Hl & Hc).
  destruct (inv_registered s Hinv g l c Hl Hc) as (_ & w & Hw & Hg & _).
  unfold getSend, messageHandler. rewrite Hdev, Hw, Hg. cbn [negb].
  rewrite (getClients_member g s c Hc0). cbn beta iota.
  now rewrite Hf, Hau, Hmsg.
Qed.

(** X6. Sending over HTTP.  For a request that names a registered peer of
    the group and passes the token check, [POST /:dbname/send] has the state
    and the deliveries of the same text frame received on that peer's
    socket, and answers [ok]; in development mode [GET /:dbname/send] with a
    [msg] parameter does the same without the answer. *)
Theorem http_send_is_socket_frame cfg s g q i c r :
  reachable cfg s →
  findById (parseQuery q) (groupOf s g) = Some (i, c) →
  unauthorized (config s) (parseQuery q) (Some (i, c)) = false →
  (∀ data,
     step r (PostSend g q data) s
     = ((step r (Message (client_ws c) false data) s).1,
        Respond None "ok" :: (step r (Message (client_ws c) false data) s).2))
  ∧ (development (config s) = true →
     ∀ msg, prop (parseQuery q) "msg" = Some msg →
       step r (GetSend g q) s = step r (Message (client_ws c) false msg) s).
Proof.
  intros Hreach Hf Hau.
  pose proof (runTimers_invariant (now r) s (reachable_invariant cfg s Hreach)) as Hinv0.
  destruct (runTimers_frame (now r) s) as (_ & _ & _ & _ & Hc0).
  unfold step. cbn [handle]. split.
  - intros data. apply (postSend_frame r g q data _ i c Hinv0).
    + now rewrite groupOf_runTimers.
    + now rewrite Hc0.
  - intros Hdev msg Hmsg. apply (getSend_frame r g q msg _ i c Hinv0); try congruence.
    now rewrite groupOf_runTimers.
Qed.

(** [client1] posts [hello] for [client2]. *)
Lemma http_send_is_socket_frame_witness :
  reachable sampleConfig twoPeers
  ∧ findById (parseQuery "id=client1&t=s") (groupOf twoPeers "mydb") = Some (0%nat, client1)
  ∧ unauthorized (config twoPeers) (parseQuery "id=client1&t=s") (Some (0%nat, client1)) = false
  ∧ ∀ data,
      step sampleReading (PostSend "mydb" "id=client1&t=s" data) twoPeers
      = ((step sampleReading (Message (client_ws client1) false data) twoPeers).1,
         Respond None "ok"
           :: (step sampleReading (Message (client_ws client1) false data) twoPeers).2).
Proof.
  assert (H1 : findById (parseQuery "id=client1&t=s") (groupOf twoPeers "mydb")
               = Some (0%nat, client1)) by (vm_compute; reflexivity).
  assert (H2 : unauthorized (config twoPeers) (parseQuery "id=client1&t=s")
                 (Some (0%nat, client1)) = false) by (vm_compute; reflexivity).
  split; [exact twoPeers_reachable|]. split; [exact H1|]. split; [exact H2|].
  exact (proj1 (http_send_is_socket_frame sampleConfig twoPeers "mydb" "id=client1&t=s"
                  0%nat client1 sampleReading twoPeers_reachable H1 H2)).
Defined.






(** The configuration is the one the server was started with. *)
Lemma handle_config r e s : invariant s → config (handle r e s).1 = config s.
Proof.
  intros Hinv. pose proof (handle_registry r e s) as Hreg.
  destruct e as [g q|h|h b d|g|g q d|g q|g q]; try (now destruct Hreg as (_ & _ & Hc)).
  - cbn [handle].
    destruct (checkEnvironment (config s) (parseQuery q)) as [err|] eqn:Hck.
    { unfold upgrade. now rewrite Hck. }
    destruct (checkEnvironment_None _ _ Hck) as (id & Hid & _).
    destruct (getClients g s).2 as [group|] eqn:Hgroup;
      [|now rewrite (upgrade_inherited r g q s Hck Hgroup)].
    pose proof (upgrade_admitted r g q s id group Hinv Hck Hid Hgroup) as Hup.
    pose proof (getClients_invariant g s Hinv) as H1.
    pose proof (getClients_arrayAt g s group Hgroup) as Ha1.
    destruct (getClients_frame g s) as (_ & _ & _ & _ & _ & Hc1).
    destruct (getClients g s) as [s1 group']. cbn [fst snd] in *.
    destruct (list_find _ group) as [[i c]|]; rewrite Hup; clear Hup; cbn [fst snd].
    + destruct (resUpgrade_spec r g id _ (socketClosed_invariant (client_ws c) s1 H1)
                  (socketClosed_arrayAt (client_ws c) s1 g Ha1))
        as (s' & connects & -> & _ & _ & _ & _ & _ & Hcfg & _).
      cbn [fst]. rewrite Hcfg. destruct (socketClosed_store (client_ws c) s1) as (-> & _).
      exact Hc1.
    + destruct (resUpgrade_spec r g id s1 H1 Ha1)
        as (s' & connects & -> & _ & _ & _ & _ & _ & Hcfg & _).
      cbn [fst]. congruence.
  - cbn [handle]. apply socketClosed_store.
Qed.

Lemma reachable_config cfg s : reachable cfg s → config s = cfg.
Proof.
  intros [tr <-].
  assert (H : ∀ s0, invariant s0 → config (run tr s0).1 = config s0).
  { induction tr as [|[r e] tr IH]; intros s0 Hinv; cbn [run]; [reflexivity|].
    pose proof (step_invariant r e s0 Hinv) as H1.
    assert (Hc : config (step r e s0).1 = config s0).
    { unfold step. rewrite handle_config by now apply runTimers_invariant.
      apply runTimers_frame. }
    destruct (step r e s0) as [s1 out]. cbn [fst] in *.
    specialize (IH s1 H1). destruct (run tr s1) as [s2 outs]. cbn [fst] in *. congruence. }
  apply (H (newServer cfg)), invariant_new.
Qed.

(** X9. What never changes.  The configuration of a reachable state is the
    one the server was started with; and a turn of the loop for an event
    other than an upgrade request or a disconnect leaves the socket table
    and every member list as they were. *)
Theorem registry_changes_with_sessions_only cfg s r e :
  reachable cfg s →
  config s = cfg
  ∧ config (step r e s).1 = cfg
  ∧ (isSession e = false →
     sockets (step r e s).1 = sockets s
     ∧ ∀ g, groupOf (step r e s).1 g = groupOf s g).
Proof.
  intros Hreach. pose proof (reachable_config cfg s Hreach) as Hc.
  split; [exact Hc|]. split.
  - unfold step.
    rewrite handle_config
      by apply (runTimers_invariant _ _ (reachable_invariant cfg s Hreach)).
    destruct (runTimers_frame (now r) s) as (_ & _ & _ & _ & ->). exact Hc.
  - intros He. unfold step. pose proof (handle_registry r e (runTimers (now r) s)) as Hreg.
    destruct (runTimers_frame (now r) s) as (_ & Hs0 & _).
    destruct e; try discriminate He; destruct Hreg as (-> & Hg & _);
      (split; [exact Hs0 | intros g'; rewrite Hg; apply groupOf_runTimers]).
Qed.

(** A listing request on the two sample peers. *)
Lemma registry_changes_with_sessions_only_witness :
  reachable sampleConfig twoPeers ∧ config twoPeers = sampleConfig.
Proof.
  split; [exact twoPeers_reachable|].
  exact (proj1 (registry_changes_with_sessions_only sampleConfig twoPeers sampleReading
                  (GetClients "mydb") twoPeers_reachable)).
Defined.

End Routes.

(** ** No slot outlives its timer *)

Section Expiry.

Lemma storeStep_from r s s1 s2 :
  largeMessages s1 = largeMessages s → timers s1 = timers s →
  storeStep r s1 s2 → storeStep r s s2.
Proof. unfold storeStep. intros -> ->. auto. Qed.

Lemma handleIncomingMessage_store r msg ws s :
  storeStep r s (handleIncomingMessage r msg ws s).1.
Proof.
  unfold handleIncomingMessage. destruct (sockets s !! ws) as [w|]; [|left; auto].
  destruct (getClients_frame (ws_dbname w) s) as (_ & _ & _ & Hl & Ht & Hc).
  destruct (getClients (ws_dbname w) s) as [s1 group]. cbn [fst] in *.
  apply (storeStep_from r s s1); [exact Hl | exact Ht|].
  destruct (String.eqb msg "ping"); [left; auto|].
  destruct (splitRecipient msg) as [to body].
  destruct (Z_le_gt_dec (Z.of_nat (String.length body)) (maxPayload (config s1))) as [Hle|Hgt].
  - rewrite (spill_small r body s1 Hle). left. auto.
  - destruct (spill_big r body s1 Hgt) as (_ & Hlm & Htm).
    destruct (spill r body s1) as [s2 out]. cbn [fst] in *. right. left. eauto.
Qed.

Lemma handle_store r e s : invariant s → storeStep r s (handle r e s).1.
Proof.
  intros Hinv.
  assert (Hvia : ∀ g m h, storeStep r s (handleIncomingMessage r m h (getClients g s).1).1).
  { intros g m h. destruct (getClients_frame g s) as (_ & _ & _ & Hl & Ht & _).
    apply (storeStep_from r s _ _ Hl Ht), handleIncomingMessage_store. }
  assert (Hget : ∀ g, storeStep r s (getClients g s).1).
  { intros g. destruct (getClients_frame g s) as (_ & _ & _ & Hl & Ht & _). left. auto. }
  destruct e as [g q|h|h b d|g|g q d|g q|g q]; cbn [handle].
  - left. destruct (checkEnvironment (config s) (parseQuery q)) as [err|] eqn:Hck.
    { unfold upgrade. rewrite Hck. auto. }
    destruct (checkEnvironment_None _ _ Hck) as (id & Hid & _).
    destruct (getClients g s).2 as [group|] eqn:Hgroup;
      [|rewrite (upgrade_inherited r g q s Hck Hgroup); auto].
    pose proof (upgrade_admitted r g q s id group Hinv Hck Hid Hgroup) as Hup.
    pose proof (getClients_invariant g s Hinv) as H1.
    pose proof (getClients_arrayAt g s group Hgroup) as Ha1.
    destruct (getClients_frame g s) as (_ & _ & _ & Hl1 & Ht1 & _).
    destruct (getClients g s) as [s1 group']. cbn [fst snd] in *.
    destruct (list_find _ group) as [[i c]|]; rewrite Hup; clear Hup; cbn [fst snd].
    + destruct (resUpgrade_spec r g id _ (socketClosed_invariant (client_ws c) s1 H1)
                  (socketClosed_arrayAt (client_ws c) s1 g Ha1))
        as (s' & connects & -> & _ & _ & _ & _ & _ & _ & Hlm & Htm).
      cbn [fst]. rewrite Hlm, Htm.
      destruct (socketClosed_store (client_ws c) s1) as (_ & -> & ->). auto.
    + destruct (resUpgrade_spec r g id s1 H1 Ha1)
        as (s' & connects & -> & _ & _ & _ & _ & _ & _ & Hlm & Htm).
      cbn [fst]. split; congruence.
  - left. destruct (socketClosed_store h s) as (_ & -> & ->). auto.
  - unfold messageHandler. destruct b; [left; auto|].
    destruct (sockets s !! h) as [w|]; [|left; auto].
    specialize (Hvia (ws_dbname w) d h). specialize (Hget (ws_dbname w)).
    destruct (getClients (ws_dbname w) s) as [s1 [group|]]; [exact Hvia | exact Hget].
  - unfold getClientsRoute. specialize (Hget g).
    destruct (getClients g s) as [s1 [group|]]; exact Hget.
  - unfold postSend. specialize (Hget g). pose proof (Hvia g d) as Hv.
    destruct (getClients g s) as [s1 [group|]]; [|exact Hget]. cbn [fst] in *.
    destruct (unauthorized _ _ _); [exact Hget|].
    destruct (findById _ group) as [[i c]|]; [|exact Hget].
    specialize (Hv (client_ws c)).
    destruct (handleIncomingMessage r d (client_ws c) s1). exact Hv.
  - unfold getSend. destruct (negb _); [left; auto|].
    specialize (Hget g). pose proof (Hvia g) as Hv.
    destruct (getClients g s) as [s1 [group|]]; [|exact Hget]. cbn [fst] in *.
    destruct (unauthorized _ _ _); [exact Hget|].
    destruct (findById _ group) as [[i c]|]; [|exact Hget].
    destruct (prop _ "msg") as [m|]; [|exact Hget]. apply Hv.
  - unfold getReceive. specialize (Hget g).
    destruct (getClients_frame g s) as (_ & _ & _ & Hl & Ht & _).
    destruct (getClients g s) as [s1 [group|]]; [|exact Hget]. cbn [fst] in *.
    destruct (unauthorized _ _ _); [left; auto|].
    destruct (largeMessages s1 !! _); [|left; auto].
    right. right. eexists. cbn. rewrite Hl. auto.
Qed.

Lemma slotsTimed_step r s s' : storeStep r s s' → slotsTimed s → slotsTimed s'.
Proof.
  intros [[Hl Ht]|[(id & m & Hl & Ht)|(id & Hl & Ht)]] Hs id' m' Hm';
    rewrite Hl in Hm'; rewrite Ht.
  - exact (Hs id' m' Hm').
  - apply lookup_insert_Some in Hm' as [[<- _]|[_ Hm']].
    + eexists. split; [apply elem_of_app; right; left | reflexivity].
    + destruct (Hs id' m' Hm') as (tm & Htm & Hid). exists tm.
      split; [apply elem_of_app; now left | exact Hid].
  - apply lookup_delete_Some in Hm' as [_ Hm']. exact (Hs id' m' Hm').
Qed.

Lemma slotsTimed_runTimers t s : slotsTimed s → slotsTimed (runTimers t s).
Proof.
  intros Hs id m Hm. cbn in Hm. rewrite foldl_delete_lookup in Hm.
  destruct (decide (id ∈ _)) as [|Hnot]; [discriminate|].
  destruct (Hs id m Hm) as (tm & Htm & Hid). exists tm. split; [|exact Hid].
  cbn. apply list_elem_of_filter. split; [|exact Htm].
  intros Hdue. apply Hnot. apply list_elem_of_fmap. exists tm.
  split; [now rewrite Hid|]. apply list_elem_of_filter. auto.
Qed.

Lemma timersFrom_step r s s' past :
  storeStep r s s' → timersFrom past s → timersFrom (past ++ [now r]) s'.
Proof.
  intros [[Hl Ht]|[(id & m & Hl & Ht)|(id & Hl & Ht)]] Hs tm Htm; rewrite Ht in Htm.
  - destruct (Hs tm Htm) as (t0 & Ht0 & Hd). exists t0.
    split; [apply elem_of_app; now left | exact Hd].
  - apply elem_of_app in Htm as [Htm|Htm].
    + destruct (Hs tm Htm) as (t0 & Ht0 & Hd). exists t0.
      split; [apply elem_of_app; now left | exact Hd].
    + apply list_elem_of_singleton in Htm as ->. exists (now r).
      split; [apply elem_of_app; right; left | reflexivity].
  - destruct (Hs tm Htm) as (t0 & Ht0 & Hd). exists t0.
    split; [apply elem_of_app; now left | exact Hd].
Qed.

Lemma timersFrom_runTimers t s past : timersFrom past s → timersFrom past (runTimers t s).
Proof.
  intros Hs tm Htm. cbn in Htm. apply list_elem_of_filter in Htm as [_ Htm]. now apply Hs.
Qed.

Lemma run_store tr : ∀ s past,
  invariant s → slotsTimed s → timersFrom past s →
  slotsTimed (run tr s).1
  ∧ timersFrom (past ++ ((fun re => now re.1) <$> tr)) (run tr s).1.
Proof.
  induction tr as [|[r e] tr IH]; intros s past Hinv Hs Ht; cbn [run].
  - cbn. rewrite app_nil_r. auto.
  - pose proof (step_invariant r e s Hinv) as H1.
    pose proof (handle_store r e _ (runTimers_invariant (now r) s Hinv)) as Hstep.
    fold (step r e s) in Hstep.
    pose proof (slotsTimed_step r _ _ Hstep (slotsTimed_runTimers _ _ Hs)) as Hs1.
    pose proof (timersFrom_step r _ _ past Hstep (timersFrom_runTimers _ _ _ Ht)) as Ht1.
    destruct (step r e s) as [s1 out]. cbn [fst] in *.
    destruct (IH s1 _ H1 Hs1 Ht1) as [Hs2 Ht2].
    destruct (run tr s1) as [s2 outs]. cbn [fst fmap list_fmap] in *.
    split; [exact Hs2|]. now rewrite <- app_assoc in Ht2.
Qed.

(** X10. No slot outlives its timer.  After any run of the loop every body
    in the store has a timer waiting for it, and every waiting timer is
    due 60 s after the clock reading of one of the turns of the run; so once
    the clock is 60 s past every reading of the run the timer phase leaves
    the store empty. *)
Theorem slots_expire_with_their_timers cfg tr :
  let s := (run tr (newServer cfg)).1 in
  slotsTimed s
  ∧ timersFrom ((fun re => now re.1) <$> tr) s
  ∧ ∀ t, (∀ re, re ∈ tr → now re.1 + 60000 <= t) →
         largeMessages (runTimers t s) = ∅.
Proof.
  intros s.
  destruct (run_store tr (newServer cfg) [] (invariant_new cfg)) as [Hs Ht].
  { intros id m Hm. cbn in Hm. rewrite lookup_empty in Hm. discriminate. }
  { intros tm Htm. inversion Htm. }
  fold s in Hs, Ht. cbn [app] in Ht. split; [exact Hs|]. split; [exact Ht|].
  intros t Hlate. apply map_eq. intros id. rewrite lookup_empty.
  destruct (largeMessages s !! id) as [m|] eqn:Hm; [|now apply runTimers_absent].
  destruct (Hs id m Hm) as (tm & Htm & <-).
  apply (runTimers_expires t s tm Htm).
  destruct (Ht tm Htm) as (t0 & Ht0 & ->).
  apply list_elem_of_fmap in Ht0 as (re & -> & Hre). now apply Hlate.
Qed.

End Expiry.

(** ** Successive ids *)

Section SuccessiveIds.

Lemma generateIDs_length rs : ∀ s, length (generateIDs rs s) = length rs.
Proof.
  induction rs as [|r rs IH]; intros s; [reflexivity|].
  cbn [generateIDs]. destruct (generateID r s) as [s1 id] eqn:E.
  cbn. f_equal. apply IH.
Qed.

(** The counter segment of the [i]-th id. *)
Lemma generateIDs_lookup rs : ∀ s i id,
  0 <= _idSequence s < _maxNr → Forall inRange rs →
  generateIDs rs s !! i = Some id →
  JS.parseInt (JS.slice id 8 16) 36 = (_idSequence s + Z.of_nat i + 1) mod 36 ^ 8.
Proof.
  induction rs as [|r rs IH]; intros s i id Hseq Hrs Hi; [discriminate|].
  apply Forall_cons in Hrs as [[Hn Hr] Hrs].
  destruct (generateID_segments r s Hseq Hn Hr) as (_ & _ & _ & _ & _ & _ & _ & P & _ & N).
  destruct (generateID_sequence r s Hseq) as [_ Hseq1].
  cbn [generateIDs] in Hi. destruct (generateID r s) as [s1 id1] eqn:E.
  cbn [fst snd] in *. destruct i as [|i]; cbn in Hi.
  - injection Hi as <-. rewrite P, N. f_equal. lia.
  - rewrite (IH s1 i id Hseq1 Hrs Hi), N.
    rewrite <- Z.add_assoc, Z.add_mod_idemp_l by lia. f_equal. lia.
Qed.

(** X11. Successive slot ids.  The ids of up to [36^8] successive calls of
    the generator are pairwise distinct, whatever the clock and the random
    draws are (below [36^8]): the counter segment of the [i]-th id reads
    [(counter + i + 1) mod 36^8]. *)
Theorem generated_ids_are_distinct rs s :
  0 <= _idSequence s < _maxNr →
  Forall inRange rs →
  Z.of_nat (length rs) <= 36 ^ 8 →
  NoDup (generateIDs rs s)
  ∧ ∀ i id, generateIDs rs s !! i = Some id →
      JS.parseInt (JS.slice id 8 16) 36 = (_idSequence s + Z.of_nat i + 1) mod 36 ^ 8.
Proof.
  intros Hseq Hrs Hlen. split; [|intros i id; now apply generateIDs_lookup].
  apply NoDup_alt. intros i j id Hi Hj.
  pose proof (lookup_lt_Some _ _ _ Hi) as Li.
  pose proof (lookup_lt_Some _ _ _ Hj) as Lj.
  rewrite generateIDs_length in Li, Lj.
  pose proof (generateIDs_lookup rs s i id Hseq Hrs Hi) as Pi.
  pose proof (generateIDs_lookup rs s j id Hseq Hrs Hj) as Pj.
  rewrite Pi in Pj. clear Pi Hi Hj.
  set (M := 36 ^ 8) in *. assert (HM : 0 < M) by (subst M; lia).
  set (a := _idSequence s + 1) in *.
  assert (Hd : (Z.of_nat i - Z.of_nat j) mod M = 0).
  { replace (Z.of_nat i - Z.of_nat j)
      with ((_idSequence s + Z.of_nat i + 1) - (_idSequence s + Z.of_nat j + 1)) by lia.
    rewrite Zminus_mod, Pj, Z.sub_diag. apply Z.mod_0_l. lia. }
  apply Z.mod_divide in Hd; [|lia]. destruct Hd as [k Hk].
  assert (k = 0) by nia. lia.
Qed.

(** Two bodies parked in the same millisecond with the same random draw. *)
Lemma generated_ids_are_distinct_witness :
  0 <= _idSequence twoPeers < _maxNr
  ∧ Forall inRange [sampleReading; sampleReading]
  ∧ Z.of_nat (length [sampleReading; sampleReading]) <= 36 ^ 8
  ∧ NoDup (generateIDs [sampleReading; sampleReading] twoPeers).
Proof.
  assert (H1 : 0 <= _idSequence twoPeers < _maxNr) by (vm_compute; split; first [discriminate | reflexivity]).
  assert (Hr : inRange sampleReading) by (vm_compute; repeat split; first [discriminate | reflexivity]).
  assert (H2 : Forall inRange [sampleReading; sampleReading])
    by (apply Forall_cons; split; [exact Hr|]; apply Forall_cons; split;
        [exact Hr | apply Forall_nil; exact I]).
  assert (H3 : Z.of_nat (length [sampleReading; sampleReading]) <= 36 ^ 8)
    by (vm_compute; discriminate).
  split; [exact H1|]. split; [exact H2|]. split; [exact H3|].
  exact (proj1 (generated_ids_are_distinct [sampleReading; sampleReading] twoPeers H1 H2 H3)).
Defined.

End SuccessiveIds.

(** ** Parsing frames and query strings *)

Section Parsing.

(** X12. The recipient prefix.  A frame [to:<r>;<body>] whose recipient
    holds no [;] parses to exactly that recipient and that body, whatever
    the body holds; and a frame with the empty recipient, [to:;<body>], is
    handled as the unprefixed frame [<body>] is (for a body that is not
    [ping] and does not itself start with [to:]). *)
Theorem recipient_prefix_round_trip to body :
  noSemicolon to →
  splitRecipient (directFrame to body) = (to, body)
  ∧ (JS.startsWith body "to:" = false → body ≠ "ping" →
     ∀ r h b s,
       step r (Message h b (directFrame "" body)) s = step r (Message h b body) s).
Proof.
  intros Hno. split; [now apply splitRecipient_direct|].
  intros Hpre Hping r h b s. unfold step. cbn [handle].
  set (s0 := runTimers (now r) s). clearbody s0.
  unfold messageHandler. destruct b; [reflexivity|].
  destruct (sockets s0 !! h) as [w|] eqn:Hw; [|reflexivity].
  destruct (getClients_frame (ws_dbname w) s0) as (Hs1 & _).
  destruct (getClients (ws_dbname w) s0) as [s1 group]. cbn [fst] in Hs1.
  rewrite <- Hs1 in Hw.
  rewrite (handleIncomingMessage_eq r _ h w s1 Hw (directFrame_not_ping "" body)).
  rewrite (handleIncomingMessage_eq r _ h w s1 Hw Hping).
  rewrite (splitRecipient_direct "" body eq_refl).
  unfold splitRecipient. rewrite Hpre. reflexivity.
Qed.

(** The body may hold the delimiter. *)
Lemma recipient_prefix_round_trip_witness :
  noSemicolon "client2"
  ∧ splitRecipient (directFrame "client2" "a;b;c") = ("client2", "a;b;c").
Proof.
  assert (H1 : noSemicolon "client2") by reflexivity.
  split; [exact H1|].
  exact (proj1 (recipient_prefix_round_trip "client2" "a;b;c" H1)).
Defined.

Lemma indexOf_cons_none a r c :
  JS.indexOf (String a r) c = -1 ↔ Ascii.eqb a c = false ∧ JS.indexOf r c = -1.
Proof.
  cbn [JS.indexOf]. pose proof (indexOf_bound r c) as Hb.
  destruct (Ascii.eqb a c); [split; [discriminate | intros [? _]; discriminate]|].
  destruct (JS.indexOf r c <? 0) eqn:E.
  - apply Z.ltb_lt in E. split; [intros _; split; [reflexivity | lia] | reflexivity].
  - apply Z.ltb_ge in E. split; [lia | intros [_ ?]; lia].
Qed.

Lemma indexOf_app_none a b c :
  JS.indexOf (a ++ b) c = -1 ↔ JS.indexOf a c = -1 ∧ JS.indexOf b c = -1.
Proof.
  induction a as [|x a IH].
  - rewrite append_nil_l. cbn. tauto.
  - rewrite append_cons, !indexOf_cons_none, IH. tauto.
Qed.

Lemma split_none c s : JS.indexOf s c = -1 → JS.split c s = [s].
Proof.
  induction s as [|a r IH]; intros Hno; [reflexivity|].
  apply indexOf_cons_none in Hno as [Ha Hr]. cbn [JS.split]. now rewrite Ha, IH.
Qed.

Lemma split_app c a b :
  JS.indexOf a c = -1 → JS.split c (a ++ String c b) = a :: JS.split c b.
Proof.
  induction a as [|x a IH]; intros Hno.
  - rewrite append_nil_l. cbn [JS.split]. now rewrite Ascii.eqb_refl.
  - apply indexOf_cons_none in Hno as [Hx Ha].
    rewrite append_cons. cbn [JS.split]. now rewrite Hx, IH.
Qed.

(** No piece of a split holds the separator, and no piece holds a character
    that the whole does not hold. *)
Lemma split_pieces c s : Forall (fun x => JS.indexOf x c = -1) (JS.split c s).
Proof.
  induction s as [|a r IH]; cbn [JS.split].
  - repeat constructor.
  - destruct (Ascii.eqb a c) eqn:E; [constructor; [reflexivity | exact IH]|].
    destruct (JS.split c r) as [|h t]; [repeat constructor; apply indexOf_cons_none; auto|].
    apply Forall_cons in IH as [Hh Ht]. constructor; [|exact Ht].
    apply indexOf_cons_none. auto.
Qed.

Lemma split_keeps_absent c d s :
  JS.indexOf s d = -1 → Forall (fun x => JS.indexOf x d = -1) (JS.split c s).
Proof.
  induction s as [|a r IH]; intros Hno; cbn [JS.split].
  - repeat constructor.
  - apply indexOf_cons_none in Hno as [Ha Hr]. specialize (IH Hr).
    destruct (Ascii.eqb a c); [constructor; [reflexivity | exact IH]|].
    destruct (JS.split c r) as [|h t]; [repeat constructor; apply indexOf_cons_none; auto|].
    apply Forall_cons in IH as [Hh Ht]. constructor; [|exact Ht].
    apply indexOf_cons_none. auto.
Qed.

Lemma prop_insert k' v m k :
  prop (<[k' := v]> m) k = if decide (k' = k) then v else prop m k.
Proof.
  unfold prop. destruct (decide (k' = k)) as [->|Hne].
  - now rewrite lookup_insert_eq.
  - now rewrite lookup_insert_ne.
Qed.

Lemma split_queryString kv kvs :
  Forall (fun kv => plain kv.1 ∧ plain kv.2) (kv :: kvs) →
  JS.split "&" (queryString (kv :: kvs))
  = (fun kv => kv.1 ++ "=" ++ kv.2) <$> (kv :: kvs).
Proof.
  revert kv. induction kvs as [|kv' kvs IH]; intros [k v] Hall;
    apply Forall_cons in Hall as [[[Hk _] [Hv _]] Hall].
  - cbn [queryString fmap list_fmap fst snd]. apply split_none.
    apply indexOf_app_none. split; [exact Hk|]. apply indexOf_cons_none. auto.
  - rewrite fmap_cons. cbn [fst snd]. rewrite <- (IH kv' Hall).
    assert (Hq : queryString ((k, v) :: kv' :: kvs)
                 = (k ++ "=" ++ v) ++ String "&" (queryString (kv' :: kvs)))
      by (rewrite !append_assoc; reflexivity).
    rewrite Hq. apply split_app. cbn [fst snd] in Hk, Hv.
    apply indexOf_app_none. split; [exact Hk|]. apply indexOf_cons_none. auto.
Qed.

Lemma inherited_proto k : inherited k = false → k ≠ "__proto__".
Proof. intros Hk ->. vm_compute in Hk. discriminate. Qed.

Lemma prop_fold_pairs kvs k : ∀ m,
  Forall (fun kv => plain kv.1 ∧ plain kv.2) kvs → k ≠ "__proto__" →
  prop (fold_left
          (fun init kvp =>
             let pair := JS.split "=" kvp in
             if String.eqb (List.nth 0 pair EmptyString) "__proto__" then init
             else <[ List.nth 0 pair EmptyString := List.nth_error pair 1 ]> init)
          ((fun kv => kv.1 ++ "=" ++ kv.2) <$> kvs) m) k
  = match last (filter (fun kv => kv.1 = k) kvs) with
    | Some kv => Some kv.2
    | None => prop m k
    end.
Proof.
  induction kvs as [|[k' v'] kvs IH]; intros m Hall Hproto; [reflexivity|].
  apply Forall_cons in Hall as [[[_ Hk] [_ Hv]] Hall].
  cbn [fmap list_fmap fold_left fst snd].
  assert (Hpair : JS.split "=" (k' ++ "=" ++ v') = [k'; v']).
  { change ("=" ++ v') with (String "=" v'). rewrite (split_app "=" k' v' Hk).
    now rewrite (split_none "=" v' Hv). }
  rewrite Hpair. cbn [List.nth List.nth_error].
  rewrite (IH _ Hall Hproto).
  destruct (String.eqb_spec k' "__proto__") as [->|Hkp].
  - rewrite filter_cons_False by (cbn; congruence). reflexivity.
  - rewrite prop_insert. destruct (decide (k' = k)) as [->|Hne].
    + rewrite filter_cons_True by reflexivity. rewrite last_cons.
      destruct (last _); reflexivity.
    + rewrite filter_cons_False by exact Hne. reflexivity.
Qed.

(** X13. Query strings.  For keys and values that hold neither [&] nor
    [=], parsing the query string [k1=v1&k2=v2&...] gives each key that is
    not a name inherited from [Object.prototype] the value of its last
    pair, and [undefined] when the key is not there. *)
Theorem parseQuery_round_trip kvs k :
  Forall (fun kv => plain kv.1 ∧ plain kv.2) kvs →
  inherited k = false →
  prop (parseQuery (queryString kvs)) k
  = snd <$> last (filter (fun kv => kv.1 = k) kvs).
Proof.
  intros Hall Hk. apply inherited_proto in Hk. destruct kvs as [|kv kvs].
  - cbn. unfold prop. destruct (decide (k = "")) as [->|Hne].
    + now rewrite lookup_insert_eq.
    + rewrite lookup_insert_ne by congruence. now rewrite lookup_empty.
  - unfold parseQuery. rewrite (split_queryString kv kvs Hall).
    rewrite (prop_fold_pairs (kv :: kvs) k ∅ Hall Hk).
    destruct (last _); [reflexivity|]. unfold prop. now rewrite lookup_empty.
Qed.

(** The query of the handshake of [client1], with a repeated key. *)
Lemma parseQuery_round_trip_witness :
  Forall (fun kv => plain kv.1 ∧ plain kv.2)
    [("id", "client0"); ("v", "1.0.0"); ("id", "client1")]
  ∧ inherited "id" = false
  ∧ prop (parseQuery (queryString [("id", "client0"); ("v", "1.0.0"); ("id", "client1")])) "id"
    = snd <$> last (filter (fun kv => kv.1 = "id")
                      [("id", "client0"); ("v", "1.0.0"); ("id", "client1")]).
Proof.
  assert (H : Forall (fun kv => plain kv.1 ∧ plain kv.2)
                [("id", "client0"); ("v", "1.0.0"); ("id", "client1")]).
  { repeat (apply Forall_cons; split; [repeat split; reflexivity|]). apply Forall_nil. exact I. }
  assert (H2 : inherited "id" = false) by (vm_compute; reflexivity).
  split; [exact H|]. split; [exact H2|].
  exact (parseQuery_round_trip [("id", "client0"); ("v", "1.0.0"); ("id", "client1")] "id"
           H H2).
Defined.

(** Every value that [parseQuery] stores is a piece of a piece. *)
Lemma parseQuery_values q k v : prop (parseQuery q) k = Some v → plain v.
Proof.
  unfold parseQuery.
  pose proof (split_pieces "&" q) as Hpieces.
  assert (Hgen : ∀ l m,
    Forall (fun x => JS.indexOf x "&" = -1) l →
    (∀ k v, prop m k = Some v → plain v) →
    ∀ k v, prop (fold_left
                   (fun init kvp =>
                      let pair := JS.split "=" kvp in
                      if String.eqb (List.nth 0 pair EmptyString) "__proto__" then init
                      else <[ List.nth 0 pair EmptyString := List.nth_error pair 1 ]> init)
                   l m) k = Some v → plain v).
  { induction l as [|kvp l IH]; intros m Hl Hm; [exact Hm|].
    apply Forall_cons in Hl as [Hkvp Hl]. cbn [fold_left]. apply (IH _ Hl).
    cbv zeta. destruct (String.eqb _ "__proto__"); [exact Hm|].
    intros k0 v0. rewrite prop_insert. destruct (decide _); [|apply Hm].
    intros Hnth. apply nth_error_In, list_elem_of_In in Hnth.
    pose proof (split_pieces "=" kvp) as He.
    pose proof (split_keeps_absent "=" "&" kvp Hkvp) as Ha.
    rewrite Forall_forall in He, Ha. split; auto. }
  apply (Hgen _ ∅ Hpieces). intros k0 v0. unfold prop. rewrite lookup_empty. discriminate.
Qed.

(** X14. Separators in values.  No value that [parseQuery] returns holds a
    [=] or a [&]: a value is cut at its first [=].  So when the configured
    token holds one of the two, no query passes the token check: every
    upgrade request is rejected, and every send and receive request is
    turned away. *)
Theorem token_with_separator_admits_nobody q :
  (∀ k v, prop (parseQuery q) k = Some v → plain v)
  ∧ (∀ cfg tk, token cfg = Some tk → ¬ plain tk →
       checkEnvironment cfg (parseQuery q) ≠ None
       ∧ ∀ client, unauthorized cfg (parseQuery q) client = true).
Proof.
  split; [apply parseQuery_values|].
  intros cfg tk Htk Hbad.
  assert (Hne : prop (parseQuery q) "t" ≠ Some tk).
  { intros Ht. apply Hbad. apply (parseQuery_values q "t" tk Ht). }
  split.
  - unfold checkEnvironment. rewrite Htk.
    destruct (match prop (parseQuery q) "v" with Some _ => _ | None => _ end);
      [discriminate|].
    destruct (match prop (parseQuery q) "id" with Some _ => _ | None => _ end);
      [discriminate|].
    rewrite bool_decide_eq_true_2 by exact Hne. discriminate.
  - intros [client|]; [|reflexivity]. cbn. rewrite Htk.
    now apply bool_decide_eq_true_2.
Qed.

End Parsing.

(** ** The observable of the test helper *)

Section Observable.

Import SimpleObservable.

Context {T : Type} (faulty : nat → bool).

Lemma consistent_new : consistent new.
Proof. unfold consistent. cbn. split; [discriminate | congruence]. Qed.

Lemma consistent_apply (o : op T) s : consistent s → consistent (apply faulty o s).1.
Proof.
  unfold consistent. intros Hs. destruct o as [c x|x|v]; cbn [apply].
  - unfold subscribe. destruct (_active s) eqn:Ha; cbn; rewrite ?Ha.
    + split; [intros _ | reflexivity]. intros H. now apply app_eq_nil in H as [_ ?].
    + split; [intros _ | reflexivity]. intros H. now apply app_eq_nil in H as [_ ?].
  - unfold unsubscribe. destruct (decide _) as [Hl|Hl]; cbn.
    + apply length_zero_iff_nil in Hl. rewrite Hl. split; [discriminate | congruence].
    + assert (Hne : splice1 (indexOf (_subscribers s) x) (_subscribers s) ≠ []).
      { intros E. apply Hl. now rewrite E. }
      split; [intros _; exact Hne|]. intros _. apply Hs.
      intros E. apply Hne. unfold splice1. rewrite E. reflexivity.
  - exact Hs.
Qed.

Lemma consistent_run (ops : list (op T)) : ∀ s, consistent s → consistent (run faulty ops s).1.
Proof.
  induction ops as [|o ops IH]; intros s Hs; [exact Hs|].
  cbn [run]. pose proof (consistent_apply o s Hs) as H1.
  destruct (apply faulty o s) as [s1 e1]. specialize (IH s1 H1).
  destruct (run faulty ops s1) as [s2 e2]. exact IH.
Qed.

(** X15. Activation of the observable.  After any sequence of [subscribe],
    [unsubscribe] and [next] calls the observable is active exactly when
    its subscriber list is not empty.  So the create function is called by
    a [subscribe] exactly when nobody is subscribed, and a value that the
    create function passes to [observer.next] before it returns reaches no
    subscriber: the new subscriber is added after the create function has
    returned. *)
Theorem observable_activation (ops : list (op T)) (c : creation T) (x : nat) :
  let s := (run faulty ops new).1 in
  (_active s = true ↔ _subscribers s ≠ [])
  ∧ (subscribe faulty c x s).2 = (if _active s then [] else [Created])
  ∧ _subscribers (subscribe faulty c x s).1 = (_subscribers s ++ [x])%list
  ∧ _active (subscribe faulty c x s).1 = true.
Proof.
  intros s. pose proof (consistent_run ops new consistent_new) as Hs. fold s in Hs.
  split; [exact Hs|]. unfold subscribe.
  destruct (_active s) eqn:Ha; cbn; [auto|].
  assert (Hnil : _subscribers s = []).
  { destruct (_subscribers s) as [|y l] eqn:E; [reflexivity|].
    assert (Habs : _active s = true) by (apply Hs; rewrite E; discriminate). congruence. }
  split; [|rewrite Hnil; auto]. f_equal.
  induction (emits c) as [|v vs IH]; [reflexivity|].
  cbn. unfold next at 1. rewrite Hnil. cbn. exact IH.
Qed.

Lemma indexOf_absent l x : x ∉ l → indexOf l x = -1.
Proof.
  intros Hx. unfold indexOf.
  destruct (list_find _ l) as [[i y]|] eqn:E; [|reflexivity].
  apply list_find_Some in E as (Hi & -> & _). elim Hx. eapply list_elem_of_lookup_2; eauto.
Qed.

Lemma indexOf_present l1 l2 x :
  x ∉ l1 → indexOf (l1 ++ x :: l2) x = Z.of_nat (length l1).
Proof.
  intros Hx. unfold indexOf.
  assert (Hf : list_find (fun y => y = x) (l1 ++ x :: l2) = Some (length l1, x)).
  { apply list_find_Some. split; [|split; [reflexivity|]].
    - rewrite lookup_app_r by lia. now rewrite Nat.sub_diag.
    - intros j y Hj Hlt ->. apply Hx. rewrite lookup_app_l in Hj by exact Hlt.
      eapply list_elem_of_lookup_2; eauto. }
  now rewrite Hf.
Qed.

Lemma splice1_last l y : splice1 (-1) (l ++ [y]) = l.
Proof.
  unfold splice1, JS.clampIndex. cbn [Z.ltb Z.compare]. rewrite length_app. cbn [length].
  replace (Z.to_nat (Z.max (Z.of_nat (length l + 1) + -1) 0)) with (length l) by lia.
  rewrite delete_middle. apply app_nil_r.
Qed.

Lemma splice1_middle l1 x l2 :
  splice1 (Z.of_nat (length l1)) (l1 ++ x :: l2) = (l1 ++ l2)%list.
Proof.
  unfold splice1, JS.clampIndex.
  destruct (Z.of_nat (length l1) <? 0) eqn:E; [apply Z.ltb_lt in E; lia|].
  rewrite length_app. cbn [length].
  replace (Z.to_nat (Z.min (Z.of_nat (length l1)) (Z.of_nat (length l1 + S (length l2)))))
    with (length l1) by lia.
  apply delete_middle.
Qed.

(** X16. Unsubscribing.  [unsubscribe] removes the first entry of its
    subscriber when there is one; when there is none (the subscription was
    already cancelled) [indexOf] answers [-1] and [splice(-1, 1)] removes
    the last subscriber instead, whoever it is.  Whenever the list is empty
    afterwards, also when it was empty before, the observable is made
    inactive and the cleanup function it holds is called. *)
Theorem unsubscribe_removes_one_entry (s : state) x :
  (∀ l1 l2, _subscribers s = (l1 ++ x :: l2)%list → x ∉ l1 →
     _subscribers (unsubscribe (T := T) x s).1 = (l1 ++ l2)%list)
  ∧ (∀ l y, _subscribers s = (l ++ [y])%list → x ∉ (l ++ [y])%list →
       _subscribers (unsubscribe (T := T) x s).1 = l)
  ∧ (_subscribers (unsubscribe (T := T) x s).1 = [] →
     _active (unsubscribe (T := T) x s).1 = false
     ∧ (unsubscribe (T := T) x s).2
       = match _cleanup s with Some f => [Cleaned f] | None => [] end)
  ∧ (_subscribers (unsubscribe (T := T) x s).1 ≠ [] →
     _active (unsubscribe (T := T) x s).1 = _active s
     ∧ (unsubscribe (T := T) x s).2 = []).
Proof.
  assert (Hsub : _subscribers (unsubscribe (T := T) x s).1
                 = splice1 (indexOf (_subscribers s) x) (_subscribers s)).
  { unfold unsubscribe. destruct (decide _); reflexivity. }
  split; [|split; [|split]].
  - intros l1 l2 Hl Hx. rewrite Hsub, Hl, (indexOf_present l1 l2 x Hx).
    apply splice1_middle.
  - intros l y Hl Hx. rewrite Hsub, Hl, (indexOf_absent _ x Hx). apply splice1_last.
  - rewrite Hsub. intros Hnil. unfold unsubscribe. rewrite Hnil. cbn. auto.
  - rewrite Hsub. intros Hne. unfold unsubscribe.
    destruct (decide _) as [Hl|Hl]; [|cbn; auto].
    apply length_zero_iff_nil in Hl. contradiction.
Qed.

End Observable.

(** Two subscribers; the first one cancels its subscription twice: the
    second call removes the second subscriber and runs the cleanup. *)
Example stale_unsubscribe_drops_the_other_subscriber :
  SimpleObservable.run (fun _ => false)
    [SimpleObservable.Subscribe
       {| SimpleObservable.emits := ["early"]; SimpleObservable.returns := Some 7%nat |} 1%nat;
     SimpleObservable.Subscribe
       {| SimpleObservable.emits := []; SimpleObservable.returns := None |} 2%nat;
     SimpleObservable.Next "one";
     SimpleObservable.Unsubscribe 1%nat;
     SimpleObservable.Unsubscribe 1%nat;
     SimpleObservable.Next "two"]
    SimpleObservable.new
  = ({| SimpleObservable._active := false; SimpleObservable._cleanup := Some 7%nat;
        SimpleObservable._subscribers := [] |},
     [SimpleObservable.Created;
      SimpleObservable.Called 1 "one"; SimpleObservable.Called 2 "one";
      SimpleObservable.Cleaned 7]).
Proof. reflexivity. Qed.

(** ** The start script *)

Section StartScript.

Import Start.

Lemma toUpperCase_app a b : toUpperCase (a ++ b) = toUpperCase a ++ toUpperCase b.
Proof.
  induction a as [|c a IH]; [now rewrite !append_nil_l|].
  rewrite append_cons. cbn [toUpperCase]. now rewrite append_cons, IH.
Qed.

Lemma startsWith_app a b : JS.startsWith (a ++ b) a = true.
Proof.
  unfold JS.startsWith. induction a as [|c a IH]; [now destruct b|].
  rewrite append_cons. cbn [String.prefix].
  destruct (Ascii.ascii_dec c c); [exact IH | contradiction].
Qed.

Lemma find_skip {A} (f : A → bool) l1 x l2 :
  Forall (fun a => f a = false) l1 → f x = true →
  List.find f (l1 ++ x :: l2) = Some x.
Proof.
  induction l1 as [|a l1 IH]; intros Hl Hx; cbn.
  - now rewrite Hx.
  - apply Forall_cons in Hl as [-> Hl]. now apply IH.
Qed.

Lemma find_none {A} (f : A → bool) l :
  Forall (fun a => f a = false) l → List.find f l = None.
Proof.
  induction l as [|a l IH]; intros Hl; [reflexivity|].
  apply Forall_cons in Hl as [Ha Hl]. cbn. rewrite Ha. now apply IH.
Qed.

(** The first argument that names the variable decides. *)
Lemma getVariable_argument argv env name d
    (before : list string) (n rest : string) (after : list string) :
  argv = (before ++ (n ++ "=" ++ rest)%string :: after)%list →
  Forall (fun arg => names name arg = false) before →
  toUpperCase n = toUpperCase name → JS.indexOf n "=" = -1 →
  getVariable argv env name d
  = Returned (Some (List.nth 0 (JS.split "=" rest) EmptyString)).
Proof.
  intros -> Hbefore Hn Hno. unfold getVariable.
  rewrite (find_skip (fun arg => JS.startsWith (toUpperCase arg) (toUpperCase name ++ "="))
             before (n ++ "=" ++ rest) after Hbefore).
  2:{ assert (E : toUpperCase (n ++ "=" ++ rest)
                  = (toUpperCase name ++ "=") ++ toUpperCase rest)
        by (rewrite toUpperCase_app, Hn, append_assoc; reflexivity).
      rewrite E. apply startsWith_app. }
  change ("=" ++ rest) with (String "=" rest).
  destruct (n ++ String "=" rest) as [|c r] eqn:E.
  { destruct n; discriminate E. }
  rewrite <- E, (split_app "=" n rest Hno). cbn [List.nth_error].
  destruct (JS.split "=" rest) as [|v t] eqn:Es; [|reflexivity].
  destruct rest as [|a rest]; cbn in Es; [discriminate|].
  destruct (Ascii.eqb a "="); [discriminate|].
  destruct (JS.split "=" rest); discriminate.
Qed.

(** X17. Start-up variables.  The first command-line argument [<n>=<rest>]
    whose name is the variable's up to case decides, whatever the
    environment and the default hold, and the value is [<rest>] up to its
    first [=], so [TOKEN=a=b] reads [a] and [TOKEN=] reads the empty string.
    Without such an argument the environment variable decides, then the
    default; without a default the call throws. *)
Theorem getVariable_precedence argv env name d :
  Forall (fun arg => isAscii arg = true) argv → isAscii name = true →
  (∀ (before : list string) (n rest : string) (after : list string),
     argv = (before ++ (n ++ "=" ++ rest)%string :: after)%list →
     Forall (fun arg => names name arg = false) before →
     toUpperCase n = toUpperCase name → JS.indexOf n "=" = -1 →
     getVariable argv env name d
     = Returned (Some (List.nth 0 (JS.split "=" rest) EmptyString)))
  ∧ (Forall (fun arg => names name arg = false) argv →
     getVariable argv env name d
     = match env !! toUpperCase name, d with
       | Some value, _ => Returned (Some value)
       | None, Some value => Returned (Some value)
       | None, None =>
           Threw ("No value for variable " ++ dquote ++ toUpperCase name ++ dquote
                  ++ " found in environment or startup args")
       end).
Proof.
  intros _ _. split; [intros before n rest after; apply getVariable_argument|].
  intros Hnone. unfold getVariable.
  rewrite (find_none (fun arg => JS.startsWith (toUpperCase arg) (toUpperCase name ++ "="))
             argv Hnone).
  destruct (env !! toUpperCase name), d; reflexivity.
Qed.

(** [node start.js token=a=b] with [TOKEN] set in the environment. *)
Lemma getVariable_precedence_witness :
  Forall (fun arg => isAscii arg = true) ["node"; "start.js"; "token=a=b"]
  ∧ isAscii "TOKEN" = true
  ∧ getVariable ["node"; "start.js"; "token=a=b"] {["TOKEN" := "secret"]} "TOKEN" (Some "")
    = Returned (Some "a").
Proof.
  assert (H1 : Forall (fun arg => isAscii arg = true) ["node"; "start.js"; "token=a=b"]).
  { repeat (apply Forall_cons; split; [reflexivity|]). apply Forall_nil. exact I. }
  assert (H2 : isAscii "TOKEN" = true) by reflexivity.
  split; [exact H1|]. split; [exact H2|].
  apply (proj1 (getVariable_precedence ["node"; "start.js"; "token=a=b"]
                  {["TOKEN" := "secret"]} "TOKEN" (Some "") H1 H2)
           ["node"; "start.js"] "token" "a=b" []).
  - reflexivity.
  - repeat (apply Forall_cons; split; [reflexivity|]). apply Forall_nil. exact I.
  - reflexivity.
  - reflexivity.
Defined.

(** X18. The empty token argument.  An argument [TOKEN=] (in any case)
    that comes before any other [TOKEN] argument starts the server without
    a token, whatever [TOKEN] the environment sets: the handshake and the
    HTTP routes then accept any value of [t], or none. *)
Theorem empty_token_argument_disables_check argv env
    (before : list string) (n : string) (after : list string) :
  Forall (fun arg => isAscii arg = true) argv →
  argv = (before ++ (n ++ "=")%string :: after)%list →
  Forall (fun arg => names "TOKEN" arg = false) before →
  toUpperCase n = "TOKEN" → JS.indexOf n "=" = -1 →
  startToken argv env = None
  ∧ ∀ mp dev q,
      tokenOk (startConfig mp (startToken argv env) dev) (parseQuery q)
      ∧ ∀ client,
          unauthorized (startConfig mp (startToken argv env) dev) (parseQuery q)
            (Some client) = false.
Proof.
  intros Hascii Hargv Hbefore Hn Hno.
  assert (Hnone : startToken argv env = None).
  { unfold startToken.
    now rewrite (getVariable_argument argv env "TOKEN" (Some EmptyString)
                   before n EmptyString after Hargv Hbefore Hn Hno). }
  split; [exact Hnone|]. intros mp dev q. rewrite Hnone. split.
  - intros tk Htk. discriminate Htk.
  - intros client. reflexivity.
Qed.

(** [node start.js Token=] with [TOKEN] set in the environment. *)
Lemma empty_token_argument_disables_check_witness :
  Forall (fun arg => isAscii arg = true) ["node"; "start.js"; "Token="]
  ∧ ["node"; "start.js"; "Token="] = (["node"; "start.js"] ++ ("Token" ++ "=")%string :: [])%list
  ∧ Forall (fun arg => names "TOKEN" arg = false) ["node"; "start.js"]
  ∧ toUpperCase "Token" = "TOKEN"
  ∧ JS.indexOf "Token" "=" = -1
  ∧ startToken ["node"; "start.js"; "Token="] {["TOKEN" := "secret"]} = None.
Proof.
  assert (H1 : Forall (fun arg => isAscii arg = true) ["node"; "start.js"; "Token="]).
  { repeat (apply Forall_cons; split; [reflexivity|]). apply Forall_nil. exact I. }
  assert (H2 : ["node"; "start.js"; "Token="]
               = (["node"; "start.js"] ++ ("Token" ++ "=")%string :: [])%list) by reflexivity.
  assert (H3 : Forall (fun arg => names "TOKEN" arg = false) ["node"; "start.js"]).
  { repeat (apply Forall_cons; split; [reflexivity|]). apply Forall_nil. exact I. }
  assert (H4 : toUpperCase "Token" = "TOKEN") by reflexivity.
  assert (H5 : JS.indexOf "Token" "=" = -1) by reflexivity.
  split; [exact H1|]. split; [exact H2|]. split; [exact H3|]. split; [exact H4|].
  split; [exact H5|].
  exact (proj1 (empty_token_argument_disables_check ["node"; "start.js"; "Token="]
                  {["TOKEN" := "secret"]} ["node"; "start.js"] "Token" [] H1 H2 H3 H4 H5)).
Defined.

End StartScript.

(** ** Directed frames and session round trips *)

Section Composition.

Lemma filter_none {A} (P : A → Prop) `{∀ x, Decision (P x)} (l : list A) :
  (∀ x, x ∈ l → ¬ P x) → filter P l = [].
Proof.
  induction l as [|a l IH]; intros Hall; [reflexivity|].
  rewrite filter_cons_False by (apply Hall; left).
  apply IH. intros x Hx. apply Hall. now right.
Qed.

Lemma filter_unique {A B} `{EqDecision B} (f : A → B) (l : list A) c :
  NoDup (f <$> l) → c ∈ l → filter (fun x => f x = f c) l = [c].
Proof.
  induction l as [|a l IH]; intros Hnd Hc; [inversion Hc|].
  rewrite fmap_cons in Hnd. apply NoDup_cons in Hnd as [Ha Hnd].
  apply elem_of_cons in Hc as [->|Hc].
  - rewrite filter_cons_True by reflexivity. f_equal.
    apply filter_none. intros x Hx Heq. apply Ha. rewrite <- Heq.
    now apply list_elem_of_fmap_2.
  - rewrite filter_cons_False; [now apply IH|].
    intros Heq. apply Ha. rewrite Heq. now apply list_elem_of_fmap_2.
Qed.

(** X19. Directed frames.  A frame [to:<id>;<body>] of a registered peer
    (for an id without [;] other than [all]) is delivered to the member of
    the sender's group that holds the id, and to nobody else; when the
    sender's group has no member with that id the frame is dropped without
    any notice, also when another group has one. *)
Theorem directed_frame_reaches_one_peer cfg s g p r to body :
  reachable cfg s → p ∈ groupOf s g →
  noSemicolon to → to ≠ "" → to ≠ "all" →
  let out := (spill r body s).2 in
  let effects := (step r (Message (client_ws p) false (directFrame to body)) s).2 in
  (∀ c, c ∈ groupOf s g → client_id c = to → effects = [Deliver (client_ws c) out])
  ∧ ((∀ c, c ∈ groupOf s g → client_id c ≠ to) → effects = []).
Proof.
  intros Hreach Hp Hno Hne Hall out effects.
  pose proof (reachable_invariant cfg s Hreach) as Hinv.
  destruct (step_message_registered cfg s g p r _ Hreach Hp (directFrame_not_ping to body))
    as (s2 & Heff & _).
  subst effects. rewrite Heff, (splitRecipient_direct to body Hno). cbn [fst snd].
  rewrite (forward_named to _ _ _ _ Hne Hall). fold out. split.
  - intros c Hc <-.
    assert (Hnd : NoDup (client_id <$> groupOf s g)).
    { unfold groupOf. destruct (clients s !! g) as [l|] eqn:Hl; [|constructor].
      apply (inv_unique s Hinv g l Hl). }
    now rewrite (filter_unique client_id (groupOf s g) c Hnd Hc).
  - intros Hnone. now rewrite (filter_none _ (groupOf s g) Hnone).
Qed.

(** [client1] writes to [client2], and to a peer that is not there. *)
Lemma directed_frame_reaches_one_peer_witness :
  reachable sampleConfig twoPeers
  ∧ client1 ∈ groupOf twoPeers "mydb"
  ∧ noSemicolon "client2" ∧ "client2" ≠ "" ∧ "client2" ≠ "all"
  ∧ (∀ c, c ∈ groupOf twoPeers "mydb" → client_id c = "client2" →
       (step sampleReading (Message (client_ws client1) false (directFrame "client2" "hello"))
          twoPeers).2
       = [Deliver (client_ws c) (spill sampleReading "hello" twoPeers).2]).
Proof.
  assert (H1 : client1 ∈ groupOf twoPeers "mydb") by (vm_compute; left).
  assert (H2 : noSemicolon "client2") by reflexivity.
  assert (H3 : "client2" ≠ "") by discriminate.
  assert (H4 : "client2" ≠ "all") by discriminate.
  split; [exact twoPeers_reachable|]. split; [exact H1|]. split; [exact H2|].
  split; [exact H3|]. split; [exact H4|].
  exact (proj1 (directed_frame_reaches_one_peer sampleConfig twoPeers "mydb" client1
                  sampleReading "client2" "hello" twoPeers_reachable H1 H2 H3 H4)).
Defined.

(** X20. A session that comes and goes.  When a peer with a new id is
    admitted and then disconnects, every member list and the set of open
    sockets are as they were before; the sockets of its group keep the
    subscription to its channel, which the code never cancels. *)
Theorem connect_disconnect_round_trip cfg s g q id r r' :
  reachable cfg s →
  checkEnvironment (config s) (parseQuery q) = None →
  prop (parseQuery q) "id" = Some id →
  (∀ c, c ∈ groupOf s g → client_id c ≠ id) →
  let s' := (step r (Connect g q) s).1 in
  let s'' := (step r' (Disconnect (nextSocket s)) s').1 in
  (∀ g', groupOf s'' g' = groupOf s g')
  ∧ (∀ k, is_Some (sockets s'' !! k) ↔ is_Some (sockets s !! k))
  ∧ (∀ k w, sockets s !! k = Some w →
       ∃ w'', sockets s'' !! k = Some w'' ∧ ws_topics w ⊆ ws_topics w''
              ∧ ((∃ c, c ∈ groupOf s g ∧ client_ws c = k) → topicOf g id ∈ ws_topics w'')).
Proof.
  intros Hreach Hck Hid Hnew s' s''.
  pose proof (reachable_invariant cfg s Hreach) as Hinv.
  pose proof (reachable_wired cfg s Hreach) as Hwd.
  pose proof (step_invariant r (Connect g q) s Hinv) as Hinv'.
  pose proof (step_wired r (Connect g q) s Hinv Hwd) as Hwd'.
  fold s' in Hinv', Hwd'.
  pose proof (runTimers_invariant (now r) s Hinv) as Hinv0.
  pose proof (runTimers_wired (now r) s Hwd) as Hwd0.
  destruct (runTimers_frame (now r) s) as (_ & Hs0 & Hn0 & _ & Hc0).
  assert (Hfresh : ∀ k w, sockets s !! k = Some w → k ≠ nextSocket s).
  { intros k w Hw. pose proof (inv_fresh s Hinv _ _ Hw). lia. }
  destruct (getClients_groupOf g (runTimers (now r) s)) as [Hgrp|(Hnone & Hempty & Hi)].
  2:{ (* an inherited group name: the upgrade raises, nobody joins *)
    assert (Hs' : s' = runTimers (now r) s).
    { subst s'. unfold step. cbn [handle].
      rewrite upgrade_inherited; [reflexivity | now rewrite Hc0 | now rewrite Hnone]. }
    assert (Hs'' : s'' = runTimers (now r') s').
    { subst s''. unfold step. cbn [handle]. unfold socketClosed.
      change (sockets (runTimers (now r') s')) with (sockets s').
      rewrite Hs'. change (sockets (runTimers (now r) s)) with (sockets s).
      destruct (sockets s !! nextSocket s) eqn:E; [now elim (Hfresh _ _ E) | reflexivity]. }
    rewrite Hs'', Hs'. split; [|split].
    - intros g'. reflexivity.
    - intros k. reflexivity.
    - intros k w Hw. exists w. split; [exact Hw|]. split; [reflexivity|].
      intros (c & Hc & _). rewrite groupOf_runTimers in Hempty.
      rewrite Hempty in Hc. inversion Hc. }
  (* the admission *)
  assert (Hs' : s' = (resUpgrade r g id (getClients g (runTimers (now r) s)).1).1).
  { subst s'. unfold step. cbn [handle].
    pose proof (upgrade_admitted r g q _ id (groupOf (runTimers (now r) s) g) Hinv0) as Hup.
    rewrite Hc0 in Hup. specialize (Hup Hck Hid Hgrp).
    rewrite groupOf_runTimers in Hup.
    destruct (list_find _ (groupOf s g)) as [[i c]|] eqn:Hf; [|now rewrite Hup].
    apply list_find_Some in Hf as (Hi & Hcid & _).
    elim (Hnew c); [eapply list_elem_of_lookup_2; eauto | exact Hcid]. }
  pose proof (getClients_invariant g _ Hinv0) as H1.
  pose proof (getClients_wired g _ Hwd0) as W1.
  pose proof (getClients_arrayAt g _ _ Hgrp) as Ha1.
  pose proof (groupOf_getClients g) as Hg1. specialize Hg1 with (s := runTimers (now r) s).
  destruct (getClients_frame g (runTimers (now r) s)) as (Hs1 & Hn1 & _).
  set (s1 := (getClients g (runTimers (now r) s)).1) in *.
  destruct (resUpgrade_result r g id s1 H1 Ha1 W1) as (_ & Hg3 & Hs3 & _).
  destruct (resUpgrade_topics r g id s1 H1 Ha1) as (Hold & _ & _).
  rewrite <- Hs' in Hg3, Hs3, Hold. rewrite Hn1, Hn0 in Hg3, Hs3.
  set (h := nextSocket s) in *.
  (* the disconnect *)
  pose proof (runTimers_invariant (now r') s' Hinv') as Hinv0'.
  pose proof (runTimers_wired (now r') s' Hwd') as Hwd0'.
  destruct (runTimers_frame (now r') s') as (_ & Hs0' & _).
  assert (Hcn : newClient r g id h ∈ groupOf (runTimers (now r') s') g).
  { rewrite groupOf_runTimers, Hg3, decide_True by reflexivity.
    apply elem_of_app. right. left. }
  destruct (socketClosed_result _ g _ Hinv0' Hwd0' Hcn) as (Hs'' & Hg'' & _).
  cbn [client_ws newClient] in Hs'', Hg''.
  assert (Es'' : s'' = (socketClosed h (runTimers (now r') s')).1) by reflexivity.
  rewrite <- Es'' in Hs'', Hg''. clear Es''.
  assert (Hgs : ∀ g', groupOf s1 g' = groupOf s g')
    by (intros g'; rewrite Hg1; apply groupOf_runTimers).
  assert (Holdws : ∀ g' c, c ∈ groupOf s g' → client_ws c ≠ h).
  { intros g' c Hc. apply groupOf_elem in Hc as (l & Hl & Hc).
    destruct (inv_registered s Hinv g' l c Hl Hc) as (_ & w & Hw & _).
    apply (Hfresh _ _ Hw). }
  split; [|split].
  - intros g'. rewrite Hg'', groupOf_runTimers, Hg3.
    destruct (decide (g = g')) as [<-|Hne]; rewrite Hgs.
    + rewrite filter_app, (filter_all _ (groupOf s g)) by (apply Holdws).
      rewrite filter_cons_False by (cbn; auto). apply app_nil_r.
    + apply filter_all. apply Holdws.
  - intros k. rewrite Hs'', Hs0'. unfold is_Some at 1.
    setoid_rewrite lookup_delete_Some.
    assert (Hk : is_Some (sockets s' !! k) ↔ k = h ∨ is_Some (sockets s !! k)).
    { rewrite Hs3, Hs1, Hs0. reflexivity. }
    split.
    + intros (w & Hne & Hw). destruct (proj1 Hk (ex_intro _ w Hw)) as [->|Hopen];
        [congruence | exact Hopen].
    + intros [w Hw]. destruct (proj2 Hk (or_intror (ex_intro _ w Hw))) as [w' Hw'].
      exists w'. split; [|exact Hw']. intros <-. now apply (Hfresh _ _ Hw).
  - intros k w Hw.
    destruct (Hold k w) as (w' & Hw' & Hsub & Hmem); [now rewrite Hs1, Hs0|].
    exists w'. split; [|split; [exact Hsub|]].
    + rewrite Hs'', Hs0'. apply lookup_delete_Some. split; [|exact Hw'].
      intros <-. now apply (Hfresh _ _ Hw).
    + intros (c & Hc & Hws). apply Hmem. exists c. now rewrite Hgs.
Qed.

(** A third peer joins the two sample peers and leaves. *)
Lemma connect_disconnect_round_trip_witness :
  reachable sampleConfig twoPeers
  ∧ checkEnvironment (config twoPeers) (parseQuery "id=client3&v=1.0.0&t=s") = None
  ∧ prop (parseQuery "id=client3&v=1.0.0&t=s") "id" = Some "client3"
  ∧ (∀ c, c ∈ groupOf twoPeers "mydb" → client_id c ≠ "client3")
  ∧ ∀ g', groupOf (step laterReading (Disconnect (nextSocket twoPeers))
                     (step sampleReading (Connect "mydb" "id=client3&v=1.0.0&t=s")
                        twoPeers).1).1 g'
          = groupOf twoPeers g'.
Proof.
  assert (H1 : checkEnvironment (config twoPeers) (parseQuery "id=client3&v=1.0.0&t=s") = None)
    by (vm_compute; reflexivity).
  assert (H2 : prop (parseQuery "id=client3&v=1.0.0&t=s") "id" = Some "client3")
    by (vm_compute; reflexivity).
  assert (H3 : ∀ c, c ∈ groupOf twoPeers "mydb" → client_id c ≠ "client3").
  { intros c Hc.
    assert (Hg : groupOf twoPeers "mydb" = [client1; client2]) by (vm_compute; reflexivity).
    rewrite Hg in Hc. apply elem_of_cons in Hc as [->|Hc]; [discriminate|].
    apply list_elem_of_singleton in Hc as ->. discriminate. }
  split; [exact twoPeers_reachable|]. split; [exact H1|]. split; [exact H2|].
  split; [exact H3|].
  exact (proj1 (connect_disconnect_round_trip sampleConfig twoPeers "mydb"
                  "id=client3&v=1.0.0&t=s" "client3" sampleReading laterReading
                  twoPeers_reachable H1 H2 H3)).
Defined.

End Composition.

(** ** The spill threshold *)

Section Spill.














Lemma run_app tr1 tr2 : ∀ s, (run (tr1 ++ tr2) s).1 = (run tr2 (run tr1 s).1).1.
Proof.
  induction tr1 as [|[r e] tr1 IH]; intros s; [reflexivity|].
  cbn [run app]. destruct (step r e s) as [s1 out]. specialize (IH s1).
  destruct (run (tr1 ++ tr2) s1) as [s2 outs]. destruct (run tr1 s1) as [s3 outs3].
  exact IH.
Qed.

(** The state in which the handler of a turn runs, after the timer phase,
    is itself the state of a run (one turn longer, for a binary frame, which
    the [message] handler ignores): what is proved of the states of runs
    holds of it. *)
Lemma timer_phase_is_a_run tr r s :
  (run (tr ++ [(r, Message 0 true "")]) s).1 = runTimers (now r) (run tr s).1.
Proof. rewrite run_app. reflexivity. Qed.





(** The same body posted to [/mydb/send] by [client1]. *)
Example accents_posted :
  String.length accents = 30%nat
  ∧ utf8Length accents = 60
  ∧ (step sampleReading (PostSend "mydb" "id=client1&t=s" (directFrame "client2" accents))
       twoPeers).2
    = [Respond None "ok"; Deliver 1 accents].
Proof. repeat split; vm_compute; reflexivity. Qed.

End Spill.
